(** * Batch scheduler and adjustment pipeline of the photo editor

    A shallow embedding of [BatchProcessor.ts] and of the parts of
    [PhotoProcessor.ts] it drives, with the properties the specification
    states about them.

    Conventions of the embedding:
    - a JavaScript [number] that holds a dial value is a rational [Q]
      (every finite double is one); what the program computes from it is
      computed as JavaScript does, in binary64: [Js.double] rounds a
      rational to the nearest double, and each sum, difference, product and
      quotient is rounded so.  The progress of a job is computed in the
      same way;
    - the concurrency cap is a [Js.number]: a rational, an infinity or
      [NaN], as the argument of [setMaxConcurrentJobs] can be;
    - counters and array lengths are [nat]; timestamps are [Z];
    - an optional property ([x?: T]) is an [option];
    - a thrown value is a [JsError], of which only the [message] property is
      ever read by the code;
    - the [sharp] image handle is the term of the calls that returned on it:
      the library is opaque, so what it answers ([toBuffer], [toFile],
      [metadata], whether it accepts the arguments of a call), and the file
      system calls, are fields of a [World]. *)

From Stdlib Require Import List String Ascii Bool Arith ZArith QArith Qabs Qround Lia.
From Stdlib Require Import DecimalString.
From Stdlib Require Import Permutation Sorted DecimalNat Qpower Lqa SpecFloat.
Import ListNotations.

Local Open Scope string_scope.

(** ** JavaScript strings and Node's [path] module *)

Module Js.

(** [s.padStart(n, c)] for a one-character pad string. *)
Fixpoint repeat_char (c : ascii) (n : nat) : string :=
  match n with
  | O => EmptyString
  | S k => String c (repeat_char c k)
  end.

Definition padStart (n : nat) (c : ascii) (s : string) : string :=
  repeat_char c (n - String.length s) ++ s.

(** [n.toString()] for a non-negative integer. *)
Definition nat_toString (n : nat) : string :=
  NilZero.string_of_uint (Nat.to_uint n).

Definition Z_toString (z : Z) : string :=
  NilZero.string_of_int (Z.to_int z).

(** [s.toLowerCase()] on the ASCII letters. *)
Definition lower_ascii (c : ascii) : ascii :=
  let n := nat_of_ascii c in
  if andb (65 <=? n)%nat (n <=? 90)%nat then ascii_of_nat (n + 32) else c.

Fixpoint toLowerCase (s : string) : string :=
  match s with
  | EmptyString => EmptyString
  | String c r => String (lower_ascii c) (toLowerCase r)
  end.

(** A string is truthy when it is not empty. *)
Definition truthy_string (s : string) : bool :=
  negb (String.eqb s "").

Definition truthy_opt_string (o : option string) : bool :=
  match o with Some s => truthy_string s | None => false end.

Definition truthy_opt_bool (o : option bool) : bool :=
  match o with Some b => b | None => false end.

(** *** Numbers

    A [number] that can be anything a caller passes. *)
Inductive number := NaN | Infinity | NegInfinity | Num (q : Q).

Definition of_nat (n : nat) : number := Num (inject_Z (Z.of_nat n)).

(** [a < b] *)
Definition lt (a b : number) : bool :=
  match a, b with
  | NaN, _ | _, NaN => false
  | _, NegInfinity | Infinity, _ => false
  | NegInfinity, _ | _, Infinity => true
  | Num x, Num y => negb (Qle_bool y x)
  end.

(** [Math.min(a, b)] and [Math.max(a, b)] *)
Definition min (a b : number) : number :=
  match a, b with
  | NaN, _ | _, NaN => NaN
  | _, _ => if lt b a then b else a
  end.

Definition max (a b : number) : number :=
  match a, b with
  | NaN, _ | _, NaN => NaN
  | _, _ => if lt a b then b else a
  end.

(** *** Binary64 arithmetic

    [double q] is the double nearest to [q], ties to the even significand:
    a positive [q] is scaled to [2^52 <= q / 2^e < 2^53] and rounded there,
    a negative one is the opposite of the rounding of its opposite.
    Numbers below the normal range or above the largest double are left
    out, as are [NaN] and the infinities: the dials are percentages and
    the like, and the other operands are array lengths. *)

(** The integer part of the binary logarithm of a positive rational. *)
Definition ilog2 (q : Q) : Z :=
  let e := (Z.log2 (Qnum q) - Z.log2 (Z.pos (Qden q)))%Z in
  if Qle_bool (2 ^ e) q then e else (e - 1)%Z.

(** The nearest integer, halves to the even one. *)
Definition round_even (q : Q) : Z :=
  let f := Qfloor q in
  match Qcompare (q - inject_Z f) (1 # 2) with
  | Lt => f
  | Gt => (f + 1)%Z
  | Eq => if Z.even f then f else (f + 1)%Z
  end.

(** The double nearest to a positive [q]; 0 for the others. *)
Definition nearest (q : Q) : Q :=
  if Qle_bool q 0 then 0%Q
  else
    let e := (ilog2 q - 52)%Z in
    (inject_Z (round_even (q / 2 ^ e)) * 2 ^ e)%Q.

Definition double (q : Q) : Q :=
  if Qle_bool 0 q then nearest q else (- nearest (- q))%Q.

(** [a + b], [a - b], [a * b] and [a / b] on doubles, and a decimal
    literal of the source. *)
Definition add (a b : Q) : Q := double (a + b).
Definition sub (a b : Q) : Q := double (a - b).
Definition mul (a b : Q) : Q := double (a * b).
Definition div (a b : Q) : Q := double (a / b).
Definition dec (q : Q) : Q := double q.

(** The integers and the decimal literals in the Standard Library's
    specification of IEEE 754 binary64, whose operations the ones above
    are compared with. *)
Definition binary64_of_Z (z : Z) : spec_float :=
  binary_normalize 53 1024 z 0 false.

Definition binary64_of_nat (n : nat) : spec_float :=
  binary_normalize 53 1024 (Z.of_nat n) 0 false.

(** The literal [n / 10^k] of a source text, for small [n]: the quotient of
    two integers that are doubles is the double nearest to it. *)
Definition binary64_literal (n d : Z) : spec_float :=
  SFdiv 53 1024 (binary64_of_Z n) (binary64_of_Z d).

Definition binary64_value (x : spec_float) : Q :=
  match x with
  | S754_finite s m e =>
      ((if s then -1 else 1) * inject_Z (Z.pos m) * 2 ^ e)%Q
  | _ => 0%Q
  end.

End Js.

(** Node's [path] for POSIX paths.  The module belongs to the runtime, not to
    the repository; [parse] follows its documented algorithm: the base is the
    last segment (trailing separators dropped); the extension starts at the
    last dot of the base, unless there is no dot, the dot opens the base, or
    the base is [".."]. *)
Module Path.

Record ParsedPath := { base : string; name : string; ext : string }.

Definition slash : ascii := "/"%char.
Definition dot : ascii := "."%char.

(** Characters of the path in reverse, trailing separators dropped. *)
Fixpoint drop_slashes (l : list ascii) : list ascii :=
  match l with
  | c :: r => if Ascii.eqb c slash then drop_slashes r else l
  | [] => []
  end.

(** Longest prefix without a separator. *)
Fixpoint take_segment (l : list ascii) : list ascii :=
  match l with
  | c :: r => if Ascii.eqb c slash then [] else c :: take_segment r
  | [] => []
  end.

Definition base_chars (p : string) : list ascii :=
  rev (take_segment (drop_slashes (rev (list_ascii_of_string p)))).

(** Splits the reversed base at its last dot: [Some (ext without the dot,
    reversed; name, reversed)]. *)
Fixpoint split_last_dot (rl : list ascii) : option (list ascii * list ascii) :=
  match rl with
  | [] => None
  | c :: r =>
      if Ascii.eqb c dot then Some ([], r)
      else match split_last_dot r with
           | Some (e, n) => Some (c :: e, n)
           | None => None
           end
  end.

Definition parse (p : string) : ParsedPath :=
  let b := base_chars p in
  let whole := string_of_list_ascii b in
  match split_last_dot (rev b) with
  | None => {| base := whole; name := whole; ext := "" |}
  | Some (re, rn) =>
      match rn with
      | [] => {| base := whole; name := whole; ext := "" |}
      | _ =>
          if String.eqb whole ".." then {| base := whole; name := whole; ext := "" |}
          else {| base := whole;
                  name := string_of_list_ascii (rev rn);
                  ext := string_of_list_ascii (dot :: rev re) |}
      end
  end.

Definition basename (p : string) : string := base (parse p).

(** The segments between the separators: ["a//b/"] gives [a], the empty
    segment, [b] and the empty segment. *)
Fixpoint split_slash (cur : list ascii) (l : list ascii) : list string :=
  match l with
  | [] => [string_of_list_ascii (rev cur)]
  | c :: r =>
      if Ascii.eqb c slash
      then string_of_list_ascii (rev cur) :: split_slash [] r
      else split_slash (c :: cur) r
  end.

(** [normalizeString]: empty segments and [.] are dropped, [..] takes back
    the segment before it; above the start of a relative path [..] is kept,
    above the root it is dropped.  [res] holds the segments kept so far,
    the last one first. *)
Fixpoint normalize_segments (allowAboveRoot : bool) (res segs : list string)
  : list string :=
  match segs with
  | [] => rev res
  | seg :: rest =>
      if String.eqb seg "" || String.eqb seg "." then
        normalize_segments allowAboveRoot res rest
      else if String.eqb seg ".." then
        match res with
        | last :: res' =>
            if String.eqb last ".."
            then normalize_segments allowAboveRoot
                   (if allowAboveRoot then seg :: res else res) rest
            else normalize_segments allowAboveRoot res' rest
        | [] =>
            normalize_segments allowAboveRoot
              (if allowAboveRoot then [seg] else []) rest
        end
      else normalize_segments allowAboveRoot (seg :: res) rest
  end.

(** [path.normalize(p)] *)
Definition normalize (p : string) : string :=
  let chars := list_ascii_of_string p in
  match chars with
  | [] => "."
  | first :: _ =>
      let isAbsolute := Ascii.eqb first slash in
      let trailingSeparator :=
        match rev chars with c :: _ => Ascii.eqb c slash | [] => false end in
      let path :=
        String.concat "/"
          (normalize_segments (negb isAbsolute) [] (split_slash [] chars)) in
      if String.eqb path "" then
        if isAbsolute then "/" else if trailingSeparator then "./" else "."
      else
        let path := if trailingSeparator then path ++ "/" else path in
        if isAbsolute then "/" ++ path else path
  end.

(** [path.join(dir, file)]: the non-empty arguments joined by a separator,
    then normalised. *)
Definition join (dir file : string) : string :=
  if String.eqb dir "" then
    if String.eqb file "" then "." else normalize file
  else if String.eqb file "" then normalize dir
  else normalize (dir ++ "/" ++ file).

End Path.

(** ** Data model ([types.ts]) *)

Local Open Scope Q_scope.

(** [x !== 0] on a dial. *)
Definition nonzero (x : Q) : bool := negb (Qeq_bool x 0).

(** [Math.round]: the nearest integer, halves towards plus infinity. *)
Definition js_round (x : Q) : Z := Qfloor (x + (1 # 2)).

Inductive Color := Red | Orange | Yellow | Green | Aqua | Blue | Purple | Magenta.

(** The iteration order of [applyHSLAdjustments]. *)
Definition colors : list Color :=
  [Red; Orange; Yellow; Green; Aqua; Blue; Purple; Magenta].

Record PerColor := {
  pc_red : Q; pc_orange : Q; pc_yellow : Q; pc_green : Q;
  pc_aqua : Q; pc_blue : Q; pc_purple : Q; pc_magenta : Q
}.

(** [{ hue, saturation, luminance }]. *)
Record ColorAdj := { hue : Q; ca_saturation : Q; luminance : Q }.

Record ColorGrading := {
  cg_shadows : ColorAdj;
  cg_midtones : ColorAdj;
  cg_highlights : ColorAdj;
  globalSaturation : Q;
  globalLuminance : Q;
  cg_balance : Q
}.

Record ToneCurve := {
  tc_highlights : Q; tc_lights : Q; tc_darks : Q; tc_shadows : Q;
  parametricHighlights : Q; parametricLights : Q;
  parametricDarks : Q; parametricShadows : Q
}.

Record Tone := { tone_hue : Q; tone_saturation : Q }.

Record SplitToning := {
  st_highlights : Tone;
  st_shadows : Tone;
  st_balance : Q
}.

Record LensCorrections := {
  chromaticAberration : Q;
  distortion : Q;
  vignetting : Q;
  fringing : Q
}.

(** A masked adjustment; its nested partial set is the list of the dials it
    overrides.  The pipeline never reads it. *)
Record LocalAdjustment := {
  la_id : string;
  la_type : string;
  la_geometry : list (string * Q);
  la_adjustments : list (string * Q);
  la_inverted : bool
}.

Record PhotoAdjustments := {
  exposure : Q;
  contrast : Q;
  highlights : Q;
  shadows : Q;
  whites : Q;
  blacks : Q;
  temperature : Q;
  tint : Q;
  vibrance : Q;
  saturation : Q;
  pa_luminance : option PerColor;
  saturationHSL : option PerColor;
  lightness : option PerColor;
  sharpening : Q;
  noiseReduction : Q;
  vignette : option Q;
  clarity : Q;
  dehaze : Q;
  colorGrading : option ColorGrading;
  toneCurve : option ToneCurve;
  splitToning : option SplitToning;
  lensCorrections : option LensCorrections;
  localAdjustments : option (list LocalAdjustment);
  (** read through [(adjustments as any).hslAdjustments]; not declared in
      the interface *)
  hslAdjustments : option (Color -> option ColorAdj)
}.

Record FileNaming := {
  prefix : option string;
  suffix : option string;
  includeIndex : option bool
}.

Record ExportOptions := {
  format : string;
  quality : Q;
  width : option Q;
  height : option Q;
  fit : option string;
  colorSpace : option string;
  resolution : option Q;
  overwrite : option bool;
  fileNaming : option FileNaming
}.

(** ** The image handle and the opaque backend *)

(** The calls made on a [sharp] handle, with their arguments: the doubles
    the program has computed. *)
Inductive Op :=
| OpGammaPow2 (e : Q)                       (* gamma(Math.pow(2, e)) *)
| OpLinear (a b : Q)                        (* linear(a, b) *)
| OpModulate (brightness sat hue_deg : option Q)
| OpSharpen (sigma flat jagged : Q)         (* sharpen(sigma, flat, jagged) *)
| OpMedian (size : Z)
| OpBlur (sigma : Q)
| OpResize (w h : option Q) (fit_policy : string) (withoutEnlargement : bool)
| OpJpeg (q : Q)                            (* progressive, mozjpeg *)
| OpPng (q : Q)                             (* compressionLevel 9, progressive *)
| OpWebp (q : Q)                            (* effort 6 *)
| OpTiff (q : Q).                           (* compression jpeg *)

(** [sharp(path)], [sharp(buffer)] where the buffer is the rendering of an
    earlier handle, and a handle on which one more call has returned.  The
    methods of [sharp] record the call on the handle they are called on and
    return that same handle. *)
Inductive Image :=
| FromFile (path : string)
| FromBuffer (rendered : Image)
| Apply (op : Op) (img : Image).

(** A buffer is known by the handle it was rendered from. *)
Definition Buffer := Image.

Record JsError := { message : option string }.

Inductive Exn (A : Type) :=
| Ok (a : A)
| Throw (e : JsError).
Arguments Ok {A} a.
Arguments Throw {A} e.

Definition Error (m : string) : JsError := {| message := Some m |}.

(** [error?.message || 'Unknown error'] *)
Definition message_or_unknown (e : JsError) : string :=
  match message e with
  | Some m => if Js.truthy_string m then m else "Unknown error"%string
  | None => "Unknown error"%string
  end.

(** What the environment answers during one resumption of the program: the
    clock, the file system and [sharp].  [Some e] is a call that throws (or
    a promise that rejects with) [e]. *)
Record World := {
  now : Z;
  existsSync : string -> bool;
  mkdirSync : string -> option JsError;
  (** the check [sharp] makes on the arguments of a call before it records
      it: [Some e] when the call throws [e] *)
  validate : Op -> option JsError;
  toBuffer : Image -> option JsError;
  toFile : Image -> string -> option JsError;
  (** [metadata()]: the [width] and [height] it reports *)
  metadata : Image -> Exn (option Z * option Z)
}.

Definition bind {A B} (m : Exn A) (f : A -> Exn B) : Exn B :=
  match m with
  | Ok a => f a
  | Throw e => Throw e
  end.

(** [try { ... } catch (error) { return image; }] *)
Definition or_else {A} (m : Exn A) (a : A) : A :=
  match m with
  | Ok x => x
  | Throw _ => a
  end.

(** [image.op(...)]: the call throws when [sharp] refuses its arguments;
    otherwise it is recorded on the handle. *)
Definition call (w : World) (op : Op) (image : Image) : Exn Image :=
  match validate w op with
  | None => Ok (Apply op image)
  | Some e => Throw e
  end.

(** ** [PhotoProcessor] *)

Module PhotoProcessor.

Local Notation "a +. b" := (Js.add a b) (at level 50, left associativity).
Local Notation "a -. b" := (Js.sub a b) (at level 50, left associativity).
Local Notation "a *. b" := (Js.mul a b) (at level 40, left associativity).
Local Notation "a /. b" := (Js.div a b) (at level 40, left associativity).

Definition truthy_dim (d : option Z) : bool :=
  match d with Some z => negb (Z.eqb z 0) | None => false end.

(** Each helper catches what it throws and returns [image], the handle as
    it is then: with the calls that returned before the throw. *)
Definition applyVignette (w : World) (image : Image) (vignetteAmount : Q) : Image :=
  match metadata w image with
  | Throw _ => image
  | Ok (mw, mh) =>
      if negb (truthy_dim mw) || negb (truthy_dim mh) then image
      else
        let vignetteStrength := Qabs vignetteAmount /. 100 in
        let vignetteMultiplier :=
          if Qlt_le_dec 0 vignetteAmount
          then 1 -. vignetteStrength *. Js.dec (4 # 10)
          else 1 +. vignetteStrength *. Js.dec (3 # 10) in
        or_else (call w (OpModulate (Some vignetteMultiplier) None None) image) image
  end.

Definition applyDehaze (w : World) (image : Image) (dehazeAmount : Q) : Image :=
  let dehazeStrength := dehazeAmount /. 100 in
  let modulate :=
    if Qlt_le_dec 0 dehazeAmount
    then OpModulate (Some (1 +. dehazeStrength *. Js.dec (1 # 10)))
                    (Some (1 +. dehazeStrength *. Js.dec (2 # 10))) None
    else OpModulate (Some (1 -. Qabs dehazeStrength *. Js.dec (1 # 10)))
                    (Some (1 -. Qabs dehazeStrength *. Js.dec (3 # 10))) None in
  let linear :=
    if Qlt_le_dec 0 dehazeAmount
    then OpLinear (1 +. dehazeStrength *. Js.dec (3 # 10)) 0
    else OpLinear (1 -. Qabs dehazeStrength *. Js.dec (2 # 10))
                  (Qabs dehazeStrength *. 20) in
  match call w modulate image with
  | Throw _ => image
  | Ok modulated => or_else (call w linear modulated) modulated
  end.

(** [if (hue !== 0 || saturation !== 0 || luminance !== 0) image =
    image.modulate({ hue: hue * 0.1, ... })] *)
Definition modulate_color (w : World) (image : Image) (c : ColorAdj) : Exn Image :=
  if nonzero (hue c) || nonzero (ca_saturation c) || nonzero (luminance c) then
    call w (OpModulate (Some (1 +. luminance c /. 100))
                       (Some (1 +. ca_saturation c /. 100))
                       (Some (hue c *. Js.dec (1 # 10)))) image
  else Ok image.

(** Only the shadow zone is wired; [colorGrading.shadows] is an object and
    so always truthy. *)
Definition applyColorGrading (w : World) (image : Image) (cg : ColorGrading) : Image :=
  or_else (modulate_color w image (cg_shadows cg)) image.

Definition applyLensCorrections (w : World) (image : Image) (c : LensCorrections) : Image :=
  if nonzero (vignetting c) then applyVignette w image (- vignetting c)
  else image.

(** The [for] loop of [applyHSLAdjustments]: a call that throws ends it,
    and the colours behind are not looked at. *)
Fixpoint hsl_loop (w : World) (hsl : Color -> option ColorAdj)
    (cs : list Color) (image : Image) : Image :=
  match cs with
  | [] => image
  | color :: rest =>
      match hsl color with
      | Some c =>
          match modulate_color w image c with
          | Ok image' => hsl_loop w hsl rest image'
          | Throw _ => image
          end
      | None => hsl_loop w hsl rest image
      end
  end.

Definition applyHSLAdjustments (w : World) (image : Image)
    (hsl : Color -> option ColorAdj) : Image :=
  hsl_loop w hsl colors image.

Definition applyToneCurve (w : World) (image : Image) (tc : ToneCurve) : Image :=
  match (if nonzero (tc_highlights tc)
         then call w (OpLinear (1 +. tc_highlights tc /. 200) 0) image
         else Ok image) with
  | Throw _ => image
  | Ok image =>
      if nonzero (tc_shadows tc)
      then or_else (call w (OpModulate (Some (1 +. tc_shadows tc /. 200)) None None)
                      image)
                   image
      else image
  end.

Definition applySplitToning (w : World) (image : Image) (st : SplitToning) : Image :=
  if nonzero (tone_hue (st_highlights st)) || nonzero (tone_hue (st_shadows st)) then
    or_else
      (call w (OpModulate None None
                 (Some ((tone_hue (st_highlights st) +. tone_hue (st_shadows st))
                        *. Js.dec (5 # 100))))
            image)
      image
  else image.

Definition opt_stage {A} (o : option A) (f : Image -> A -> Image) (image : Image) : Image :=
  match o with Some a => f image a | None => image end.

(** [if (c) image = image.op(...)] in the body of [processPhoto], where a
    throw is not caught. *)
Definition when (c : bool) (w : World) (op : Op) (image : Image) : Exn Image :=
  if c then call w op image else Ok image.

(** The stages of [processPhoto] between [sharp(filePath)] and
    [toBuffer()], in source order.  A call of the body that throws ends
    [processPhoto]; the helpers do not throw. *)
Definition stages (w : World) (image : Image) (a : PhotoAdjustments) : Exn Image :=
  bind (when (nonzero (exposure a)) w (OpGammaPow2 (exposure a)) image) (fun image =>
  bind (when (nonzero (contrast a)) w (OpLinear (1 +. contrast a /. 100) 0) image)
       (fun image =>
  bind (when (nonzero (highlights a) || nonzero (shadows a)) w
          (OpModulate (Some (1 +. (shadows a -. highlights a) /. 200)) None None) image)
       (fun image =>
  bind (when (nonzero (whites a) || nonzero (blacks a)) w
          (OpLinear (1 +. (whites a /. 100) *. Js.dec (5 # 10))
                    ((blacks a /. 100) *. 10)) image)
       (fun image =>
  bind (when (nonzero (saturation a) || nonzero (vibrance a)) w
          (OpModulate None (Some (1 +. (saturation a +. vibrance a) /. 200)) None) image)
       (fun image =>
  bind (when (nonzero (temperature a) || nonzero (tint a)) w
          (OpModulate None None
             (Some (((temperature a /. 1000) *. Js.dec (5 # 10)
                     +. (tint a /. 1000) *. Js.dec (3 # 10)) *. 180))) image)
       (fun image =>
  let image := opt_stage (toneCurve a) (applyToneCurve w) image in
  let image := opt_stage (colorGrading a) (applyColorGrading w) image in
  let image := opt_stage (hslAdjustments a) (applyHSLAdjustments w) image in
  bind (if Qlt_le_dec 0 (sharpening a)
        then call w (OpSharpen 1 1 (sharpening a /. 100)) image else Ok image)
       (fun image =>
  bind (if Qlt_le_dec 0 (noiseReduction a) then
          let noiseReductionStrength := noiseReduction a /. 100 in
          if Qlt_le_dec (5 # 10) noiseReductionStrength
          then call w (OpMedian (Z.max 1 (js_round (noiseReductionStrength *. 3)))) image
          else call w (OpBlur (noiseReductionStrength *. 2)) image
        else Ok image)
       (fun image =>
  bind (if nonzero (clarity a) then
          let clarityAmount := Qabs (clarity a) /. 100 in
          if Qlt_le_dec 0 (clarity a)
          then call w (OpSharpen 3 1 clarityAmount) image
          else call w (OpBlur (clarityAmount *. Js.dec (5 # 10))) image
        else Ok image)
       (fun image =>
  let image :=
    match vignette a with
    | Some v => if nonzero v then applyVignette w image v else image
    | None => image
    end in
  let image :=
    if nonzero (dehaze a) then applyDehaze w image (dehaze a) else image in
  let image := opt_stage (lensCorrections a) (applyLensCorrections w) image in
  Ok (opt_stage (splitToning a) (applySplitToning w) image)))))))))).

Definition processPhoto (w : World) (filePath : string) (a : PhotoAdjustments)
  : Exn Buffer :=
  bind (stages w (FromFile filePath) a) (fun image =>
  match toBuffer w image with
  | None => Ok image
  | Some e => Throw e
  end).

Definition truthy_num (o : option Q) : bool :=
  match o with Some q => nonzero q | None => false end.

(** [options.quality || 90] *)
Definition quality_or_90 (o : ExportOptions) : Q :=
  if nonzero (quality o) then quality o else 90.

(** The [switch (options.format.toLowerCase())] of [exportPhoto]; [None] is
    the [default:] branch, which throws. *)
Definition encoder (o : ExportOptions) : option Op :=
  let f := Js.toLowerCase (format o) in
  if String.eqb f "jpeg" || String.eqb f "jpg" then Some (OpJpeg (quality_or_90 o))
  else if String.eqb f "png" then Some (OpPng (quality_or_90 o))
  else if String.eqb f "webp" then Some (OpWebp (quality_or_90 o))
  else if String.eqb f "tiff" || String.eqb f "tif" then Some (OpTiff (quality_or_90 o))
  else None.

(** What [exportPhoto] did to the file system: the handle it wrote, and
    where. *)
Record Written := { written_image : Image; written_path : string }.

(** The handle [exportPhoto] starts from: the input file, or the
    rendering of [processPhoto] when adjustments are given. *)
Definition export_source (w : World) (filePath : string)
    (adjustments : option PhotoAdjustments) : Exn Image :=
  match adjustments with
  | Some a =>
      bind (processPhoto w filePath a) (fun processedBuffer =>
      Ok (FromBuffer processedBuffer))
  | None => Ok (FromFile filePath)
  end.

(** The argument of [image.resize({ ... })]. *)
Definition resize_op (options : ExportOptions) : Op :=
  OpResize (width options) (height options)
    (match fit options with
     | Some f => if Js.truthy_string f then f else "inside"%string
     | None => "inside"%string
     end) true.

(** [exportPhoto(filePath, outputPath, options, adjustments?)]: the boolean
    it resolves to, and the file it wrote if any.  Every exception is caught
    and turned into [false]. *)
Definition exportPhoto (w : World) (filePath outputPath : string)
    (options : ExportOptions) (adjustments : option PhotoAdjustments)
  : bool * option Written :=
  let encoded :=
    bind (export_source w filePath adjustments) (fun image =>
    bind (when (truthy_num (width options) || truthy_num (height options)) w
            (resize_op options) image) (fun image =>
    match encoder options with
    | None =>
        Throw (Error ("Unsupported export format: " ++ format options))
    | Some enc => call w enc image
    end)) in
  match encoded with
  | Throw _ => (false, None)
  | Ok image =>
      match toFile w image outputPath with
      | None => (true, Some {| written_image := image; written_path := outputPath |})
      | Some _ => (false, None)
      end
  end.

End PhotoProcessor.

(** ** [BatchProcessor] *)

Module BatchProcessor.

Inductive JobStatus := Pending | Processing | Completed | Failed.

Definition status_eqb (a b : JobStatus) : bool :=
  match a, b with
  | Pending, Pending | Processing, Processing
  | Completed, Completed | Failed, Failed => true
  | _, _ => false
  end.

(** [next] is not a property of the JavaScript object: it is the loop
    variable [i] of the suspended call [processJob(job)], which holds the
    only reference to the job while it is ['processing']. *)
Record BatchJob := {
  id : string;
  name : string;
  inputFiles : list string;
  outputDirectory : string;
  adjustments : PhotoAdjustments;
  exportOptions : ExportOptions;
  status : JobStatus;
  progress : Z;
  createdDate : Z;
  startedDate : option Z;
  completedDate : option Z;
  errors : list string;
  processedFiles : nat;
  totalFiles : nat;
  next : nat
}.

(** Assignment to the mutable properties of a job. *)
Definition assign (j : BatchJob) (st : JobStatus) (pr : Z)
    (started completed : option Z) (errs : list string) (done : nat) (i : nat)
  : BatchJob :=
  {| id := id j; name := name j; inputFiles := inputFiles j;
     outputDirectory := outputDirectory j; adjustments := adjustments j;
     exportOptions := exportOptions j; status := st; progress := pr;
     createdDate := createdDate j; startedDate := started;
     completedDate := completed; errors := errs; processedFiles := done;
     totalFiles := totalFiles j; next := i |}.

Definition set_status_errors (j : BatchJob) (st : JobStatus) (errs : list string)
  : BatchJob :=
  assign j st (progress j) (startedDate j) (completedDate j) errs
         (processedFiles j) (next j).

(** *** The registry: a JavaScript [Map], which keeps insertion order *)

Definition Registry := list (string * BatchJob).

Fixpoint map_get (m : Registry) (k : string) : option BatchJob :=
  match m with
  | [] => None
  | (k', j) :: r => if String.eqb k' k then Some j else map_get r k
  end.

Fixpoint map_set (m : Registry) (k : string) (j : BatchJob) : Registry :=
  match m with
  | [] => [(k, j)]
  | (k', j') :: r =>
      if String.eqb k' k then (k', j) :: r else (k', j') :: map_set r k j
  end.

Fixpoint map_delete (m : Registry) (k : string) : Registry :=
  match m with
  | [] => []
  | (k', j') :: r =>
      if String.eqb k' k then r else (k', j') :: map_delete r k
  end.

Definition values (m : Registry) : list BatchJob := map snd m.

Record State := {
  activeJobs : Registry;
  jobQueue : list string;
  isProcessing : bool;
  maxConcurrentJobs : Js.number
}.

Definition initial : State :=
  {| activeJobs := []; jobQueue := []; isProcessing := false;
     maxConcurrentJobs := Js.Num 3 |}.

Definition with_jobs (s : State) (m : Registry) : State :=
  {| activeJobs := m; jobQueue := jobQueue s;
     isProcessing := isProcessing s; maxConcurrentJobs := maxConcurrentJobs s |}.

Definition with_queue (s : State) (q : list string) : State :=
  {| activeJobs := activeJobs s; jobQueue := q;
     isProcessing := isProcessing s; maxConcurrentJobs := maxConcurrentJobs s |}.

Definition getJob (s : State) (jobId : string) : option BatchJob :=
  map_get (activeJobs s) jobId.

(** *** Job creation *)

(** [rnd] is [Math.random().toString(36).substr(2, 9)]. *)
Definition createBatchJob (w : World) (rnd : string)
    (name : string) (inputFiles : list string) (outputDirectory : string)
    (adjustments : PhotoAdjustments) (exportOptions : ExportOptions)
    (s : State) : BatchJob * State :=
  let job :=
    {| id := "batch-" ++ Js.Z_toString (now w) ++ "-" ++ rnd;
       name := name;
       inputFiles := inputFiles;
       outputDirectory := outputDirectory;
       adjustments := adjustments;
       exportOptions := exportOptions;
       status := Pending;
       progress := 0;
       createdDate := now w;
       startedDate := None;
       completedDate := None;
       errors := [];
       processedFiles := 0;
       totalFiles := List.length inputFiles;
       next := 0 |} in
  (job, with_jobs s (map_set (activeJobs s) (id job) job)).

(** *** One file *)

Definition generateOutputFilename (inputFile : string) (job : BatchJob) (index : nat)
  : string :=
  let parsed := Path.parse inputFile in
  let fmt := format (exportOptions job) in
  let extension :=
    if String.eqb fmt "jpeg" then ".jpg"
    else if String.eqb fmt "png" then ".png"
    else if String.eqb fmt "tiff" then ".tiff"
    else Path.ext parsed in
  let basename := Path.name parsed in
  let naming := fileNaming (exportOptions job) in
  let basename :=
    match naming with
    | Some fn =>
        match prefix fn with
        | Some p => if Js.truthy_string p then p ++ basename else basename
        | None => basename
        end
    | None => basename
    end in
  let basename :=
    match naming with
    | Some fn =>
        match suffix fn with
        | Some x => if Js.truthy_string x then basename ++ x else basename
        | None => basename
        end
    | None => basename
    end in
  let basename :=
    match naming with
    | Some fn =>
        if Js.truthy_opt_bool (includeIndex fn)
        then basename ++ "_" ++ Js.padStart 3 "0" (Js.nat_toString (index + 1))
        else basename
    | None => basename
    end in
  basename ++ extension.

(** [processFile]: whether it resolves or throws, and what the export it
    ran wrote.  The export is called as
    [exportPhoto(inputFile, outputPath, job.exportOptions)]: without the
    adjustments, and its boolean result is dropped. *)
Definition processFile (w : World) (job : BatchJob) (inputFile : string) (index : nat)
  : Exn unit * option PhotoProcessor.Written :=
  if negb (existsSync w inputFile)
  then (Throw (Error "Input file does not exist"), None)
  else
    let outputFilename := generateOutputFilename inputFile job index in
    let outputPath := Path.join (outputDirectory job) outputFilename in
    if existsSync w outputPath && negb (Js.truthy_opt_bool (overwrite (exportOptions job)))
    then (Throw (Error "Output file exists and overwrite is disabled"), None)
    else
      match PhotoProcessor.processPhoto w inputFile (adjustments job) with
      | Throw e => (Throw e, None)
      | Ok processedBuffer =>
          (Ok tt,
           snd (PhotoProcessor.exportPhoto w inputFile outputPath
                  (exportOptions job) None))
      end.

(** *** One job *)

Definition errorMessage (inputFile : string) (e : JsError) : string :=
  "Failed to process " ++ Path.basename inputFile ++ ": " ++ message_or_unknown e.

(** [Math.round((n / total) * 100)], the division and the product in
    binary64 as the source computes them.  The loop only runs when there is
    a file, so [total] is positive where this is used. *)
Definition percent (n total : nat) : Z :=
  js_round (Js.mul (Js.div (inject_Z (Z.of_nat n)) (inject_Z (Z.of_nat total))) 100).

(** [Math.round(((i + 1) / job.totalFiles) * 100)] *)
Definition progress_after (i total : nat) : Z := percent (i + 1) total.

(** The same percentage with the division and the product taken from the
    Standard Library's IEEE 754 binary64. *)
Definition percent_binary64 (n total : nat) : Z :=
  js_round
    (Js.binary64_value
       (SFmul 53 1024
          (SFdiv 53 1024 (Js.binary64_of_nat n) (Js.binary64_of_nat total))
          (Js.binary64_of_nat 100))).

(** The lines after the loop: the job reaches its final status. *)
Definition processJob_finish (w : World) (job : BatchJob) : BatchJob :=
  assign job
    (match errors job with [] => Completed | _ :: _ => Failed end)
    100 (startedDate job) (Some (now w)) (errors job)
    (processedFiles job) (next job).

(** One turn of the [for] loop, at [i = next job].  The inner [catch]
    takes every exception of [processFile]; nothing else in the loop
    throws, so the outer [catch] of [processJob] is never entered. *)
Definition processJob_turn (w : World) (job : BatchJob) : BatchJob :=
  let i := next job in
  match nth_error (inputFiles job) i with
  | None => job
  | Some inputFile =>
      match fst (processFile w job inputFile i) with
      | Ok _ =>
          assign job (status job) (progress_after i (totalFiles job))
            (startedDate job) (completedDate job) (errors job)
            (S (processedFiles job)) (S i)
      | Throw e =>
          assign job (status job) (progress_after i (totalFiles job))
            (startedDate job) (completedDate job)
            (errors job ++ [errorMessage inputFile e])
            (processedFiles job) (S i)
      end
  end.

(** The loop guard [i < job.inputFiles.length], and what follows the loop
    when it fails. *)
Definition processJob_continue (w : World) (job : BatchJob) : BatchJob :=
  if (next job <? List.length (inputFiles job))%nat then job
  else processJob_finish w job.

(** [processJob(job)] up to its first [await]: the job is reset and
    becomes ['processing']; with no input file it runs to its end at once. *)
Definition processJob_begin (w : World) (job : BatchJob) : BatchJob :=
  processJob_continue w (assign job Processing 0 (Some (now w)) (completedDate job) [] 0 0).

(** [processJob(job)] resumed when the [await] on its current file
    settles; it runs to the next [await], or to its end. *)
Definition processJob_resume (w : World) (job : BatchJob) : BatchJob :=
  processJob_continue w (processJob_turn w job).

(** A job run on its own from start to end; [ws i] is the world in which
    file [i] is processed. *)
Fixpoint processJob_loop (ws : nat -> World) (n : nat) (job : BatchJob) : BatchJob :=
  match n with
  | O => job
  | S k =>
      match status job with
      | Processing => processJob_loop ws k (processJob_resume (ws (next job)) job)
      | _ => job
      end
  end.

Definition processJob (w0 : World) (ws : nat -> World) (job : BatchJob) : BatchJob :=
  processJob_loop ws (List.length (inputFiles job)) (processJob_begin w0 job).

(** *** Admission *)

Definition is_processing (j : BatchJob) : bool := status_eqb (status j) Processing.

Definition count_processing (m : Registry) : nat :=
  List.length (filter is_processing (values m)).

(** The [while] loop of [processQueue]; [active] is
    [activeBatches.length].  Each turn shifts the queue, and nothing else
    in the loop touches it. *)
Fixpoint admission_loop (w : World) (cap : Js.number) (m : Registry)
    (queue : list string) (active : nat)
  : Registry * list string :=
  match queue with
  | [] => (m, [])
  | jobId :: rest =>
      if Js.lt (Js.of_nat active) cap then
        match map_get m jobId with
        | Some job =>
            if status_eqb (status job) Pending
            then admission_loop w cap (map_set m jobId (processJob_begin w job)) rest (S active)
            else admission_loop w cap m rest active
        | None => admission_loop w cap m rest active
        end
      else (m, queue)
  end.

Definition processQueue (w : World) (s : State) : State :=
  if isProcessing s || (List.length (jobQueue s) =? 0)%nat then s
  else
    let '(m, q) :=
      admission_loop w (maxConcurrentJobs s) (activeJobs s) (jobQueue s)
            (count_processing (activeJobs s)) in
    {| activeJobs := m; jobQueue := q; isProcessing := false;
       maxConcurrentJobs := maxConcurrentJobs s |}.

(** *** The public operations *)

Definition queueJob (w : World) (jobId : string) (s : State) : bool * State :=
  match getJob s jobId with
  | None => (false, s)
  | Some job =>
      if negb (status_eqb (status job) Pending) then (false, s)
      else
        let enqueue := (true, processQueue w (with_queue s (jobQueue s ++ [jobId]))) in
        if negb (existsSync w (outputDirectory job)) then
          match mkdirSync w (outputDirectory job) with
          | Some error =>
              (false,
               with_jobs s
                 (map_set (activeJobs s) jobId
                    (set_status_errors job Failed
                       (errors job ++
                        ["Failed to create output directory: "
                           ++ message_or_unknown error]))))
          | None => enqueue
          end
        else enqueue
  end.

(** [splice(indexOf(jobId), 1)]: the first occurrence goes. *)
Fixpoint remove_first (jobId : string) (q : list string) : list string :=
  match q with
  | [] => []
  | x :: r => if String.eqb x jobId then r else x :: remove_first jobId r
  end.

Definition cancelJob (jobId : string) (s : State) : bool * State :=
  match getJob s jobId with
  | None => (false, s)
  | Some job =>
      if status_eqb (status job) Pending then
        (true,
         {| activeJobs :=
              map_set (activeJobs s) jobId
                (set_status_errors job Failed (errors job ++ ["Job cancelled by user"]));
            jobQueue := remove_first jobId (jobQueue s);
            isProcessing := isProcessing s;
            maxConcurrentJobs := maxConcurrentJobs s |})
      else (false, s)
  end.

Definition deleteJob (jobId : string) (s : State) : bool * State :=
  match getJob s jobId with
  | None => (false, s)
  | Some job =>
      if status_eqb (status job) Processing || status_eqb (status job) Pending
      then (false, s)
      else (true, with_jobs s (map_delete (activeJobs s) jobId))
  end.

(** [sort((a, b) => b.createdDate.getTime() - a.createdDate.getTime())]:
    newest first, and, [Array.prototype.sort] being stable, jobs of one
    date in the order they had.  [j] comes from in front of [l], so it goes
    in front of every job that is not newer than it. *)
Fixpoint insert_newest_first (j : BatchJob) (l : list BatchJob) : list BatchJob :=
  match l with
  | [] => [j]
  | x :: r =>
      if (createdDate x <=? createdDate j)%Z then j :: l
      else x :: insert_newest_first j r
  end.

Definition sort_newest_first (l : list BatchJob) : list BatchJob :=
  fold_right insert_newest_first [] l.

Definition getAllJobs (s : State) : list BatchJob :=
  sort_newest_first (values (activeJobs s)).

Definition getJobsByStatus (s : State) (st : JobStatus) : list BatchJob :=
  sort_newest_first
    (filter (fun job => status_eqb (status job) st) (values (activeJobs s))).

Definition clearCompletedJobs (s : State) : nat * State :=
  fold_left
    (fun acc job =>
       let '(deletedCount, s) := acc in
       let '(ok, s') := deleteJob (id job) s in
       if ok then (S deletedCount, s') else (deletedCount, s'))
    (getJobsByStatus s Completed) (0%nat, s).

(** [Math.max(1, Math.min(max, 10))] *)
Definition clamp (max : Js.number) : Js.number :=
  Js.max (Js.Num 1) (Js.min max (Js.Num 10)).

Definition setMaxConcurrentJobs (max : Js.number) (s : State) : State :=
  {| activeJobs := activeJobs s; jobQueue := jobQueue s;
     isProcessing := isProcessing s;
     maxConcurrentJobs := clamp max |}.

(** *** The scheduler as a transition system

    The program is single-threaded and yields only at an [await]; between
    two yields it runs one of the following.  A job that is
    ['processing'] is written by its own [processJob] call alone, and that
    call reads nothing of the scheduler, so each file is one transition. *)
Inductive Event :=
| CreateBatchJob (w : World) (rnd name : string) (inputFiles : list string)
    (outputDirectory : string) (a : PhotoAdjustments) (o : ExportOptions)
| QueueJob (w : World) (jobId : string)
| FileSettled (w : World) (jobId : string)   (* processJob(job) resumes *)
| TimerFired (w : World)                     (* setTimeout(() => processQueue(), 100) *)
| CancelJob (jobId : string)
| DeleteJob (jobId : string)
| ClearCompletedJobs
| SetMaxConcurrentJobs (max : Js.number).

Definition step (s : State) (e : Event) : State :=
  match e with
  | CreateBatchJob w rnd name files dir a o =>
      snd (createBatchJob w rnd name files dir a o s)
  | QueueJob w jobId => snd (queueJob w jobId s)
  | FileSettled w jobId =>
      match getJob s jobId with
      | Some job =>
          if is_processing job
          then with_jobs s (map_set (activeJobs s) jobId (processJob_resume w job))
          else s
      | None => s
      end
  | TimerFired w => processQueue w s
  | CancelJob jobId => snd (cancelJob jobId s)
  | DeleteJob jobId => snd (deleteJob jobId s)
  | ClearCompletedJobs => snd (clearCompletedJobs s)
  | SetMaxConcurrentJobs max => setMaxConcurrentJobs max s
  end.

Definition run (es : list Event) (s : State) : State := fold_left step es s.

Definition changes_cap (e : Event) : bool :=
  match e with SetMaxConcurrentJobs _ => true | _ => false end.

Definition terminal (st : JobStatus) : bool :=
  match st with Completed | Failed => true | _ => false end.

End BatchProcessor.

(** ** Objects and references

    [createBatchJob] receives references to the caller's objects and builds
    the job out of spreads of them.  What a spread shares with its source
    shows only in a store: a heap of cells addressed by references, in which
    a nested record is a cell of its own. *)

Module Store.

Inductive Value :=
| VUndefined
| VNumber (q : Q)
| VString (s : string)
| VBoolean (b : bool)
| VRef (l : nat).

Inductive Cell :=
| Object (props : list (string * Value))
| Array (elems : list Value).

Definition Heap := list Cell.

Definition alloc (h : Heap) (c : Cell) : nat * Heap :=
  (List.length h, (h ++ [c])%list).

Fixpoint get_prop (ps : list (string * Value)) (k : string) : Value :=
  match ps with
  | [] => VUndefined
  | (k', v) :: r => if String.eqb k' k then v else get_prop r k
  end.

Fixpoint set_prop (ps : list (string * Value)) (k : string) (v : Value)
  : list (string * Value) :=
  match ps with
  | [] => [(k, v)]
  | (k', v') :: r =>
      if String.eqb k' k then (k', v) :: r else (k', v') :: set_prop r k v
  end.

Fixpoint update (h : Heap) (l : nat) (f : Cell -> Cell) : Heap :=
  match h, l with
  | [], _ => []
  | c :: r, O => f c :: r
  | c :: r, S l' => c :: update r l' f
  end.

(** [o.k] *)
Definition read (h : Heap) (l : nat) (k : string) : Value :=
  match nth_error h l with
  | Some (Object ps) => get_prop ps k
  | _ => VUndefined
  end.

(** [o.k = v] *)
Definition write (h : Heap) (l : nat) (k : string) (v : Value) : Heap :=
  update h l (fun c => match c with
                       | Object ps => Object (set_prop ps k v)
                       | Array es => Array es
                       end).

(** [a.push(v)] *)
Definition push (h : Heap) (l : nat) (v : Value) : Heap :=
  update h l (fun c => match c with
                       | Array es => Array (es ++ [v])%list
                       | Object ps => Object ps
                       end).

(** [v.k1.k2...] *)
Fixpoint read_path (h : Heap) (v : Value) (ks : list string) : Value :=
  match ks with
  | [] => v
  | k :: r =>
      match v with
      | VRef l => read_path h (read h l k) r
      | _ => VUndefined
      end
  end.

(** [v.k1.k2... = x] *)
Fixpoint write_path (h : Heap) (v : Value) (ks : list string) (x : Value) : Heap :=
  match v, ks with
  | VRef l, [k] => write h l k x
  | VRef l, k :: r => write_path h (read h l k) r x
  | _, _ => h
  end.

(** [{ ...x }]: the own properties of [x], values and references alike. *)
Definition spread_object (h : Heap) (x : Value) : list (string * Value) :=
  match x with
  | VRef l => match nth_error h l with
              | Some (Object ps) => ps
              | _ => []
              end
  | _ => []
  end.

(** [[...x]] for an array [x], as the signature has it. *)
Definition spread_array (h : Heap) (x : Value) : list Value :=
  match x with
  | VRef l => match nth_error h l with
              | Some (Array es) => es
              | _ => []
              end
  | _ => []
  end.

(** The object literal of [createBatchJob]: the reference to the new job
    and the heap after the call.  The registration in [activeJobs] is in
    [BatchProcessor.createBatchJob]. *)
Definition createBatchJob (h : Heap) (now : Z) (rnd : string)
    (name inputFiles outputDirectory adjustments exportOptions : Value)
  : nat * Heap :=
  let files := spread_array h inputFiles in
  let '(l_files, h1) := alloc h (Array files) in
  let '(l_adj, h2) := alloc h1 (Object (spread_object h adjustments)) in
  let '(l_opts, h3) := alloc h2 (Object (spread_object h exportOptions)) in
  let '(l_errors, h4) := alloc h3 (Array []) in
  alloc h4
    (Object
       [("id", VString ("batch-" ++ Js.Z_toString now ++ "-" ++ rnd));
        ("name", name);
        ("inputFiles", VRef l_files);
        ("outputDirectory", outputDirectory);
        ("adjustments", VRef l_adj);
        ("exportOptions", VRef l_opts);
        ("status", VString "pending");
        ("progress", VNumber 0);
        ("createdDate", VNumber (inject_Z now));
        ("errors", VRef l_errors);
        ("processedFiles", VNumber 0);
        ("totalFiles", VNumber (inject_Z (Z.of_nat (List.length files))))]).

(** What the caller can do to an object it holds. *)
Inductive Mutation :=
| SetProp (l : nat) (k : string) (v : Value)
| Push (l : nat) (v : Value).

Definition target (m : Mutation) : nat :=
  match m with SetProp l _ _ => l | Push l _ => l end.

Definition mutate (h : Heap) (m : Mutation) : Heap :=
  match m with
  | SetProp l k v => write h l k v
  | Push l v => push h l v
  end.

(** The cell a property of the job refers to. *)
Definition cell_of (h : Heap) (job : nat) (k : string) : option Cell :=
  match read h job k with
  | VRef l => nth_error h l
  | _ => None
  end.

End Store.

(** ** Predicates of the specification *)

Definition is_zero (x : Q) : bool := Qeq_bool x 0.

Definition absent {A} (o : option A) : bool :=
  match o with None => true | Some _ => false end.

(** The identity adjustment: every dial at 0 ([vignette], optional in the
    interface, at 0 or absent) and no optional extension. *)
Definition is_identity (a : PhotoAdjustments) : bool :=
  is_zero (exposure a) && is_zero (contrast a) && is_zero (highlights a)
  && is_zero (shadows a) && is_zero (whites a) && is_zero (blacks a)
  && is_zero (temperature a) && is_zero (tint a) && is_zero (vibrance a)
  && is_zero (saturation a) && is_zero (sharpening a)
  && is_zero (noiseReduction a) && is_zero (clarity a) && is_zero (dehaze a)
  && match vignette a with Some v => is_zero v | None => true end
  && absent (pa_luminance a) && absent (saturationHSL a) && absent (lightness a)
  && absent (colorGrading a) && absent (toneCurve a) && absent (splitToning a)
  && absent (lensCorrections a) && absent (localAdjustments a)
  && absent (hslAdjustments a).

Module Spec.
Import BatchProcessor.

(** The outcomes of the files [files], the first of which has index [i]:
    the entries the failures leave in the error list, in order, and the
    number of successes. *)
Fixpoint expected_errors (attempt : nat -> string -> Exn unit)
    (i : nat) (files : list string) : list string :=
  match files with
  | [] => []
  | f :: r =>
      match attempt i f with
      | Throw e => errorMessage f e :: expected_errors attempt (S i) r
      | Ok _ => expected_errors attempt (S i) r
      end
  end.

Fixpoint expected_successes (attempt : nat -> string -> Exn unit)
    (i : nat) (files : list string) : nat :=
  match files with
  | [] => 0
  | f :: r =>
      match attempt i f with
      | Throw _ => expected_successes attempt (S i) r
      | Ok _ => S (expected_successes attempt (S i) r)
      end
  end.

(** A job that never ran its files: cancelled while pending, or failed on
    its output directory. *)
Definition aborted (j : BatchJob) : Prop :=
  processedFiles j = 0%nat /\
  (errors j = ["Job cancelled by user"%string] \/
   exists e, errors j =
             [("Failed to create output directory: " ++ message_or_unknown e)%string]).

Definition job_inv (j : BatchJob) : Prop :=
  totalFiles j = List.length (inputFiles j) /\
  match status j with
  | Pending => processedFiles j = 0%nat /\ errors j = []
  | Processing =>
      (processedFiles j + List.length (errors j) = next j)%nat /\
      (next j < List.length (inputFiles j))%nat
  | Completed =>
      errors j = [] /\ processedFiles j = totalFiles j
  | Failed =>
      errors j <> [] /\
      ((processedFiles j + List.length (errors j) = totalFiles j)%nat \/ aborted j)
  end.

Definition state_inv (s : State) : Prop :=
  Forall job_inv (values (activeJobs s)) /\ isProcessing s = false.

(** [c] jobs can be running under the cap [K]: none, or the last of them
    was admitted when [c - 1 < K] held. *)
Definition within_cap (c : nat) (K : Js.number) : Prop :=
  c = 0%nat \/ Js.lt (Js.of_nat (c - 1)) K = true.

Definition cap_inv (s : State) : Prop :=
  within_cap (count_processing (activeJobs s)) (maxConcurrentJobs s).

Definition capped (K : Js.number) (s : State) : Prop :=
  cap_inv s /\ maxConcurrentJobs s = K.

(** The job under [k] is ['pending']. *)
Definition pending_in (m : Registry) (k : string) : bool :=
  match map_get m k with
  | Some j => status_eqb (status j) Pending
  | None => false
  end.

(** The ids of [popped] that admission starts: those of a pending job,
    each at its first occurrence. *)
Fixpoint started (pending : string -> bool) (popped : list string) : list string :=
  match popped with
  | [] => []
  | k :: rest =>
      if pending k
      then k :: started (fun x => pending x && negb (String.eqb x k)) rest
      else started pending rest
  end.

(** [Math.max(1, Math.min(z, 10))] on an integer. *)
Definition clamp_int (z : Z) : Z := Z.max 1 (Z.min z 10).

(** The fields of a job that [processJob] never writes. *)
Definition same_inputs (j j' : BatchJob) : Prop :=
  inputFiles j' = inputFiles j /\ outputDirectory j' = outputDirectory j /\
  adjustments j' = adjustments j /\ exportOptions j' = exportOptions j /\
  totalFiles j' = totalFiles j.

End Spec.

(** ** Concrete jobs and worlds *)

Module Examples.
Import BatchProcessor.

(** The [defaultAdjustments] of [createBatchJobFromPreset]. *)
Definition defaultAdjustments : PhotoAdjustments :=
  {| exposure := 0; contrast := 0; highlights := 0; shadows := 0;
     whites := 0; blacks := 0; temperature := 0; tint := 0; vibrance := 0;
     saturation := 0; pa_luminance := None; saturationHSL := None;
     lightness := None; sharpening := 0; noiseReduction := 0;
     vignette := Some 0; clarity := 0; dehaze := 0; colorGrading := None;
     toneCurve := None; splitToning := None; lensCorrections := None;
     localAdjustments := None; hslAdjustments := None |}.

(** One stop brighter, everything else as above. *)
Definition brighter : PhotoAdjustments :=
  {| exposure := 1; contrast := 0; highlights := 0; shadows := 0;
     whites := 0; blacks := 0; temperature := 0; tint := 0; vibrance := 0;
     saturation := 0; pa_luminance := None; saturationHSL := None;
     lightness := None; sharpening := 0; noiseReduction := 0;
     vignette := Some 0; clarity := 0; dehaze := 0; colorGrading := None;
     toneCurve := None; splitToning := None; lensCorrections := None;
     localAdjustments := None; hslAdjustments := None |}.

(** One stop darker. *)
Definition darker : PhotoAdjustments :=
  {| exposure := -1; contrast := 0; highlights := 0; shadows := 0;
     whites := 0; blacks := 0; temperature := 0; tint := 0; vibrance := 0;
     saturation := 0; pa_luminance := None; saturationHSL := None;
     lightness := None; sharpening := 0; noiseReduction := 0;
     vignette := Some 0; clarity := 0; dehaze := 0; colorGrading := None;
     toneCurve := None; splitToning := None; lensCorrections := None;
     localAdjustments := None; hslAdjustments := None |}.

Definition options (fmt : string) (naming : option FileNaming) : ExportOptions :=
  {| format := fmt; quality := 90; width := None; height := None;
     fit := None; colorSpace := None; resolution := None;
     overwrite := Some true; fileNaming := naming |}.

Definition edit_naming : FileNaming :=
  {| prefix := Some "edit_"%string; suffix := None; includeIndex := Some true |}.

(** Every file exists but [/in/missing.jpg]; directories can be created;
    the backend succeeds. *)
Definition world : World :=
  {| now := 1000;
     existsSync := fun p => negb (String.eqb p "/in/missing.jpg");
     mkdirSync := fun _ => None;
     validate := fun _ => None;
     toBuffer := fun _ => None;
     toFile := fun _ _ => None;
     metadata := fun _ => Ok (Some 10%Z, Some 10%Z) |}.

(** [1 <= 2^e <= 3] for a rational [e = p / q]: [0 <= e] and
    [2^p <= 3^q]. *)
Definition gamma_in_range (e : Q) : bool :=
  Qle_bool 0 e && (2 ^ Qnum e <=? 3 ^ Z.pos (Qden e))%Z.

(** As [world], with a [sharp] that refuses a gamma outside its documented
    range, 1 to 3. *)
Definition checking_world : World :=
  {| now := 1000;
     existsSync := fun p => negb (String.eqb p "/in/missing.jpg");
     mkdirSync := fun _ => None;
     validate := fun op =>
       match op with
       | OpGammaPow2 e =>
           if gamma_in_range e then None
           else Some (Error "Expected number between 1.0 and 3.0 for gamma")
       | _ => None
       end;
     toBuffer := fun _ => None;
     toFile := fun _ _ => None;
     metadata := fun _ => Ok (Some 10%Z, Some 10%Z) |}.

(** Nothing exists under [/readonly] and nothing can be created there. *)
Definition readonly_world : World :=
  {| now := 2000;
     existsSync := fun _ => false;
     mkdirSync := fun _ => Some (Error "EACCES: permission denied");
     validate := fun _ => None;
     toBuffer := fun _ => None;
     toFile := fun _ _ => None;
     metadata := fun _ => Ok (Some 10%Z, Some 10%Z) |}.

Definition job_of (files : list string) (a : PhotoAdjustments) (o : ExportOptions)
  : BatchJob :=
  fst (createBatchJob world "k3x9" "Test Batch Job" files "/out" a o initial).

(** Scenario A of the specification. *)
Definition scenario_A : BatchJob :=
  job_of ["/in/a.jpg"; "/in/missing.jpg"; "/in/c.jpg"]%string
         defaultAdjustments (options "jpeg" None).

Definition scenario_D : BatchJob :=
  job_of ["photo.jpg"%string] defaultAdjustments (options "jpeg" (Some edit_naming)).

(** One existing file, exported to a format the encoder does not know. *)
Definition bmp_job : BatchJob :=
  job_of ["/in/a.jpg"%string] defaultAdjustments (options "bmp" None).

Definition brighter_job : BatchJob :=
  job_of ["/in/a.jpg"%string] brighter (options "jpeg" None).

(** Two jobs, the first admitted, the second queued twice. *)
Definition queue_behind_one : list Event :=
  [CreateBatchJob world "a" "A" ["/in/a.jpg"]%string "/out" defaultAdjustments
     (options "jpeg" None);
   CreateBatchJob world "b" "B" ["/in/b.jpg"; "/in/c.jpg"]%string "/out"
     defaultAdjustments (options "jpeg" None);
   QueueJob world "batch-1000-a";
   QueueJob world "batch-1000-b";
   QueueJob world "batch-1000-b"].

(** The same under a cap of 1: the second job waits behind the first. *)
Definition queued_twice : list Event :=
  SetMaxConcurrentJobs (Js.Num 1) :: queue_behind_one.

Definition three_jobs : list Event :=
  [CreateBatchJob world "a" "A" ["/in/a.jpg"; "/in/missing.jpg"]%string "/out"
     defaultAdjustments (options "jpeg" None);
   CreateBatchJob world "b" "B" ["/in/b.jpg"; "/in/c.jpg"]%string "/out"
     defaultAdjustments (options "jpeg" None);
   CreateBatchJob world "c" "C" ["/in/c.jpg"; "/in/d.jpg"; "/in/e.jpg"]%string
     "/readonly/out" defaultAdjustments (options "jpeg" None)].

(** The three jobs queued one after the other. *)
Definition three_queued : list Event :=
  (three_jobs ++
   [QueueJob world "batch-1000-a";
    QueueJob world "batch-1000-b";
    QueueJob world "batch-1000-c"])%list.

(** Under a cap of 1, a first job running and a second one waiting in the
    queue. *)
Definition one_waiting : list Event :=
  [SetMaxConcurrentJobs (Js.Num 1);
   CreateBatchJob world "a" "A" ["/in/a.jpg"; "/in/b.jpg"]%string "/out"
     defaultAdjustments (options "jpeg" None);
   CreateBatchJob world "b" "B" ["/in/c.jpg"]%string "/gone" defaultAdjustments
     (options "jpeg" None);
   QueueJob world "batch-1000-a";
   QueueJob world "batch-1000-b"].

(** A job that runs to its end, one that is cancelled and one whose
    directory cannot be created. *)
Definition mixed_run : list Event :=
  (three_jobs ++
   [QueueJob world "batch-1000-a";
    FileSettled world "batch-1000-a";
    FileSettled world "batch-1000-a";
    TimerFired world;
    CancelJob "batch-1000-b";
    QueueJob readonly_world "batch-1000-c"])%list.

(** The caller's objects before [createBatchJob]: the file array at 0, the
    tone curve at 1, the adjustments at 2, the file-naming record at 3 and
    the export options at 4. *)
Definition caller_heap : Store.Heap :=
  [Store.Array [Store.VString "/in/a.jpg"];
   Store.Object [("highlights"%string, Store.VNumber 0);
                 ("shadows"%string, Store.VNumber 0)];
   Store.Object [("exposure"%string, Store.VNumber 0);
                 ("contrast"%string, Store.VNumber 0);
                 ("toneCurve"%string, Store.VRef 1)];
   Store.Object [("prefix"%string, Store.VString "edit_")];
   Store.Object [("format"%string, Store.VString "jpeg");
                 ("quality"%string, Store.VNumber 90);
                 ("fileNaming"%string, Store.VRef 3)]].

Definition created : nat * Store.Heap :=
  Store.createBatchJob caller_heap 1000 "k3x9" (Store.VString "Test Batch Job")
    (Store.VRef 0) (Store.VString "/out") (Store.VRef 2) (Store.VRef 4).

End Examples.

(** ** Reports of the scheduler *)

Module BatchReports.
Import BatchProcessor.

Record Statistics := {
  total : nat;
  pending : nat;
  processing : nat;
  completed : nat;
  failed : nat;
  totalFilesProcessed : nat;
  totalFilesQueued : nat;
  totalErrors : nat
}.

(** One turn of the [forEach] of [getStatistics]: [stats[job.status]++]
    and the three sums. *)
Definition tally (stats : Statistics) (job : BatchJob) : Statistics :=
  {| total := total stats;
     pending := match status job with Pending => S (pending stats) | _ => pending stats end;
     processing :=
       match status job with Processing => S (processing stats) | _ => processing stats end;
     completed :=
       match status job with Completed => S (completed stats) | _ => completed stats end;
     failed := match status job with Failed => S (failed stats) | _ => failed stats end;
     totalFilesProcessed := totalFilesProcessed stats + processedFiles job;
     totalFilesQueued := totalFilesQueued stats + totalFiles job;
     totalErrors := totalErrors stats + List.length (errors job) |}.

Definition getStatistics (s : State) : Statistics :=
  let allJobs := getAllJobs s in
  fold_left tally allJobs
    {| total := List.length allJobs; pending := 0; processing := 0;
       completed := 0; failed := 0; totalFilesProcessed := 0;
       totalFilesQueued := 0; totalErrors := 0 |}.

Record QueueStatus := {
  queueLength : nat;
  queue_isProcessing : bool;
  maxConcurrent : Js.number;
  queue_activeJobs : nat
}.

Definition getQueueStatus (s : State) : QueueStatus :=
  {| queueLength := List.length (jobQueue s);
     queue_isProcessing := isProcessing s;
     maxConcurrent := maxConcurrentJobs s;
     queue_activeJobs := List.length (getJobsByStatus s Processing) |}.

End BatchReports.

(** ** Predicates on the scheduler's states and transitions *)

Module SchedulerSpec.
Import BatchProcessor.

(** Every key of the registry is the id of its job, and no key occurs
    twice. *)
Definition keys_inv (m : Registry) : Prop :=
  Forall (fun kj => fst kj = id (snd kj)) m /\ NoDup (map fst m).

(** The id [createBatchJob] gives the job it creates. *)
Definition new_id (w : World) (rnd : string) : string :=
  ("batch-" ++ Js.Z_toString (now w) ++ "-" ++ rnd)%string.

(** The event creates a job under the key [k]. *)
Definition creates (e : Event) (k : string) : bool :=
  match e with
  | CreateBatchJob w rnd _ _ _ _ _ => String.eqb (new_id w rnd) k
  | _ => false
  end.

(** The event is a call [queueJob(k)]. *)
Definition queues (e : Event) (k : string) : bool :=
  match e with
  | QueueJob _ jobId => String.eqb jobId k
  | _ => false
  end.

(** What one transition can do to a job that stays in the registry. *)
Inductive job_step (j : BatchJob) : BatchJob -> Prop :=
| js_same : job_step j j
| js_begin w : status j = Pending -> job_step j (processJob_begin w j)
| js_resume w : status j = Processing -> job_step j (processJob_resume w j)
| js_abort m :
    status j = Pending ->
    job_step j (set_status_errors j Failed (errors j ++ [m])).

Definition rank (st : JobStatus) : nat :=
  match st with
  | Pending => 0
  | Processing => 1
  | Completed | Failed => 2
  end.

(** The properties of a job that are its inputs and its identity. *)
Definition same_identity (j j' : BatchJob) : Prop :=
  id j' = id j /\ name j' = name j /\ inputFiles j' = inputFiles j /\
  outputDirectory j' = outputDirectory j /\ adjustments j' = adjustments j /\
  exportOptions j' = exportOptions j /\ totalFiles j' = totalFiles j /\
  createdDate j' = createdDate j.

(** The progress of a job [n] of whose [total] files have been
    attempted. *)
Definition progress_at (n total : nat) : Z := percent n total.

Definition progress_inv (j : BatchJob) : Prop :=
  match status j with
  | Pending => progress j = 0%Z
  | Processing => progress j = progress_at (next j) (totalFiles j)
  | Completed => progress j = 100%Z
  | Failed => progress j = 100%Z \/ (progress j = 0%Z /\ processedFiles j = 0%nat)
  end.

(** The awaits of the job [k] settling one after the other, in the worlds
    [ws]. *)
Definition settle_all (k : string) (ws : list World) : list Event :=
  map (fun w => FileSettled w k) ws.

(** 1 for a job in the status [st], 0 for any other. *)
Definition indicator (st : JobStatus) (j : BatchJob) : nat :=
  if status_eqb (status j) st then 1%nat else 0%nat.

Definition newest_first (a b : BatchJob) : Prop :=
  (createdDate b <= createdDate a)%Z.

(** The jobs of [l] created at [date], in the order of [l]. *)
Definition created_at (date : Z) (l : list BatchJob) : list BatchJob :=
  filter (fun j => Z.eqb (createdDate j) date) l.

End SchedulerSpec.

(** ** More runs of the scheduler *)

Module Runs.
Import BatchProcessor.

(** Two jobs queued, the first run to its end. *)
Definition one_completed : list Event :=
  (Examples.queue_behind_one ++ [FileSettled Examples.world "batch-1000-a"])%list.

(** One existing file exported to WebP. *)
Definition webp_job : BatchJob :=
  Examples.job_of ["/in/a.jpg"%string] Examples.defaultAdjustments
    (Examples.options "webp" None).

(** A job of three files, admitted. *)
Definition three_files_admitted : list Event :=
  [CreateBatchJob Examples.world "c" "C"
     ["/in/c.jpg"; "/in/missing.jpg"; "/in/e.jpg"]%string "/out"
     Examples.defaultAdjustments (Examples.options "jpeg" None);
   QueueJob Examples.world "batch-1000-c"].

End Runs.

(** ** Predicates on image handles and file names *)

Module PipelineSpec.

(** The operations of the pipeline proper: tone, colour and detail. *)
Definition is_adjustment (op : Op) : bool :=
  match op with
  | OpResize _ _ _ _ | OpJpeg _ | OpPng _ | OpWebp _ | OpTiff _ => false
  | _ => true
  end.

(** [image'] is [image] with at most [n] more calls recorded, all of them
    adjustments that [sharp] accepted; [ops] lists them last call first. *)
Definition extends (w : World) (n : nat) (image image' : Image) : Prop :=
  exists ops,
    image' = fold_right Apply image ops /\
    (List.length ops <= n)%nat /\
    forallb is_adjustment ops = true /\
    Forall (fun op => validate w op = None) ops.

(** What a run of pipeline stages on [image] ends in: the handle with at
    most [n] more adjustments, or the error of an adjustment that [sharp]
    refused. *)
Definition outcome (w : World) (n : nat) (image : Image) (r : Exn Image) : Prop :=
  match r with
  | Ok image' => extends w n image image'
  | Throw e => exists op, is_adjustment op = true /\ validate w op = Some e
  end.

Definition is_resize (op : Op) : bool :=
  match op with OpResize _ _ _ _ => true | _ => false end.

Definition is_encoder (op : Op) : bool :=
  match op with
  | OpJpeg _ | OpPng _ | OpWebp _ | OpTiff _ => true
  | _ => false
  end.

(** Reads a string of decimal digits. *)
Definition read_index (s : string) : option nat :=
  option_map Nat.of_uint (NilEmpty.uint_of_string s).

Definition underscore : ascii := "_"%char.

(** The three-digit index [generateOutputFilename] appends for the file
    at position [index]. *)
Definition index_string (index : nat) : string :=
  Js.padStart 3 "0" (Js.nat_toString (index + 1)).

(** The extension [generateOutputFilename] chooses. *)
Definition extension_for (fmt : string) (inputFile : string) : string :=
  if String.eqb fmt "jpeg" then ".jpg"%string
  else if String.eqb fmt "png" then ".png"%string
  else if String.eqb fmt "tiff" then ".tiff"%string
  else Path.ext (Path.parse inputFile).

End PipelineSpec.

(** ** [PhotoProcessor.batchProcess] *)

Module PhotoBatch.
Import PhotoProcessor.

(** [path.join(outputDir, `${fileName}.${exportOptions.format}`)] *)
Definition outputPath (outputDir : string) (o : ExportOptions) (filePath : string)
  : string :=
  Path.join outputDir (Path.name (Path.parse filePath) ++ "." ++ format o)%string.

(** The loop of [batchProcess] from file [i] on; [ws i] is the world in
    which file [i] is exported.  [exportPhoto] never throws, so the [catch]
    of the loop can only take an exception of the [onProgress] callback,
    after the push; [calls] are the arguments the callback is called with,
    one call per file. *)
Fixpoint batchProcess_from (ws : nat -> World) (i total : nat)
    (filePaths : list string) (outputDir : string)
    (adjustments : PhotoAdjustments) (exportOptions : ExportOptions)
    (processedFiles : list string) (calls : list (nat * nat))
  : list string * list (nat * nat) :=
  match filePaths with
  | [] => (processedFiles, calls)
  | filePath :: rest =>
      let out := outputPath outputDir exportOptions filePath in
      let success :=
        fst (exportPhoto (ws i) filePath out exportOptions (Some adjustments)) in
      batchProcess_from ws (S i) total rest outputDir adjustments exportOptions
        (if success then (processedFiles ++ [out])%list else processedFiles)
        (calls ++ [((i + 1)%nat, total)])%list
  end.

Definition batchProcess (ws : nat -> World) (filePaths : list string)
    (outputDir : string) (adjustments : PhotoAdjustments)
    (exportOptions : ExportOptions)
  : list string * list (nat * nat) :=
  batchProcess_from ws 0 (List.length filePaths) filePaths outputDir
    adjustments exportOptions [] [].

(** The output paths of the files whose export succeeds, in order. *)
Fixpoint exported (ws : nat -> World) (i : nat) (filePaths : list string)
    (outputDir : string) (adjustments : PhotoAdjustments)
    (exportOptions : ExportOptions) : list string :=
  match filePaths with
  | [] => []
  | filePath :: rest =>
      let out := outputPath outputDir exportOptions filePath in
      let tail := exported ws (S i) rest outputDir adjustments exportOptions in
      if fst (exportPhoto (ws i) filePath out exportOptions (Some adjustments))
      then out :: tail else tail
  end.

End PhotoBatch.

(** ** [PresetManager]

    Adjustment sets are handled here as plain objects: their own
    properties in insertion order, a nested record being a reference. *)

Module PresetManager.
Import Store.

Definition Props := list (string * Value).

Record PhotoPreset := {
  id : string;
  name : string;
  description : string;
  category : string;
  adjustments : Props;
  thumbnailPath : option string;
  author : option string;
  createdDate : Z
}.

(** [a === b] on the values an adjustment set holds. *)
Definition strict_eq (a b : Value) : bool :=
  match a, b with
  | VUndefined, VUndefined => true
  | VNumber x, VNumber y => Qeq_bool x y
  | VString x, VString y => String.eqb x y
  | VBoolean x, VBoolean y => Bool.eqb x y
  | VRef x, VRef y => Nat.eqb x y
  | _, _ => false
  end.

Definition keys (o : Props) : list string := map fst o.

(** [{ ...a, ...b }] *)
Definition spread2 (a b : Props) : Props :=
  fold_left (fun acc kv => set_prop acc (fst kv) (snd kv)) b a.

Definition num (k : string) (q : Q) : string * Value := (k, VNumber q).

Definition builtin (now : Z) (i n d c : string) (a : Props) : PhotoPreset :=
  {| id := i; name := n; description := d; category := c; adjustments := a;
     thumbnailPath := None; author := Some "PhotoEdit Pro"%string;
     createdDate := now |}.

(** [initializeDefaultPresets]; [splitToning] and [colorGrading] are the
    references of the two nested records the literals allocate. *)
Definition initializeDefaultPresets (now : Z) (splitToning colorGrading : nat)
  : list PhotoPreset :=
  [builtin now "portrait-warm" "Warm Portrait"
     "Warm, flattering tones for portrait photography" "portrait"
     [num "exposure" (3 # 10); num "contrast" 15; num "highlights" (-20);
      num "shadows" 25; num "temperature" 200; num "tint" 5;
      num "vibrance" 20; num "saturation" 10; num "clarity" 15;
      num "vignette" (-15)];
   builtin now "landscape-vivid" "Vivid Landscape"
     "Enhanced colors and contrast for landscape photos" "landscape"
     [num "exposure" (2 # 10); num "contrast" 25; num "highlights" (-30);
      num "shadows" 20; num "whites" 10; num "blacks" (-15);
      num "vibrance" 40; num "saturation" 15; num "clarity" 25;
      num "dehaze" 20];
   builtin now "black-white-classic" "Classic B&W"
     "Timeless black and white conversion" "black-white"
     [num "exposure" (1 # 10); num "contrast" 30; num "highlights" (-25);
      num "shadows" 15; num "whites" 20; num "blacks" (-20);
      num "saturation" (-100); num "clarity" 20; num "vignette" (-10)];
   builtin now "vintage-film" "Vintage Film"
     "Nostalgic film-like appearance" "vintage"
     [num "exposure" (- (2 # 10)); num "contrast" (-10); num "highlights" (-40);
      num "shadows" 30; num "temperature" 100; num "tint" 10;
      num "saturation" (-20); num "vibrance" (-15); num "clarity" (-20);
      num "vignette" (-25); ("splitToning"%string, VRef splitToning)];
   builtin now "street-moody" "Moody Street"
     "Dark, moody atmosphere for urban photography" "street"
     [num "exposure" (- (5 # 10)); num "contrast" 35; num "highlights" (-50);
      num "shadows" (-20); num "whites" (-10); num "blacks" (-30);
      num "temperature" (-100); num "saturation" (-30); num "vibrance" 20;
      num "clarity" 30; num "dehaze" 15; num "vignette" (-20)];
   builtin now "modern-bright" "Modern Bright"
     "Clean, bright modern look" "modern"
     [num "exposure" (4 # 10); num "contrast" 20; num "highlights" (-15);
      num "shadows" 35; num "whites" 15; num "blacks" 10;
      num "temperature" 50; num "vibrance" 25; num "saturation" 5;
      num "clarity" 10; num "dehaze" 10];
   builtin now "artistic-dramatic" "Dramatic Art"
     "High contrast artistic processing" "artistic"
     [num "exposure" (2 # 10); num "contrast" 50; num "highlights" (-60);
      num "shadows" 40; num "whites" 25; num "blacks" (-40);
      num "vibrance" 30; num "saturation" 20; num "clarity" 40;
      num "dehaze" 25; num "vignette" (-30);
      ("colorGrading"%string, VRef colorGrading)]].

(** [this.presets] *)
Definition State := list PhotoPreset.

Definition getAllPresets (s : State) : list PhotoPreset := s.

Definition getPresetsByCategory (s : State) (c : string) : list PhotoPreset :=
  filter (fun preset => String.eqb (category preset) c) s.

Definition getPresetById (s : State) (i : string) : option PhotoPreset :=
  find (fun preset => String.eqb (id preset) i) s.

(** [rnd] is [Math.random().toString(36).substr(2, 9)]. *)
Definition createCustomPreset (now : Z) (rnd : string)
    (n d c : string) (a : Props) (s : State) : PhotoPreset * State :=
  let preset :=
    {| id := ("custom-" ++ Js.Z_toString now ++ "-" ++ rnd)%string;
       name := n; description := d; category := c; adjustments := a;
       thumbnailPath := None; author := Some "User"%string;
       createdDate := now |} in
  (preset, (s ++ [preset])%list).

Fixpoint findIndex {A} (f : A -> bool) (l : list A) : option nat :=
  match l with
  | [] => None
  | x :: r => if f x then Some 0%nat else option_map S (findIndex f r)
  end.

(** [splice(index, 1)] *)
Definition remove_at {A} (index : nat) (l : list A) : list A :=
  (firstn index l ++ skipn (S index) l)%list.

Definition deletePreset (i : string) (s : State) : bool * State :=
  match findIndex (fun preset => String.eqb (id preset) i) s with
  | None => (false, s)
  | Some presetIndex =>
      if negb (String.prefix "custom-" i) then (false, s)
      else (true, remove_at presetIndex s)
  end.

(** When the preset is unknown the current adjustments are returned as
    they are; otherwise a new object is built. *)
Definition applyPreset (s : State) (currentAdjustments : Props) (presetId : string)
  : Props :=
  match getPresetById s presetId with
  | None => currentAdjustments
  | Some preset => spread2 currentAdjustments (adjustments preset)
  end.

(** The [defaultAdjustments] of [filterNonDefaultAdjustments]. *)
Definition defaultAdjustments : Props :=
  [num "exposure" 0; num "contrast" 0; num "highlights" 0; num "shadows" 0;
   num "whites" 0; num "blacks" 0; num "temperature" 0; num "tint" 0;
   num "vibrance" 0; num "saturation" 0; num "sharpening" 0;
   num "noiseReduction" 0; num "clarity" 0; num "dehaze" 0; num "vignette" 0].

(** [currentValue !== defaultValue && currentValue !== undefined] *)
Definition non_default (kv : string * Value) : bool :=
  negb (strict_eq (snd kv) (get_prop defaultAdjustments (fst kv)))
  && negb (strict_eq (snd kv) VUndefined).

Definition filterNonDefaultAdjustments (a : Props) : Props :=
  filter non_default a.

Definition createPresetFromAdjustments (now : Z) (rnd : string)
    (a : Props) (n d c : string) (s : State) : PhotoPreset * State :=
  createCustomPreset now rnd n d c (filterNonDefaultAdjustments a) s.

Definition categories : list string :=
  ["portrait"; "landscape"; "street"; "black-white"; "vintage"; "modern";
   "artistic"]%string.

Definition getCategorySummary (s : State) : list (string * nat) :=
  map (fun c => (c, List.length (filter (fun preset => String.eqb (category preset) c) s)))
      categories.

(** The calls that add and remove presets. *)
Inductive Call :=
| CreateCustomPreset (now : Z) (rnd n d c : string) (a : Props)
| CreatePresetFromAdjustments (now : Z) (rnd : string) (a : Props) (n d c : string)
| DeletePreset (i : string).

Definition call (s : State) (c : Call) : State :=
  match c with
  | CreateCustomPreset now rnd n d c a => snd (createCustomPreset now rnd n d c a s)
  | CreatePresetFromAdjustments now rnd a n d c =>
      snd (createPresetFromAdjustments now rnd a n d c s)
  | DeletePreset i => snd (deletePreset i s)
  end.

Definition calls (cs : list Call) (s : State) : State := fold_left call cs s.

(** An adjustment set as a user edits it: every dial present. *)
Definition edited : Props :=
  [num "exposure" (1 # 2); num "contrast" 0; num "highlights" (-30);
   num "shadows" 0; num "whites" 0; num "blacks" 0; num "temperature" 0;
   num "tint" 0; num "vibrance" 15; num "saturation" 0; num "sharpening" 0;
   num "noiseReduction" 0; num "clarity" 0; num "dehaze" 0; num "vignette" 0;
   ("toneCurve"%string, VRef 7)].

End PresetManager.

Module PresetSpec.
Import Store PresetManager.

(** [k in o] *)
Definition has_key (o : Props) (k : string) : bool :=
  existsb (String.eqb k) (keys o).

Definition is_custom (preset : PhotoPreset) : bool :=
  String.prefix "custom-" (id preset).

Definition known_category (preset : PhotoPreset) : Prop :=
  In (category preset) categories.

Definition new_id (now : Z) (rnd : string) : string :=
  ("custom-" ++ Js.Z_toString now ++ "-" ++ rnd)%string.

End PresetSpec.

(** * Properties *)

(** ** Output file names *)

Section Naming.
Import BatchProcessor.

(** C10.  With prefix ["edit_"], [includeIndex = true], no suffix and
    export format [jpeg], the input [photo.jpg] at index 0 is written as
    [edit_photo_001.jpg]: base name, prefix in front, the 1-based index
    padded to three digits behind, extension from the format. *)
Theorem generateOutputFilename_scenario_D :
  forall (job : BatchJob) (fn : FileNaming),
    format (exportOptions job) = "jpeg"%string ->
    fileNaming (exportOptions job) = Some fn ->
    prefix fn = Some "edit_"%string ->
    Js.truthy_opt_string (suffix fn) = false ->
    includeIndex fn = Some true ->
    generateOutputFilename "photo.jpg" job 0 = "edit_photo_001.jpg"%string.
Proof.
  intros job fn Hfmt Hnaming Hprefix Hsuffix Hindex.
  unfold generateOutputFilename.
  rewrite Hfmt, Hnaming, Hprefix, Hindex.
  unfold Js.truthy_opt_string in Hsuffix.
  destruct (suffix fn) as [x|]; [rewrite Hsuffix|]; reflexivity.
Qed.

Lemma generateOutputFilename_scenario_D_witness :
  generateOutputFilename "photo.jpg" Examples.scenario_D 0
  = "edit_photo_001.jpg"%string.
Proof.
  apply (generateOutputFilename_scenario_D Examples.scenario_D Examples.edit_naming);
    reflexivity.
Defined.

(** [path.join] normalises: a doubled separator is one, [.] goes and [..]
    takes back the segment before it. *)
Lemma join_normalises :
  Path.join "/out/" "a.png" = "/out/a.png"%string /\
  Path.join "/out" "./a.png" = "/out/a.png"%string /\
  Path.join "out/tmp/.." "a.png" = "out/a.png"%string /\
  Path.join "" "a.png" = "a.png"%string.
Proof. repeat split. Qed.

End Naming.

(** ** The adjustment pipeline *)

Section Pipeline.
Import PhotoProcessor.

Lemma is_zero_nonzero (x : Q) : is_zero x = true -> nonzero x = false.
Proof. unfold is_zero, nonzero. intros ->. reflexivity. Qed.

Lemma is_zero_not_positive (x : Q) (A : Type) (a b : A) :
  is_zero x = true -> (if Qlt_le_dec 0 x then a else b) = b.
Proof.
  unfold is_zero. intros E. apply Qeq_bool_eq in E.
  destruct (Qlt_le_dec 0 x) as [H|H]; [|reflexivity].
  rewrite E in H. exfalso. exact (Qlt_irrefl 0 H).
Qed.

Lemma absent_None {A} (o : option A) : absent o = true -> o = None.
Proof. destruct o; [discriminate|reflexivity]. Qed.

(** C4.  Under the identity adjustment every stage of the pipeline is
    skipped: no operation is queued on the image handle, and [processPhoto]
    returns the rendering of the untouched source, whatever the backend
    answers. *)
Theorem processPhoto_identity :
  forall (w : World) (image : Image) (filePath : string) (a : PhotoAdjustments),
    is_identity a = true ->
    stages w image a = Ok image /\
    processPhoto w filePath a =
      match toBuffer w (FromFile filePath) with
      | None => Ok (FromFile filePath)
      | Some e => Throw e
      end.
Proof.
  intros w image filePath a H.
  assert (S : forall img, stages w img a = Ok img).
  { intros img. unfold is_identity in H.
    repeat (apply andb_prop in H; destruct H as [H ?]).
    repeat match goal with
           | E : absent _ = true |- _ => apply absent_None in E
           end.
    unfold stages.
    repeat match goal with E : _ = None |- _ => rewrite E; clear E end.
    destruct (vignette a) as [v|].
    all: repeat (cbn [orb opt_stage when bind];
                 match goal with
                 | E : is_zero ?x = true |- context [nonzero ?x] =>
                     rewrite (is_zero_nonzero x E)
                 | E : is_zero ?x = true |- context [Qlt_le_dec 0 ?x] =>
                     rewrite (is_zero_not_positive x _ _ _ E)
                 end).
    all: reflexivity. }
  split; [apply S|].
  unfold processPhoto. rewrite S. reflexivity.
Qed.

Lemma processPhoto_identity_witness :
  stages Examples.world (FromFile "/in/a.jpg") Examples.defaultAdjustments
  = Ok (FromFile "/in/a.jpg") /\
  processPhoto Examples.world "/in/a.jpg" Examples.defaultAdjustments
  = Ok (FromFile "/in/a.jpg").
Proof.
  exact (processPhoto_identity Examples.world (FromFile "/in/a.jpg") "/in/a.jpg"
           Examples.defaultAdjustments eq_refl).
Defined.

End Pipeline.

(** ** One job, from its first file to its last *)

Section JobRun.
Import BatchProcessor Spec.

Lemma same_inputs_refl (j : BatchJob) : same_inputs j j.
Proof. repeat split. Qed.

Lemma same_inputs_assign (j0 j : BatchJob) st pr sd cd errs done i :
  same_inputs j0 j -> same_inputs j0 (assign j st pr sd cd errs done i).
Proof. intros H. exact H. Qed.

Lemma processFile_same (w : World) (j j' : BatchJob) (f : string) (i : nat) :
  same_inputs j j' -> processFile w j' f i = processFile w j f i.
Proof.
  intros (_ & Hd & Ha & Ho & _).
  unfold processFile, generateOutputFilename.
  rewrite Hd, Ha, Ho. reflexivity.
Qed.

Lemma same_inputs_turn (w : World) (j0 j : BatchJob) :
  same_inputs j0 j -> same_inputs j0 (processJob_turn w j).
Proof.
  intros H. unfold processJob_turn.
  destruct (nth_error (inputFiles j) (next j)); [|exact H].
  destruct (fst (processFile w j s (next j))); exact H.
Qed.

Lemma same_inputs_continue (w : World) (j0 j : BatchJob) :
  same_inputs j0 j -> same_inputs j0 (processJob_continue w j).
Proof.
  intros H. unfold processJob_continue.
  destruct (next j <? List.length (inputFiles j))%nat; exact H.
Qed.

Lemma nth_error_middle {A} (pre : list A) (x : A) (r : list A) :
  nth_error (pre ++ x :: r) (List.length pre) = Some x.
Proof. induction pre; simpl; auto. Qed.

Variable ws : nat -> World.
Variable job0 : BatchJob.

Let attempt (i : nat) (f : string) : Exn unit :=
  fst (processFile (ws i) job0 f i).

Lemma expected_errors_cons (i : nat) (f : string) (r : list string) :
  expected_errors attempt i (f :: r)
  = (expected_errors attempt i [f] ++ expected_errors attempt (S i) r)%list.
Proof. cbn [expected_errors]. destruct (attempt i f); reflexivity. Qed.

Lemma expected_successes_cons (i : nat) (f : string) (r : list string) :
  expected_successes attempt i (f :: r)
  = (expected_successes attempt i [f] + expected_successes attempt (S i) r)%nat.
Proof. cbn [expected_successes]. destruct (attempt i f); reflexivity. Qed.

(** The loop from file [length pre] on: every remaining file is tried, each
    failure leaves its entry, and the loop ends in a final status. *)
Lemma processJob_loop_spec :
  forall (rest pre : list string) (j : BatchJob),
    same_inputs job0 j ->
    inputFiles job0 = (pre ++ rest)%list ->
    next j = List.length pre ->
    status j = Processing ->
    rest <> [] ->
    let final := processJob_loop ws (List.length rest) j in
    errors final = (errors j ++ expected_errors attempt (List.length pre) rest)%list /\
    processedFiles final
    = (processedFiles j + expected_successes attempt (List.length pre) rest)%nat /\
    next final = List.length (inputFiles job0) /\
    status final = match errors final with [] => Completed | _ :: _ => Failed end /\
    same_inputs job0 final.
Proof.
  induction rest as [|f r IH]; intros pre j Hsame Hfiles Hnext Hst Hne;
    [contradiction|].
  cbn [List.length processJob_loop]. rewrite Hst.
  pose proof Hsame as (Hin & _).
  assert (Hnth : nth_error (inputFiles j) (next j) = Some f).
  { rewrite Hin, Hfiles, Hnext. apply nth_error_middle. }
  assert (Hturn : exists j1,
             processJob_turn (ws (next j)) j = j1 /\
             same_inputs job0 j1 /\ status j1 = Processing /\
             next j1 = S (List.length pre) /\
             errors j1 = (errors j ++ expected_errors attempt (List.length pre) [f])%list /\
             processedFiles j1
             = (processedFiles j + expected_successes attempt (List.length pre) [f])%nat).
  { eexists. split; [reflexivity|].
    unfold processJob_turn. rewrite Hnth.
    cbn [expected_errors expected_successes]. unfold attempt.
    rewrite (processFile_same _ job0 j _ _ Hsame), Hnext.
    destruct (fst (processFile (ws (List.length pre)) job0 f (List.length pre)));
      cbn [assign status next errors processedFiles];
      repeat split; try apply Hsame; auto using app_nil_r; lia. }
  destruct Hturn as (j1 & E1 & Hsame1 & Hst1 & Hnext1 & Herr1 & Hdone1).
  unfold processJob_resume. rewrite E1.
  assert (Hlen : List.length (inputFiles j1) = (List.length pre + S (List.length r))%nat).
  { destruct Hsame1 as (-> & _). rewrite Hfiles, length_app. reflexivity. }
  unfold processJob_continue. rewrite Hnext1, Hlen.
  destruct r as [|f' r']; cbn [List.length].
  - destruct (Nat.ltb_spec (S (List.length pre)) (List.length pre + 1)); [lia|].
    cbn [processJob_loop].
    unfold processJob_finish. cbn [assign errors processedFiles next status].
    rewrite Herr1, Hdone1, Hnext1, Hfiles, length_app.
    cbn [List.length].
    repeat split; try apply Hsame1; lia.
  - destruct (Nat.ltb_spec (S (List.length pre))
                (List.length pre + S (S (List.length r')))); [|lia].
    specialize (IH (pre ++ [f])%list j1 Hsame1).
    rewrite <- app_assoc, length_app in IH. cbn [List.length app] in IH.
    rewrite Nat.add_1_r in IH.
    specialize (IH Hfiles Hnext1 Hst1 ltac:(discriminate)).
    cbv zeta in IH. destruct IH as (He & Hd & Hn & Hs & Hsm).
    rewrite Herr1, <- app_assoc in He.
    rewrite Hdone1, <- Nat.add_assoc in Hd.
    rewrite (expected_errors_cons _ f), (expected_successes_cons _ f).
    repeat split; try apply Hsm; assumption.
Qed.

End JobRun.

Section JobOutcome.
Import BatchProcessor Spec.

(** C1, as the code has it.  Whatever the files of a job do, the job runs to
    a final status having tried every file in order: each file whose
    processing throws leaves one entry
    ["Failed to process <base name>: <message>"] in the error list (the
    message is ["Unknown error"] when the thrown value carries none), each
    other file counts as processed, and no failure stops the files behind
    it. *)
Theorem processJob_isolates_failures :
  forall (w0 : World) (ws : nat -> World) (job : BatchJob),
    let attempt := fun i f => fst (processFile (ws i) job f i) in
    let final := processJob w0 ws job in
    errors final = expected_errors attempt 0 (inputFiles job) /\
    processedFiles final = expected_successes attempt 0 (inputFiles job) /\
    next final = List.length (inputFiles job) /\
    terminal (status final) = true /\
    (forall f e,
        errorMessage f e
        = ("Failed to process " ++ Path.basename f ++ ": " ++ message_or_unknown e)%string).
Proof.
  intros w0 ws job attempt final. subst final. unfold processJob.
  destruct (inputFiles job) as [|f r] eqn:Hfiles.
  - unfold processJob_begin, processJob_continue.
    cbn [assign next inputFiles]. rewrite Hfiles.
    cbn. repeat split.
  - pose (j := assign job Processing 0 (Some (now w0)) (completedDate job) [] 0 0).
    assert (Hbegin : processJob_begin w0 job = j).
    { unfold processJob_begin, processJob_continue.
      cbn [assign next inputFiles]. rewrite Hfiles. reflexivity. }
    rewrite Hbegin.
    destruct (processJob_loop_spec ws job (f :: r) [] j) as (He & Hd & Hn & Hs & _).
    + apply same_inputs_assign, same_inputs_refl.
    + exact Hfiles.
    + reflexivity.
    + reflexivity.
    + discriminate.
    + cbn [List.length errors processedFiles j assign app Nat.add] in He, Hd.
      rewrite Hfiles in Hn.
      repeat split; try assumption.
      rewrite Hs. destruct (errors _); reflexivity.
Qed.

(** C1, the entry format of the claim fails: in Scenario A the entry for
    the missing file is neither ["missing.jpg: <message>"] nor
    ["/in/missing.jpg: <message>"]. *)
Lemma error_entry_not_filename_colon_message :
  let final := processJob Examples.world (fun _ => Examples.world) Examples.scenario_A in
  errors final = ["Failed to process missing.jpg: Input file does not exist"%string] /\
  errors final <> ["missing.jpg: Input file does not exist"%string] /\
  errors final <> ["/in/missing.jpg: Input file does not exist"%string] /\
  processedFiles final = 2%nat /\ status final = Failed.
Proof.
  vm_compute. repeat split; discriminate.
Qed.

(** A file that is there, with no conflict on its destination and a
    pipeline that succeeds, resolves: the export has no say. *)
Lemma processFile_resolves_whatever_export
    (w : World) (job : BatchJob) (f : string) (i : nat) (b : Buffer) :
  existsSync w f = true ->
  existsSync w (Path.join (outputDirectory job) (generateOutputFilename f job i))
    && negb (Js.truthy_opt_bool (overwrite (exportOptions job))) = false ->
  PhotoProcessor.processPhoto w f (adjustments job) = Ok b ->
  fst (processFile w job f i) = Ok tt.
Proof.
  intros Hex Hout Hphoto. unfold processFile.
  rewrite Hex. cbn [negb]. rewrite Hout, Hphoto. reflexivity.
Qed.

(** A format outside the [switch] of [exportPhoto] makes it answer [false]
    and write nothing. *)
Lemma exportPhoto_unsupported_format
    (w : World) (f out : string) (o : ExportOptions) :
  PhotoProcessor.encoder o = None ->
  PhotoProcessor.exportPhoto w f out o None = (false, None).
Proof.
  intros He. unfold PhotoProcessor.exportPhoto, PhotoProcessor.export_source.
  rewrite He. cbn [bind].
  destruct (PhotoProcessor.when _ w _ _); reflexivity.
Qed.

(** C5, the code at the failing inputs.  The export of a file is called on
    the input file without the adjustments, and its result is dropped:
    - a job exporting to ["bmp"], which [exportPhoto] refuses with [false]
      and writes nothing for, ends ['completed'] with its file counted as
      processed and no error;
    - a job one stop brighter has the gamma stage in its pipeline output,
      yet what it writes is the encoding of the untouched source. *)
Theorem processFile_export_divergence :
  PhotoProcessor.exportPhoto Examples.world "/in/a.jpg" "/out/a.jpg"
    (exportOptions Examples.bmp_job) None = (false, None) /\
  (let final := processJob Examples.world (fun _ => Examples.world) Examples.bmp_job in
   status final = Completed /\ processedFiles final = 1%nat /\ errors final = []) /\
  PhotoProcessor.processPhoto Examples.world "/in/a.jpg"
    (adjustments Examples.brighter_job)
  = Ok (Apply (OpGammaPow2 1) (FromFile "/in/a.jpg")) /\
  processFile Examples.world Examples.brighter_job "/in/a.jpg" 0
  = (Ok tt,
     Some {| PhotoProcessor.written_image := Apply (OpJpeg 90) (FromFile "/in/a.jpg");
             PhotoProcessor.written_path := "/out/a.jpg" |}).
Proof.
  vm_compute. repeat split.
Qed.

End JobOutcome.

(** ** The registry *)

Section RegistryFacts.
Import BatchProcessor.

Lemma map_get_In (m : Registry) (k : string) (j : BatchJob) :
  map_get m k = Some j -> In j (values m).
Proof.
  induction m as [|[k' j'] r IH]; cbn; [discriminate|].
  destruct (String.eqb k' k); [intros [= ->]; now left | right; auto].
Qed.

Lemma In_values_map_set (m : Registry) (k : string) (j x : BatchJob) :
  In x (values (map_set m k j)) -> x = j \/ In x (values m).
Proof.
  induction m as [|[k' j'] r IH]; cbn.
  - intros [<-|[]]. now left.
  - destruct (String.eqb k' k); cbn; intros [<-|H]; auto.
    destruct (IH H); auto.
Qed.

Lemma In_values_map_delete (m : Registry) (k : string) (x : BatchJob) :
  In x (values (map_delete m k)) -> In x (values m).
Proof.
  induction m as [|[k' j'] r IH]; cbn; [auto|].
  destruct (String.eqb k' k); cbn; [auto|]. intros [<-|H]; auto.
Qed.

Lemma Forall_map_set (P : BatchJob -> Prop) (m : Registry) (k : string) (j : BatchJob) :
  Forall P (values m) -> P j -> Forall P (values (map_set m k j)).
Proof.
  rewrite !Forall_forall. intros H Hj x Hx.
  destruct (In_values_map_set _ _ _ _ Hx) as [->|]; auto.
Qed.

Lemma Forall_map_delete (P : BatchJob -> Prop) (m : Registry) (k : string) :
  Forall P (values m) -> Forall P (values (map_delete m k)).
Proof.
  rewrite !Forall_forall. intros H x Hx. eauto using In_values_map_delete.
Qed.

Lemma map_get_set_same (m : Registry) (k : string) (j : BatchJob) :
  map_get (map_set m k j) k = Some j.
Proof.
  induction m as [|[k' j'] r IH]; cbn.
  - now rewrite String.eqb_refl.
  - destruct (String.eqb k' k) eqn:E; cbn; rewrite E; auto.
Qed.

Lemma map_get_set_other (m : Registry) (k k' : string) (j : BatchJob) :
  k' <> k -> map_get (map_set m k j) k' = map_get m k'.
Proof.
  intros Hne. induction m as [|[k0 j0] r IH]; cbn.
  - destruct (String.eqb_spec k k'); congruence.
  - destruct (String.eqb_spec k0 k) as [->|]; cbn.
    + destruct (String.eqb_spec k k'); congruence.
    + destruct (String.eqb_spec k0 k'); auto.
Qed.

(** How many jobs are ['processing'] after a write to the registry. *)
Lemma count_map_set_S (m : Registry) (k : string) (j : BatchJob) :
  (count_processing (map_set m k j) <= S (count_processing m))%nat.
Proof.
  unfold count_processing, values.
  induction m as [|[k' j'] r IH]; cbn.
  - destruct (is_processing j); cbn; lia.
  - destruct (String.eqb k' k); cbn.
    + destruct (is_processing j), (is_processing j'); cbn; lia.
    + destruct (is_processing j'); cbn; lia.
Qed.

Lemma count_map_set_idle (m : Registry) (k : string) (j : BatchJob) :
  is_processing j = false ->
  (count_processing (map_set m k j) <= count_processing m)%nat.
Proof.
  intros Hj. unfold count_processing, values.
  induction m as [|[k' j'] r IH]; cbn.
  - rewrite Hj. cbn. lia.
  - destruct (String.eqb k' k); cbn.
    + rewrite Hj. destruct (is_processing j'); cbn; lia.
    + destruct (is_processing j'); cbn; lia.
Qed.

Lemma count_map_set_running (m : Registry) (k : string) (j j' : BatchJob) :
  map_get m k = Some j -> is_processing j = true ->
  (count_processing (map_set m k j') <= count_processing m)%nat.
Proof.
  unfold count_processing, values.
  induction m as [|[k0 j0] r IH]; cbn; [discriminate|].
  destruct (String.eqb k0 k); cbn.
  - intros [= ->] ->. destruct (is_processing j'); cbn; lia.
  - intros Hg Hj. specialize (IH Hg Hj).
    destruct (is_processing j0); cbn; lia.
Qed.

Lemma count_map_delete (m : Registry) (k : string) :
  (count_processing (map_delete m k) <= count_processing m)%nat.
Proof.
  unfold count_processing, values.
  induction m as [|[k' j'] r IH]; cbn; [lia|].
  destruct (String.eqb k' k); cbn; destruct (is_processing j'); cbn; lia.
Qed.

End RegistryFacts.

(** ** Invariants of the scheduler *)

Section SchedulerInvariants.
Import BatchProcessor Spec.

Lemma status_eqb_eq (a b : JobStatus) : status_eqb a b = true <-> a = b.
Proof. destruct a, b; cbn; split; congruence. Qed.

Lemma job_inv_begin (w : World) (j : BatchJob) :
  totalFiles j = List.length (inputFiles j) -> job_inv (processJob_begin w j).
Proof.
  intros Ht. unfold processJob_begin, processJob_continue.
  cbn [assign next inputFiles].
  destruct (Nat.ltb_spec 0 (List.length (inputFiles j))) as [Hlt|Hge].
  - split; [exact Ht|]. cbn. split; [reflexivity | exact Hlt].
  - split; [exact Ht|]. cbn. split; [reflexivity|]. rewrite Ht. lia.
Qed.

Lemma job_inv_finish (w : World) (j : BatchJob) :
  totalFiles j = List.length (inputFiles j) ->
  (processedFiles j + List.length (errors j))%nat = totalFiles j ->
  job_inv (processJob_finish w j).
Proof.
  intros Ht Hsum. split; [exact Ht|].
  unfold processJob_finish. cbn [assign status errors processedFiles totalFiles].
  destruct (errors j) as [|x l] eqn:He.
  - cbn in Hsum. split; [reflexivity | lia].
  - split; [discriminate | left; exact Hsum].
Qed.

Lemma job_inv_resume (w : World) (j : BatchJob) :
  job_inv j -> status j = Processing -> job_inv (processJob_resume w j).
Proof.
  intros [Ht Hs] Hst. rewrite Hst in Hs. destruct Hs as [Hsum Hlt].
  unfold processJob_resume, processJob_turn.
  destruct (nth_error (inputFiles j) (next j)) as [f|] eqn:Hnth;
    [|apply nth_error_None in Hnth; lia].
  unfold processJob_continue.
  destruct (fst (processFile w j f (next j))) as [[]|e];
    cbn [assign next inputFiles];
    destruct (Nat.ltb_spec (S (next j)) (List.length (inputFiles j))).
  - split; [exact Ht|]. cbn. rewrite Hst. lia.
  - apply job_inv_finish; cbn; lia.
  - split; [exact Ht|]. cbn. rewrite Hst, length_app. cbn. lia.
  - apply job_inv_finish; cbn; rewrite ?length_app; cbn; lia.
Qed.

Lemma job_inv_cancel (j : BatchJob) :
  job_inv j -> status j = Pending ->
  job_inv (set_status_errors j Failed (errors j ++ ["Job cancelled by user"%string])).
Proof.
  intros [Ht Hs] Hst. rewrite Hst in Hs. destruct Hs as [Hd He].
  split; [exact Ht|]. cbn. rewrite He. cbn.
  split; [discriminate|]. right. split; cbn; auto.
Qed.

Lemma job_inv_mkdir_failed (j : BatchJob) (e : JsError) :
  job_inv j -> status j = Pending ->
  job_inv (set_status_errors j Failed
             (errors j ++ [("Failed to create output directory: "
                              ++ message_or_unknown e)%string])).
Proof.
  intros [Ht Hs] Hst. rewrite Hst in Hs. destruct Hs as [Hd He].
  split; [exact Ht|]. cbn [status set_status_errors assign errors processedFiles].
  rewrite He. cbn [app].
  split; [discriminate|]. right. split; [exact Hd|]. right. exists e. reflexivity.
Qed.

Lemma admission_loop_inv (w : World) (cap : Js.number) :
  forall (queue : list string) (m : Registry) (active : nat),
    Forall job_inv (values m) ->
    Forall job_inv (values (fst (admission_loop w cap m queue active))).
Proof.
  induction queue as [|jobId rest IH]; intros m active Hm; cbn [admission_loop fst];
    [exact Hm|].
  destruct (Js.lt (Js.of_nat active) cap); [|exact Hm].
  destruct (map_get m jobId) as [job|] eqn:Hget; [|auto].
  destruct (status_eqb (status job) Pending); [|auto].
  apply IH, Forall_map_set; [exact Hm|].
  apply job_inv_begin.
  apply map_get_In in Hget. rewrite Forall_forall in Hm. apply (Hm _ Hget).
Qed.

Lemma processQueue_inv (w : World) (s : State) :
  state_inv s -> state_inv (processQueue w s).
Proof.
  intros [Hj Hp]. unfold processQueue.
  destruct (isProcessing s || (List.length (jobQueue s) =? 0)%nat); [split; auto|].
  pose proof (admission_loop_inv w (maxConcurrentJobs s) (jobQueue s) (activeJobs s)
                (count_processing (activeJobs s)) Hj) as H.
  destruct (admission_loop _ _ _ _ _) as [m q]. split; [exact H | reflexivity].
Qed.

Lemma queueJob_inv (w : World) (jobId : string) (s : State) :
  state_inv s -> state_inv (snd (queueJob w jobId s)).
Proof.
  intros Hs. unfold queueJob, getJob.
  destruct (map_get (activeJobs s) jobId) as [job|] eqn:Hget; [|exact Hs].
  destruct (status_eqb (status job) Pending) eqn:Hst; cbn [negb]; [|exact Hs].
  apply status_eqb_eq in Hst.
  assert (Hq : state_inv (processQueue w (with_queue s (jobQueue s ++ [jobId])%list)))
    by (apply processQueue_inv; exact Hs).
  destruct (negb (existsSync w (outputDirectory job))); [|exact Hq].
  destruct (mkdirSync w (outputDirectory job)) as [e|]; [|exact Hq].
  destruct Hs as [Hj Hp]. split; [|exact Hp].
  cbn. apply Forall_map_set; [exact Hj|].
  apply job_inv_mkdir_failed; [|exact Hst].
  apply map_get_In in Hget. rewrite Forall_forall in Hj. auto.
Qed.

Lemma cancelJob_inv (jobId : string) (s : State) :
  state_inv s -> state_inv (snd (cancelJob jobId s)).
Proof.
  intros Hs. unfold cancelJob, getJob.
  destruct (map_get (activeJobs s) jobId) as [job|] eqn:Hget; [|exact Hs].
  destruct (status_eqb (status job) Pending) eqn:Hst; [|exact Hs].
  apply status_eqb_eq in Hst. destruct Hs as [Hj Hp]. split; [|exact Hp].
  cbn. apply Forall_map_set; [exact Hj|].
  apply job_inv_cancel; [|exact Hst].
  apply map_get_In in Hget. rewrite Forall_forall in Hj. auto.
Qed.

Lemma deleteJob_inv (jobId : string) (s : State) :
  state_inv s -> state_inv (snd (deleteJob jobId s)).
Proof.
  intros Hs. unfold deleteJob, getJob.
  destruct (map_get (activeJobs s) jobId) as [job|]; [|exact Hs].
  destruct (status_eqb (status job) Processing || status_eqb (status job) Pending);
    [exact Hs|].
  destruct Hs as [Hj Hp]. split; [|exact Hp].
  cbn. apply Forall_map_delete, Hj.
Qed.

(** [clearCompletedJobs] is a run of [deleteJob]s: what every [deleteJob]
    preserves, it preserves. *)
Lemma clearCompletedJobs_preserves (P : State -> Prop) :
  (forall jobId s, P s -> P (snd (deleteJob jobId s))) ->
  forall s, P s -> P (snd (clearCompletedJobs s)).
Proof.
  intros Hdel s Hs. unfold clearCompletedJobs.
  generalize (getJobsByStatus s Completed) as l.
  generalize 0%nat as n. revert s Hs.
  intros s Hs n l. revert n s Hs.
  induction l as [|job r IH]; intros n s Hs; cbn; [exact Hs|].
  specialize (Hdel (id job) s Hs).
  destruct (deleteJob (id job) s) as [[] s']; apply IH; exact Hdel.
Qed.

Lemma step_inv (s : State) (e : Event) : state_inv s -> state_inv (step s e).
Proof.
  intros Hs. destruct e; cbn [step].
  - destruct Hs as [Hj Hp]. split; [|exact Hp].
    cbn. apply Forall_map_set; [exact Hj|]. split; cbn; auto.
  - apply queueJob_inv, Hs.
  - unfold getJob. destruct (map_get (activeJobs s) jobId) as [job|] eqn:Hget;
      [|exact Hs].
    destruct (is_processing job) eqn:Hst; [|exact Hs].
    apply status_eqb_eq in Hst. destruct Hs as [Hj Hp]. split; [|exact Hp].
    cbn. apply Forall_map_set; [exact Hj|].
    apply job_inv_resume; [|exact Hst].
    apply map_get_In in Hget. rewrite Forall_forall in Hj. auto.
  - apply processQueue_inv, Hs.
  - apply cancelJob_inv, Hs.
  - apply deleteJob_inv, Hs.
  - apply clearCompletedJobs_preserves; [intros; apply deleteJob_inv; assumption | exact Hs].
  - exact Hs.
Qed.

Lemma run_inv (es : list Event) (s : State) : state_inv s -> state_inv (run es s).
Proof.
  revert s. induction es as [|e es IH]; intros s Hs; cbn; [exact Hs|].
  apply IH, step_inv, Hs.
Qed.

Lemma initial_inv : state_inv initial.
Proof. split; [constructor | reflexivity]. Qed.

Lemma reachable_job_inv (es : list Event) (jobId : string) (j : BatchJob) :
  getJob (run es initial) jobId = Some j -> job_inv j.
Proof.
  intros Hget. destruct (run_inv es initial initial_inv) as [Hj _].
  rewrite Forall_forall in Hj. apply Hj. eapply map_get_In, Hget.
Qed.

End SchedulerInvariants.

(** ** Final states of a job *)

Section TerminalJobs.
Import BatchProcessor Spec.

(** A resumed job either goes on, or ends with every file accounted
    for. *)
Lemma resume_accounting (w : World) (j : BatchJob) :
  job_inv j -> status j = Processing ->
  let j' := processJob_resume w j in
  status j' = Processing \/
  (terminal (status j') = true /\
   (processedFiles j' + List.length (errors j'))%nat = totalFiles j').
Proof.
  intros [Ht Hs] Hst. rewrite Hst in Hs. destruct Hs as [Hsum Hlt].
  unfold processJob_resume, processJob_turn.
  destruct (nth_error (inputFiles j) (next j)) as [f|] eqn:Hnth;
    [|apply nth_error_None in Hnth; lia].
  unfold processJob_continue, processJob_finish.
  destruct (fst (processFile w j f (next j))) as [[]|e];
    cbn [assign next inputFiles];
    destruct (Nat.ltb_spec (S (next j)) (List.length (inputFiles j)));
    cbn [assign status errors processedFiles totalFiles]; auto; right.
  - split; [destruct (errors j); reflexivity | lia].
  - split; [destruct (errors j ++ _)%list; reflexivity|].
    rewrite length_app. cbn. lia.
Qed.

(** C2, as the code has it.  A job that ends by running its files has
    [processedFiles + errors.length = totalFiles]: this is so of every
    ['completed'] job, and of every job at the moment the last of its files
    settles.  A ['failed'] job otherwise is one that never ran: cancelled
    while pending, or stopped at its output directory, with no file
    processed and that single error. *)
Theorem terminal_job_accounting :
  forall (es : list Event) (jobId : string) (j : BatchJob),
    getJob (run es initial) jobId = Some j ->
    (status j = Completed ->
     (processedFiles j + List.length (errors j))%nat = totalFiles j) /\
    (status j = Failed ->
     (processedFiles j + List.length (errors j))%nat = totalFiles j \/ aborted j) /\
    (status j = Processing ->
     forall (w : World) (j' : BatchJob),
       getJob (step (run es initial) (FileSettled w jobId)) jobId = Some j' ->
       terminal (status j') = true ->
       (processedFiles j' + List.length (errors j'))%nat = totalFiles j').
Proof.
  intros es jobId j Hget.
  pose proof (reachable_job_inv es jobId j Hget) as Hinv.
  pose proof Hinv as [Ht Hs].
  repeat split.
  - intros Hst. rewrite Hst in Hs. destruct Hs as [-> ->]. cbn. lia.
  - intros Hst. rewrite Hst in Hs. apply Hs.
  - intros Hst w j' Hget' Hterm.
    cbn [step] in Hget'. rewrite Hget in Hget'.
    unfold is_processing in Hget'. rewrite Hst in Hget'. cbn in Hget'.
    unfold getJob in Hget'. cbn in Hget'.
    rewrite map_get_set_same in Hget'. injection Hget' as <-.
    destruct (resume_accounting w j Hinv Hst) as [Hp|[_ H]]; [|exact H].
    rewrite Hp in Hterm. discriminate.
Qed.

Lemma terminal_job_accounting_witness :
  exists j,
    getJob (run Examples.mixed_run initial) "batch-1000-a" = Some j /\
    status j = Failed /\
    ((processedFiles j + List.length (errors j))%nat = totalFiles j \/ aborted j).
Proof.
  eexists. split; [vm_compute; reflexivity|].
  split; [reflexivity|].
  apply (proj1 (proj2 (terminal_job_accounting Examples.mixed_run "batch-1000-a" _ eq_refl))).
  reflexivity.
Defined.

(** C2, the claim fails on the two other ways into a final status: the
    cancelled job of two files and the job of three files whose directory
    could not be created each hold one error and no processed file. *)
Lemma aborted_job_breaks_accounting :
  (exists j,
      getJob (run Examples.mixed_run initial) "batch-1000-b" = Some j /\
      status j = Failed /\ processedFiles j = 0%nat /\
      List.length (errors j) = 1%nat /\ totalFiles j = 2%nat /\
      (processedFiles j + List.length (errors j))%nat <> totalFiles j) /\
  (exists j,
      getJob (run Examples.mixed_run initial) "batch-1000-c" = Some j /\
      status j = Failed /\ processedFiles j = 0%nat /\
      List.length (errors j) = 1%nat /\ totalFiles j = 3%nat /\
      (processedFiles j + List.length (errors j))%nat <> totalFiles j).
Proof.
  split; eexists; (split; [vm_compute; reflexivity|]);
    cbn; repeat split; discriminate.
Qed.

(** C3.  A job in a final status is ['completed'] exactly when its error
    list is empty and ['failed'] exactly when it is not; a job with both
    processed files and errors is ['failed'], there being no third final
    status. *)
Theorem status_rule :
  forall (es : list Event) (jobId : string) (j : BatchJob),
    getJob (run es initial) jobId = Some j ->
    terminal (status j) = true ->
    (status j = Completed <-> errors j = []) /\
    (status j = Failed <-> errors j <> []) /\
    (status j = Completed \/ status j = Failed).
Proof.
  intros es jobId j Hget Hterm.
  pose proof (reachable_job_inv es jobId j Hget) as [_ Hs].
  destruct (status j); try discriminate; destruct Hs as [He _].
  - repeat split; auto; try discriminate. intros H. contradiction.
  - repeat split; auto; try discriminate. intros H. contradiction.
Qed.

Lemma status_rule_witness :
  exists j,
    getJob (run Examples.mixed_run initial) "batch-1000-a" = Some j /\
    processedFiles j = 1%nat /\
    (status j = Completed <-> errors j = []) /\
    (status j = Failed <-> errors j <> []) /\
    (status j = Completed \/ status j = Failed).
Proof.
  eexists. split; [vm_compute; reflexivity|].
  split; [reflexivity|].
  apply (status_rule Examples.mixed_run "batch-1000-a" _ eq_refl eq_refl).
Defined.

End TerminalJobs.

(** ** Admission *)

Section Admission.
Import BatchProcessor Spec.

Lemma lt_of_nat_mono (a b : nat) (K : Js.number) :
  (a <= b)%nat -> Js.lt (Js.of_nat b) K = true -> Js.lt (Js.of_nat a) K = true.
Proof.
  intros Hab. destruct K as [| | |q]; cbn; auto.
  rewrite !negb_true_iff. intros Hb.
  destruct (Qle_bool q (inject_Z (Z.of_nat a))) eqn:Ha; [|reflexivity].
  apply Qle_bool_iff in Ha.
  assert (Hq : q <= inject_Z (Z.of_nat b)).
  { eapply Qle_trans; [exact Ha|]. rewrite <- Zle_Qle. lia. }
  apply Qle_bool_iff in Hq. congruence.
Qed.

Lemma within_cap_le (c c' : nat) (K : Js.number) :
  (c' <= c)%nat -> within_cap c K -> within_cap c' K.
Proof.
  intros Hle [->|H]; [left; lia|].
  destruct c' as [|c']; [now left | right].
  apply (lt_of_nat_mono _ (c - 1)); [lia | exact H].
Qed.

Lemma within_cap_S (active : nat) (K : Js.number) :
  Js.lt (Js.of_nat active) K = true -> within_cap (S active) K.
Proof. intros H. right. cbn [Nat.sub]. now rewrite Nat.sub_0_r. Qed.

(** The loop never lets the running jobs go past what the cap allows. *)
Lemma admission_loop_count (w : World) (cap : Js.number) :
  forall (queue : list string) (m : Registry) (active : nat),
    (count_processing m <= active)%nat ->
    within_cap active cap ->
    within_cap (count_processing (fst (admission_loop w cap m queue active))) cap.
Proof.
  induction queue as [|jobId rest IH]; intros m active Hle Hcap;
    cbn [admission_loop fst]; [exact (within_cap_le _ _ _ Hle Hcap)|].
  destruct (Js.lt (Js.of_nat active) cap) eqn:Hlt;
    [|exact (within_cap_le _ _ _ Hle Hcap)].
  destruct (map_get m jobId) as [job|] eqn:Hget; [|apply IH; assumption].
  destruct (status_eqb (status job) Pending); [|apply IH; assumption].
  pose proof (count_map_set_S m jobId (processJob_begin w job)) as Hc.
  apply IH; [lia | exact (within_cap_S _ _ Hlt)].
Qed.

Lemma processQueue_cap (w : World) (s : State) :
  cap_inv s ->
  cap_inv (processQueue w s) /\
  maxConcurrentJobs (processQueue w s) = maxConcurrentJobs s.
Proof.
  unfold cap_inv, processQueue. intros Hs.
  destruct (isProcessing s || (List.length (jobQueue s) =? 0)%nat); [auto|].
  pose proof (admission_loop_count w (maxConcurrentJobs s) (jobQueue s) (activeJobs s)
                (count_processing (activeJobs s)) (Nat.le_refl _) Hs) as H.
  destruct (admission_loop _ _ _ _ _) as [m q].
  cbn [fst activeJobs maxConcurrentJobs] in *. split; [exact H | reflexivity].
Qed.

Lemma started_ext (f g : string -> bool) (p : list string) :
  (forall k, f k = g k) -> started f p = started g p.
Proof.
  revert f g. induction p as [|x r IH]; intros f g H; cbn [started]; [reflexivity|].
  rewrite <- (H x). destruct (f x); [f_equal|]; apply IH; auto.
  intros k. now rewrite (H k).
Qed.

Lemma In_started (k : string) (p : list string) :
  forall f : string -> bool, In k (started f p) <-> In k p /\ f k = true.
Proof.
  induction p as [|x r IH]; intros f; cbn [started In]; [tauto|].
  destruct (f x) eqn:Hx.
  - cbn [In]. rewrite IH, andb_true_iff, negb_true_iff, String.eqb_neq.
    destruct (string_dec x k) as [->|Hne]; [tauto|]. intuition congruence.
  - rewrite IH. intuition congruence.
Qed.

Lemma pending_in_begin (w : World) (m : Registry) (x : string) (job : BatchJob) :
  map_get m x = Some job -> status job = Pending ->
  forall k, pending_in (map_set m x (processJob_begin w job)) k
            = pending_in m k && negb (String.eqb k x).
Proof.
  intros Hget Hst k. unfold pending_in.
  destruct (String.eqb_spec k x) as [->|Hne].
  - rewrite map_get_set_same, andb_false_r.
    unfold processJob_begin, processJob_continue, processJob_finish.
    cbn [assign next inputFiles errors].
    destruct (0 <? List.length (inputFiles job))%nat; reflexivity.
  - rewrite map_get_set_other by congruence. now rewrite andb_true_r.
Qed.

(** What the loop of [processQueue] does: it takes a prefix of the queue,
    each id while fewer than [cap] jobs run, and stops only on an empty
    queue or a full cap; the pending jobs among the ids taken are started,
    and nothing else in the registry changes. *)
Lemma admission_loop_spec (w : World) (cap : Js.number) :
  forall (queue : list string) (m : Registry) (active : nat),
    let r := admission_loop w cap m queue active in
    exists popped,
      queue = (popped ++ snd r)%list /\
      (forall p1 k p2,
          popped = (p1 ++ k :: p2)%list ->
          Js.lt (Js.of_nat (active + List.length (started (pending_in m) p1))) cap
          = true) /\
      (snd r = [] \/
       Js.lt (Js.of_nat (active + List.length (started (pending_in m) popped))) cap
       = false) /\
      (forall k j, map_get m k = Some j -> In k (started (pending_in m) popped) ->
                   map_get (fst r) k = Some (processJob_begin w j)) /\
      (forall k, ~ In k (started (pending_in m) popped) ->
                 map_get (fst r) k = map_get m k) /\
      (count_processing (fst r)
       <= count_processing m + List.length (started (pending_in m) popped))%nat.
Proof.
  induction queue as [|x rest IH]; intros m active; cbv zeta;
    cbn [admission_loop].
  - exists []. cbn [app snd fst started List.length In]. rewrite Nat.add_0_r.
    split; [reflexivity|]. split; [intros [|? ?] ? ? E; discriminate|].
    split; [now left|]. split; [intros k j _ []|]. split; [reflexivity | lia].
  - destruct (Js.lt (Js.of_nat active) cap) eqn:Hlt.
    2:{ exists []. cbn [app snd fst started List.length In]. rewrite Nat.add_0_r.
        split; [reflexivity|]. split; [intros [|? ?] ? ? E; discriminate|].
        split; [now right|]. split; [intros k j _ []|]. split; [reflexivity | lia]. }
    assert (Hskip : pending_in m x = false ->
              exists popped,
                x :: rest = (popped ++ snd (admission_loop w cap m rest active))%list /\
                (forall p1 k p2,
                    popped = (p1 ++ k :: p2)%list ->
                    Js.lt (Js.of_nat (active + List.length (started (pending_in m) p1)))
                      cap = true) /\
                (snd (admission_loop w cap m rest active) = [] \/
                 Js.lt (Js.of_nat (active + List.length (started (pending_in m) popped)))
                   cap = false) /\
                (forall k j, map_get m k = Some j ->
                             In k (started (pending_in m) popped) ->
                             map_get (fst (admission_loop w cap m rest active)) k
                             = Some (processJob_begin w j)) /\
                (forall k, ~ In k (started (pending_in m) popped) ->
                           map_get (fst (admission_loop w cap m rest active)) k
                           = map_get m k) /\
                (count_processing (fst (admission_loop w cap m rest active))
                 <= count_processing m
                    + List.length (started (pending_in m) popped))%nat).
    { intros Hx. destruct (IH m active) as (p & Hq & Hbelow & Hstop & Hst & Hkeep & Hc).
      exists (x :: p). cbn [started]. rewrite Hx.
      split; [cbn; congruence|]. split; [|auto].
      intros [|y p1] k p2 E; cbn [app] in E; injection E as -> E.
      - cbn. now rewrite Nat.add_0_r.
      - cbn [started]. rewrite Hx. exact (Hbelow p1 k p2 E). }
    destruct (map_get m x) as [job|] eqn:Hget;
      [|apply Hskip; unfold pending_in; now rewrite Hget].
    destruct (status_eqb (status job) Pending) eqn:Hp;
      [|apply Hskip; unfold pending_in; now rewrite Hget].
    apply status_eqb_eq in Hp.
    assert (Hx : pending_in m x = true)
      by (unfold pending_in; rewrite Hget, Hp; reflexivity).
    set (m' := map_set m x (processJob_begin w job)).
    pose proof (pending_in_begin w m x job Hget Hp) as Hext. fold m' in Hext.
    destruct (IH m' (S active)) as (p & Hq & Hbelow & Hstop & Hst & Hkeep & Hc).
    rewrite (started_ext _ _ p Hext) in Hstop, Hst, Hkeep, Hc.
    assert (Hnx : ~ In x (started (fun k => pending_in m k && negb (String.eqb k x)) p)).
    { rewrite In_started, String.eqb_refl, andb_false_r. intros [_ ?]. discriminate. }
    exists (x :: p). cbn [started]. rewrite Hx. cbn [List.length In].
    split; [cbn; congruence|]. split; [|split; [|split; [|split]]].
    + intros [|y p1] k p2 E; cbn [app] in E; injection E as -> E.
      * cbn. now rewrite Nat.add_0_r.
      * cbn [started]. rewrite Hx. cbn [List.length]. rewrite Nat.add_succ_r.
        specialize (Hbelow p1 k p2 E).
        rewrite (started_ext _ _ p1 Hext) in Hbelow. exact Hbelow.
    + rewrite Nat.add_succ_r. exact Hstop.
    + intros k j Hk [<-|Hin].
      * rewrite (Hkeep x Hnx). unfold m'. rewrite map_get_set_same. congruence.
      * apply Hst; [|exact Hin].
        unfold m'. rewrite map_get_set_other; [exact Hk|].
        intros <-. contradiction.
    + intros k Hk. rewrite Hkeep by tauto.
      unfold m'. apply map_get_set_other. intros <-. tauto.
    + pose proof (count_map_set_S m x (processJob_begin w job)) as Hs.
      fold m' in Hs. lia.
Qed.

(** [processQueue] on a state in which no admission is under way. *)
Lemma processQueue_spec (w : World) (s : State) :
  isProcessing s = false ->
  let s' := processQueue w s in
  let running := count_processing (activeJobs s) in
  let begun := fun p => List.length (started (pending_in (activeJobs s)) p) in
  exists popped,
    jobQueue s = (popped ++ jobQueue s')%list /\
    (forall p1 k p2,
        popped = (p1 ++ k :: p2)%list ->
        Js.lt (Js.of_nat (running + begun p1)) (maxConcurrentJobs s) = true) /\
    (jobQueue s' = [] \/
     Js.lt (Js.of_nat (running + begun popped)) (maxConcurrentJobs s) = false) /\
    (forall k j, getJob s k = Some j ->
                 In k (started (pending_in (activeJobs s)) popped) ->
                 getJob s' k = Some (processJob_begin w j)) /\
    (forall k, ~ In k (started (pending_in (activeJobs s)) popped) ->
               getJob s' k = getJob s k) /\
    (count_processing (activeJobs s') <= running + begun popped)%nat.
Proof.
  intros Hp. cbv zeta. unfold processQueue, getJob. rewrite Hp. cbn [orb].
  destruct (jobQueue s) as [|x q] eqn:Hq.
  - cbn [List.length Nat.eqb]. exists []. rewrite Hq.
    cbn [app started List.length In]. rewrite Nat.add_0_r.
    split; [reflexivity|]. split; [intros [|? ?] ? ? E; discriminate|].
    split; [now left|]. split; [intros k j _ []|]. split; [reflexivity | lia].
  - cbn [List.length Nat.eqb]. rewrite <- Hq.
    pose proof (admission_loop_spec w (maxConcurrentJobs s) (jobQueue s) (activeJobs s)
                  (count_processing (activeJobs s))) as H.
    cbv zeta in H. destruct (admission_loop _ _ _ _ _) as [m q']. exact H.
Qed.

Lemma deleteJob_capped (K : Js.number) (jobId : string) (s : State) :
  capped K s -> capped K (snd (deleteJob jobId s)).
Proof.
  intros [Hc Hk]. unfold deleteJob, getJob.
  destruct (map_get (activeJobs s) jobId) as [job|]; [|split; auto].
  destruct (status_eqb (status job) Processing || status_eqb (status job) Pending);
    [split; auto|].
  split; [|exact Hk]. unfold cap_inv in *.
  cbn [snd with_jobs activeJobs maxConcurrentJobs].
  exact (within_cap_le _ _ _ (count_map_delete (activeJobs s) jobId) Hc).
Qed.

Ltac registry_write lem :=
  split; [|assumption]; unfold cap_inv in *;
  cbn [snd createBatchJob with_jobs activeJobs maxConcurrentJobs];
  match goal with
  | |- context [count_processing (map_set ?m ?k ?j)] =>
      pose proof (lem m k j) as Hcount
  end.

Lemma step_capped (K : Js.number) (s : State) (e : Event) :
  changes_cap e = false -> capped K s -> capped K (step s e).
Proof.
  intros He [Hc Hk]. destruct e; cbn [step]; try discriminate.
  - registry_write count_map_set_idle. specialize (Hcount eq_refl).
    exact (within_cap_le _ _ _ Hcount Hc).
  - unfold queueJob, getJob.
    destruct (map_get (activeJobs s) jobId) as [job|]; [|split; auto].
    destruct (status_eqb (status job) Pending); cbn [negb]; [|split; auto].
    assert (Hq : capped K (processQueue w (with_queue s (jobQueue s ++ [jobId])%list))).
    { destruct (processQueue_cap w (with_queue s (jobQueue s ++ [jobId])%list))
        as [H1 H2]; [exact Hc|]. split; [exact H1 | rewrite H2; exact Hk]. }
    destruct (negb (existsSync w (outputDirectory job))); [|exact Hq].
    destruct (mkdirSync w (outputDirectory job)) as [err|]; [|exact Hq].
    registry_write count_map_set_idle. specialize (Hcount eq_refl).
    exact (within_cap_le _ _ _ Hcount Hc).
  - unfold getJob. destruct (map_get (activeJobs s) jobId) as [job|] eqn:Hget;
      [|split; auto].
    destruct (is_processing job) eqn:Hst; [|split; auto].
    split; [|exact Hk]. unfold cap_inv in *.
    cbn [with_jobs activeJobs maxConcurrentJobs].
    exact (within_cap_le _ _ _
             (count_map_set_running (activeJobs s) jobId job
                (processJob_resume w job) Hget Hst) Hc).
  - destruct (processQueue_cap w s Hc) as [H1 H2].
    split; [exact H1 | rewrite H2; exact Hk].
  - unfold cancelJob, getJob.
    destruct (map_get (activeJobs s) jobId) as [job|]; [|split; auto].
    destruct (status_eqb (status job) Pending); [|split; auto].
    registry_write count_map_set_idle. specialize (Hcount eq_refl).
    exact (within_cap_le _ _ _ Hcount Hc).
  - apply deleteJob_capped. split; auto.
  - apply clearCompletedJobs_preserves; [apply deleteJob_capped | split; auto].
Qed.

Lemma run_capped (K : Js.number) (es : list Event) (s : State) :
  forallb (fun e => negb (changes_cap e)) es = true ->
  capped K s -> capped K (run es s).
Proof.
  revert s. induction es as [|e es IH]; intros s Hes Hs; cbn; [exact Hs|].
  cbn in Hes. apply andb_prop in Hes as [He Hes].
  apply IH; [exact Hes|]. apply step_capped; [|exact Hs].
  destruct (changes_cap e); [discriminate | reflexivity].
Qed.

(** The clamp of [setMaxConcurrentJobs]: [NaN] stays [NaN]; every other
    number ends in [1, 10], fractions included. *)
Lemma clamp_range (max : Js.number) :
  (max = Js.NaN -> clamp max = Js.NaN) /\
  (max <> Js.NaN -> exists q, clamp max = Js.Num q /\ 1 <= q <= 10).
Proof.
  split; [intros ->; reflexivity|]. intros Hn.
  destruct max as [| | |q]; [contradiction | | |].
  - exists 10. split; [reflexivity | lra].
  - exists 1. split; [reflexivity | lra].
  - unfold clamp, Js.min, Js.max, Js.lt.
    destruct (Qle_bool q 10) eqn:E1; cbn [negb].
    + destruct (Qle_bool q 1) eqn:E2; cbn [negb].
      * exists 1. split; [reflexivity | lra].
      * exists q. split; [reflexivity|]. apply Qle_bool_iff in E1.
        assert (~ q <= 1) by (intros H; apply Qle_bool_iff in H; congruence). lra.
    + exists 10. split; [reflexivity | lra].
Qed.

Lemma clamp_integer (z : Z) :
  clamp (Js.Num (inject_Z z)) = Js.Num (inject_Z (clamp_int z)).
Proof.
  unfold clamp, clamp_int, Js.min, Js.max, Js.lt.
  destruct (Qle_bool (inject_Z z) 10) eqn:E1; cbn [negb].
  - apply Qle_bool_iff in E1. change 10 with (inject_Z 10) in E1.
    rewrite <- Zle_Qle in E1. rewrite (Z.min_l z 10) by exact E1.
    destruct (Qle_bool (inject_Z z) 1) eqn:E2; cbn [negb].
    + apply Qle_bool_iff in E2. change 1 with (inject_Z 1) in E2.
      rewrite <- Zle_Qle in E2. now rewrite (Z.max_l 1 z) by exact E2.
    + assert (H : ~ (z <= 1)%Z).
      { intros H. rewrite Zle_Qle in H. apply Qle_bool_iff in H.
        change (inject_Z 1) with 1 in H. congruence. }
      now rewrite (Z.max_r 1 z) by lia.
  - assert (H : ~ (z <= 10)%Z).
    { intros H. rewrite Zle_Qle in H. apply Qle_bool_iff in H.
      change (inject_Z 10) with 10 in H. congruence. }
    rewrite (Z.min_r z 10) by lia. reflexivity.
Qed.

Lemma within_cap_integer (c : nat) (z : Z) :
  (1 <= z)%Z -> within_cap c (Js.Num (inject_Z z)) -> (Z.of_nat c <= z)%Z.
Proof.
  intros Hz [->|H]; [lia|].
  cbn in H. apply negb_true_iff in H.
  assert (Hlt : ~ (z <= Z.of_nat (c - 1))%Z).
  { intros Hle. rewrite Zle_Qle in Hle. apply Qle_bool_iff in Hle. congruence. }
  lia.
Qed.


End Admission.



(** ** Queueing and cancelling *)

Section QueueAndCancel.
Import BatchProcessor Spec.

Lemma remove_first_spec (jobId : string) (q : list string) :
  (~ In jobId q /\ remove_first jobId q = q) \/
  (exists q1 q2, q = (q1 ++ jobId :: q2)%list /\ ~ In jobId q1 /\
                 remove_first jobId q = (q1 ++ q2)%list).
Proof.
  induction q as [|x r IH]; cbn.
  - left. auto.
  - destruct (String.eqb_spec x jobId) as [->|Hne].
    + right. exists [], r. auto.
    + destruct IH as [[Hn Hr]|(q1 & q2 & Hq & Hn & Hr)].
      * left. split; [intros [?|?]; auto | congruence].
      * right. exists (x :: q1), q2. cbn. repeat split; try congruence.
        intros [?|?]; auto.
Qed.

Lemma count_map_set_same (m : Registry) (k : string) (j j' : BatchJob) :
  map_get m k = Some j -> is_processing j' = is_processing j ->
  count_processing (map_set m k j') = count_processing m.
Proof.
  unfold count_processing, values.
  induction m as [|[k0 j0] r IH]; cbn; [discriminate|].
  destruct (String.eqb k0 k); cbn.
  - intros [= ->] ->. destruct (is_processing j); reflexivity.
  - intros Hg Hj. specialize (IH Hg Hj).
    destruct (is_processing j0); cbn; lia.
Qed.

(** C7, as the code has it.  [queueJob] answers [false] and changes nothing
    when the job is unknown or not ['pending'].  For a pending job whose
    output directory is missing and cannot be created it answers [false]:
    the job is ['failed'] with that one error and no file processed, the
    call adds nothing to the queue, starts no job and changes no other job.
    In every other case it answers [true]: the id goes to the tail of the
    queue and admission takes ids from its head, so that the job has been
    started if its id was taken and waits in the queue, unchanged, if not,
    which happens only when the jobs running and those started by this
    call have reached the cap; on an empty queue with a free slot it is
    started at once, and with the cap reached it waits at the tail and
    nothing else changes. *)
Theorem queueJob_spec :
  forall (es : list Event) (w : World) (jobId : string),
    let s := run es initial in
    let r := queueJob w jobId s in
    let running := count_processing (activeJobs s) in
    ((getJob s jobId = None \/
      exists j, getJob s jobId = Some j /\ status j <> Pending) ->
     r = (false, s)) /\
    (forall j, getJob s jobId = Some j -> status j = Pending ->
       (forall e, existsSync w (outputDirectory j) = false ->
                  mkdirSync w (outputDirectory j) = Some e ->
          exists j',
            fst r = false /\
            getJob (snd r) jobId = Some j' /\
            status j' = Failed /\
            errors j' = [("Failed to create output directory: "
                            ++ message_or_unknown e)%string] /\
            processedFiles j' = 0%nat /\
            jobQueue (snd r) = jobQueue s /\
            (forall k, k <> jobId -> getJob (snd r) k = getJob s k) /\
            count_processing (activeJobs (snd r)) = running) /\
       (existsSync w (outputDirectory j) = true \/
        mkdirSync w (outputDirectory j) = None ->
        fst r = true /\
        (exists popped,
            (jobQueue s ++ [jobId])%list = (popped ++ jobQueue (snd r))%list /\
            ((In jobId popped /\
              getJob (snd r) jobId = Some (processJob_begin w j)) \/
             (~ In jobId popped /\
              getJob (snd r) jobId = Some j /\ In jobId (jobQueue (snd r)) /\
              Js.lt (Js.of_nat
                       (running
                        + List.length (started (pending_in (activeJobs s)) popped)))
                    (maxConcurrentJobs s) = false))) /\
        (jobQueue s = [] ->
         Js.lt (Js.of_nat running) (maxConcurrentJobs s) = true ->
         getJob (snd r) jobId = Some (processJob_begin w j) /\
         jobQueue (snd r) = [] /\
         (forall k, k <> jobId -> getJob (snd r) k = getJob s k)) /\
        (Js.lt (Js.of_nat running) (maxConcurrentJobs s) = false ->
         snd r = with_queue s (jobQueue s ++ [jobId])%list))).
Proof.
  intros es w jobId s r running. subst r running. split.
  - intros [Hnone|(j & Hj & Hst)]; unfold queueJob; rewrite ?Hnone, ?Hj; auto.
    destruct (status j); try reflexivity. contradiction.
  - intros j Hj Hst.
    pose proof (reachable_job_inv es jobId j Hj) as [_ Hinv].
    rewrite Hst in Hinv. destruct Hinv as [Hdone Herr].
    assert (Hp : isProcessing s = false)
      by (apply (run_inv es initial initial_inv)).
    unfold queueJob. rewrite Hj, Hst. cbn [status_eqb negb]. split.
    + intros e Hex Hmk. rewrite Hex, Hmk. cbn [negb fst snd].
      eexists. split; [reflexivity|].
      unfold getJob in *. cbn [with_jobs activeJobs jobQueue].
      rewrite map_get_set_same. split; [reflexivity|].
      cbn [set_status_errors assign status errors processedFiles].
      rewrite Herr. repeat split; auto.
      * intros k Hk. apply map_get_set_other. congruence.
      * apply (count_map_set_same _ _ j); [exact Hj|].
        unfold is_processing. cbn [assign status]. now rewrite Hst.
    + intros Hok.
      assert (E : (if negb (existsSync w (outputDirectory j))
                   then match mkdirSync w (outputDirectory j) with
                        | Some error =>
                            (false,
                             with_jobs s
                               (map_set (activeJobs s) jobId
                                  (set_status_errors j Failed
                                     (errors j ++
                                      [("Failed to create output directory: "
                                          ++ message_or_unknown error)%string]))))
                        | None =>
                            (true, processQueue w
                                     (with_queue s (jobQueue s ++ [jobId])%list))
                        end
                   else (true, processQueue w
                                 (with_queue s (jobQueue s ++ [jobId])%list)))
                  = (true, processQueue w (with_queue s (jobQueue s ++ [jobId])%list))).
      { destruct Hok as [->| ->]; [reflexivity|]. destruct (negb _); reflexivity. }
      rewrite E. cbn [fst snd]. clear E.
      set (s1 := with_queue s (jobQueue s ++ [jobId])%list).
      assert (Hp1 : isProcessing s1 = false) by exact Hp.
      split; [reflexivity|]. split; [|split].
      * destruct (processQueue_spec w s1 Hp1) as (p & H1 & _ & H3 & H4 & H5 & _).
        exists p. split; [exact H1|].
        assert (Hpend : pending_in (activeJobs s1) jobId = true).
        { unfold pending_in. change (activeJobs s1) with (activeJobs s).
          unfold getJob in Hj. rewrite Hj, Hst. reflexivity. }
        destruct (in_dec string_dec jobId p) as [Hin|Hout].
        -- left. split; [exact Hin|]. apply H4; [exact Hj|].
           apply In_started. auto.
        -- right. split; [exact Hout|]. split.
           ++ rewrite H5; [exact Hj|]. rewrite In_started. tauto.
           ++ assert (Hin : In jobId (p ++ jobQueue (processQueue w s1))%list).
              { change (jobQueue s1) with (jobQueue s ++ [jobId])%list in H1.
                rewrite <- H1. apply in_or_app. right. now left. }
              apply in_app_or in Hin. destruct Hin as [Hin|Hin]; [contradiction|].
              split; [exact Hin|].
              destruct H3 as [Hnil|Hfull]; [|exact Hfull].
              rewrite Hnil in Hin. destruct Hin.
      * intros Hq Hlt. unfold processQueue, s1, getJob in *.
        cbn [with_queue isProcessing jobQueue activeJobs maxConcurrentJobs].
        rewrite Hp, Hq. cbn [app List.length Nat.eqb orb admission_loop].
        rewrite Hlt, Hj, Hst. cbn [status_eqb activeJobs jobQueue].
        rewrite map_get_set_same. repeat split.
        intros k Hk. apply map_get_set_other. congruence.
      * intros Hlt. unfold processQueue, s1.
        cbn [with_queue isProcessing jobQueue activeJobs maxConcurrentJobs].
        rewrite Hp. cbn [orb].
        destruct (jobQueue s ++ [jobId])%list as [|x q] eqn:Hq;
          [destruct (jobQueue s); discriminate|].
        cbn [List.length Nat.eqb admission_loop]. rewrite Hlt.
        unfold with_queue. now rewrite Hp.
Qed.

Lemma queueJob_spec_witness :
  let s := run Examples.three_jobs initial in
  (exists j',
     fst (queueJob Examples.readonly_world "batch-1000-c" s) = false /\
     getJob (snd (queueJob Examples.readonly_world "batch-1000-c" s)) "batch-1000-c"
     = Some j' /\
     status j' = Failed /\
     errors j' = ["Failed to create output directory: EACCES: permission denied"%string] /\
     processedFiles j' = 0%nat /\
     jobQueue (snd (queueJob Examples.readonly_world "batch-1000-c" s)) = jobQueue s) /\
  (exists j j',
     getJob s "batch-1000-a" = Some j /\
     fst (queueJob Examples.world "batch-1000-a" s) = true /\
     getJob (snd (queueJob Examples.world "batch-1000-a" s)) "batch-1000-a" = Some j' /\
     j' = processJob_begin Examples.world j /\
     status j' = Processing /\
     jobQueue (snd (queueJob Examples.world "batch-1000-a" s)) = []) /\
  queueJob Examples.world "batch-1000-z" s = (false, s).
Proof.
  cbv zeta. split; [|split].
  - pose proof (queueJob_spec Examples.three_jobs Examples.readonly_world "batch-1000-c")
      as H.
    cbv zeta in H. destruct H as [_ H].
    destruct (getJob (run Examples.three_jobs initial) "batch-1000-c") as [j|] eqn:Hj;
      [|vm_compute in Hj; discriminate].
    assert (Hst : status j = Pending)
      by (vm_compute in Hj; injection Hj as <-; reflexivity).
    assert (Hdir : outputDirectory j = "/readonly/out"%string)
      by (vm_compute in Hj; injection Hj as <-; reflexivity).
    destruct (H j eq_refl Hst) as [H1 _].
    rewrite Hdir in H1.
    destruct (H1 (Error "EACCES: permission denied") eq_refl eq_refl)
      as (j' & E1 & E2 & E3 & E4 & E5 & E6 & _).
    exists j'. auto 10.
  - pose proof (queueJob_spec Examples.three_jobs Examples.world "batch-1000-a") as H.
    cbv zeta in H. destruct H as [_ H].
    destruct (getJob (run Examples.three_jobs initial) "batch-1000-a") as [j|] eqn:Hj;
      [|vm_compute in Hj; discriminate].
    assert (Hst : status j = Pending)
      by (vm_compute in Hj; injection Hj as <-; reflexivity).
    assert (Hfiles : inputFiles j = ["/in/a.jpg"; "/in/missing.jpg"]%string)
      by (vm_compute in Hj; injection Hj as <-; reflexivity).
    destruct (H j eq_refl Hst) as [_ H2].
    destruct (H2 (or_intror eq_refl)) as (E1 & _ & E3 & _).
    destruct (E3 eq_refl eq_refl) as (E4 & E5 & _).
    exists j, (processJob_begin Examples.world j).
    split; [reflexivity|]. split; [exact E1|]. split; [exact E4|].
    split; [reflexivity|]. split; [|exact E5].
    unfold processJob_begin, processJob_continue. cbn [assign next inputFiles].
    rewrite Hfiles. reflexivity.
  - pose proof (queueJob_spec Examples.three_jobs Examples.world "batch-1000-z") as H.
    cbv zeta in H. destruct H as [H _]. apply H. left. vm_compute. reflexivity.
Defined.

(** C7, the claim fails on a job that is already waiting: with one job
    running under a cap of 1 and a second one waiting in the queue, a second
    [queueJob] of the waiting job that finds its directory gone and cannot
    create it answers [false] and leaves the job ['failed'] in the queue,
    where its id stays until admission takes it and drops it. *)
Lemma failed_job_still_queued :
  let s := run Examples.one_waiting initial in
  let r := queueJob Examples.readonly_world "batch-1000-b" s in
  (exists j, getJob s "batch-1000-b" = Some j /\ status j = Pending) /\
  jobQueue s = ["batch-1000-b"%string] /\
  fst r = false /\
  (exists j', getJob (snd r) "batch-1000-b" = Some j' /\ status j' = Failed /\
              processedFiles j' = 0%nat) /\
  In "batch-1000-b"%string (jobQueue (snd r)).
Proof.
  cbv zeta. split; [eexists; split; [vm_compute; reflexivity | reflexivity]|].
  split; [vm_compute; reflexivity|]. split; [vm_compute; reflexivity|].
  split; [eexists; split; [vm_compute; reflexivity | split; reflexivity]|].
  vm_compute. left. reflexivity.
Qed.

(** C8, as the code has it.  [cancelJob] on a ['pending'] job answers
    [true]: the job is ['failed'] with the cancellation as its one error,
    the first occurrence of its id leaves the queue (the only one, unless
    the job was queued more than once), and no other job changes.  On a job
    in any other status, or on an unknown id, it answers [false] and
    changes nothing. *)
Theorem cancelJob_spec :
  forall (es : list Event) (jobId : string),
    let s := run es initial in
    (forall j, getJob s jobId = Some j -> status j = Pending ->
       exists s' j',
         cancelJob jobId s = (true, s') /\
         getJob s' jobId = Some j' /\
         status j' = Failed /\
         errors j' = ["Job cancelled by user"%string] /\
         jobQueue s' = remove_first jobId (jobQueue s) /\
         ((~ In jobId (jobQueue s) /\ jobQueue s' = jobQueue s) \/
          (exists q1 q2, jobQueue s = (q1 ++ jobId :: q2)%list /\
                         ~ In jobId q1 /\ jobQueue s' = (q1 ++ q2)%list)) /\
         (forall k, k <> jobId -> getJob s' k = getJob s k)) /\
    ((getJob s jobId = None \/
      exists j, getJob s jobId = Some j /\ status j <> Pending) ->
     cancelJob jobId s = (false, s)).
Proof.
  intros es jobId s. split.
  - intros j Hj Hst.
    pose proof (reachable_job_inv es jobId j Hj) as [_ Hinv].
    rewrite Hst in Hinv. destruct Hinv as [_ Herr].
    unfold cancelJob. rewrite Hj, Hst. cbn [status_eqb].
    eexists. eexists. split; [reflexivity|].
    unfold getJob. cbn [activeJobs jobQueue].
    rewrite map_get_set_same. split; [reflexivity|].
    cbn [set_status_errors assign status errors]. rewrite Herr.
    repeat split.
    + destruct (remove_first_spec jobId (jobQueue s)) as [[H1 H2]|H]; auto.
    + intros k Hk. apply map_get_set_other, Hk.
  - intros [Hnone|(j & Hj & Hst)]; unfold cancelJob; rewrite ?Hnone, ?Hj; auto.
    destruct (status j); try reflexivity. contradiction.
Qed.

Lemma cancelJob_spec_witness :
  let s := run Examples.three_jobs initial in
  exists s' j',
    cancelJob "batch-1000-b" s = (true, s') /\
    getJob s' "batch-1000-b" = Some j' /\
    status j' = Failed /\
    errors j' = ["Job cancelled by user"%string] /\
    jobQueue s' = remove_first "batch-1000-b" (jobQueue s).
Proof.
  cbv zeta.
  pose proof (cancelJob_spec Examples.three_jobs "batch-1000-b") as H.
  cbv zeta in H. destruct H as [H _].
  destruct (getJob (run Examples.three_jobs initial) "batch-1000-b") as [j|] eqn:Hj;
    [|vm_compute in Hj; discriminate].
  assert (Hst : status j = Pending)
    by (vm_compute in Hj; injection Hj as <-; reflexivity).
  destruct (H j eq_refl Hst) as (s' & j' & H1 & H2 & H3 & H4 & H5 & _).
  exists s', j'. auto.
Defined.

(** C8, the claim fails on a job queued twice: with one job running under
    a cap of 1 and a second one queued twice behind it, cancelling the
    second answers [true] and leaves its id in the queue. *)
Lemma cancelled_job_still_queued :
  let s := run Examples.queued_twice initial in
  (exists j, getJob s "batch-1000-b" = Some j /\ status j = Pending) /\
  jobQueue s = ["batch-1000-b"; "batch-1000-b"]%string /\
  fst (cancelJob "batch-1000-b" s) = true /\
  jobQueue (snd (cancelJob "batch-1000-b" s)) = ["batch-1000-b"%string] /\
  In "batch-1000-b"%string (jobQueue (snd (cancelJob "batch-1000-b" s))).
Proof.
  cbv zeta. split; [eexists; split; [vm_compute; reflexivity | reflexivity]|].
  vm_compute. repeat split. left. reflexivity.
Qed.

End QueueAndCancel.

(** ** What a job shares with its caller *)

Section Snapshots.
Import Store.

Lemma nth_error_update_other (h : Heap) (l l' : nat) (f : Cell -> Cell) :
  l <> l' -> nth_error (update h l f) l' = nth_error h l'.
Proof.
  revert l l'. induction h as [|c r IH]; intros [|l] [|l'] Hne; cbn; auto.
  congruence.
Qed.

Lemma mutate_frame (h : Heap) (m : Mutation) (l : nat) :
  target m <> l -> nth_error (mutate h m) l = nth_error h l.
Proof.
  destruct m; cbn; unfold write, push; apply nth_error_update_other.
Qed.

Lemma read_frame (h : Heap) (m : Mutation) (l : nat) (k : string) :
  target m <> l -> read (mutate h m) l k = read h l k.
Proof. intros H. unfold read. now rewrite mutate_frame. Qed.

Lemma nth_error_snoc {A} (h : list A) (c : A) :
  nth_error (h ++ [c]) (List.length h) = Some c.
Proof. induction h; cbn; auto. Qed.

Lemma nth_error_snoc_lt {A} (h : list A) (c : A) (l : nat) :
  (l < List.length h)%nat -> nth_error (h ++ [c]) l = nth_error h l.
Proof. intros H. now apply nth_error_app1. Qed.

(** C6, as the code has it.  The job holds spreads of the caller's
    objects: a new file array with the elements of the caller's, and new
    adjustments and export-options objects with the caller's properties,
    each property holding the caller's value or the caller's reference.
    No assignment to a property of an object that existed before the call,
    and no [push] on an array that did, changes the job or the top level of
    its file array, adjustments or export options. *)
Theorem createBatchJob_copies_top_level :
  forall (h : Heap) (now : Z) (rnd : string)
         (name inputFiles outputDirectory adjustments exportOptions : Value)
         (m : Mutation),
    (target m < List.length h)%nat ->
    let job := fst (createBatchJob h now rnd name inputFiles outputDirectory
                      adjustments exportOptions) in
    let h1 := snd (createBatchJob h now rnd name inputFiles outputDirectory
                     adjustments exportOptions) in
    cell_of h1 job "inputFiles" = Some (Array (spread_array h inputFiles)) /\
    cell_of h1 job "adjustments" = Some (Object (spread_object h adjustments)) /\
    cell_of h1 job "exportOptions" = Some (Object (spread_object h exportOptions)) /\
    (forall k, read (mutate h1 m) job k = read h1 job k) /\
    cell_of (mutate h1 m) job "inputFiles" = cell_of h1 job "inputFiles" /\
    cell_of (mutate h1 m) job "adjustments" = cell_of h1 job "adjustments" /\
    cell_of (mutate h1 m) job "exportOptions" = cell_of h1 job "exportOptions".
Proof.
  intros h now rnd name inputFiles outputDirectory adjustments exportOptions m Hm
         job h1.
  subst job h1. unfold createBatchJob, alloc. cbn [fst snd].
  set (c1 := Array (spread_array h inputFiles)).
  set (c2 := Object (spread_object h adjustments)).
  set (c3 := Object (spread_object h exportOptions)).
  set (c4 := Array []).
  set (h1 := (h ++ [c1])%list). set (h2 := (h1 ++ [c2])%list).
  set (h3 := (h2 ++ [c3])%list). set (h4 := (h3 ++ [c4])%list).
  set (c5 := Object _).
  assert (L1 : List.length h1 = S (List.length h))
    by (unfold h1; rewrite length_app; cbn; lia).
  assert (L2 : List.length h2 = S (List.length h1))
    by (unfold h2; rewrite length_app; cbn; lia).
  assert (L3 : List.length h3 = S (List.length h2))
    by (unfold h3; rewrite length_app; cbn; lia).
  assert (L4 : List.length h4 = S (List.length h3))
    by (unfold h4; rewrite length_app; cbn; lia).
  set (h5 := (h4 ++ [c5])%list).
  assert (Hjob : nth_error h5 (List.length h4) = Some c5)
    by apply nth_error_snoc.
  assert (Hfiles : nth_error h5 (List.length h) = Some c1).
  { unfold h5. rewrite nth_error_snoc_lt by lia. unfold h4.
    rewrite nth_error_snoc_lt by lia. unfold h3.
    rewrite nth_error_snoc_lt by lia. unfold h2.
    rewrite nth_error_snoc_lt by lia. apply nth_error_snoc. }
  assert (Hadj : nth_error h5 (List.length h1) = Some c2).
  { unfold h5. rewrite nth_error_snoc_lt by lia. unfold h4.
    rewrite nth_error_snoc_lt by lia. unfold h3.
    rewrite nth_error_snoc_lt by lia. apply nth_error_snoc. }
  assert (Hopts : nth_error h5 (List.length h2) = Some c3).
  { unfold h5. rewrite nth_error_snoc_lt by lia. unfold h4.
    rewrite nth_error_snoc_lt by lia. apply nth_error_snoc. }
  assert (Hread : forall k, read (mutate h5 m) (List.length h4) k
                            = read h5 (List.length h4) k)
    by (intros k; apply read_frame; lia).
  assert (R : forall k, read h5 (List.length h4) k
                        = get_prop (match c5 with Object ps => ps | Array _ => [] end) k)
    by (intros k; unfold read; rewrite Hjob; reflexivity).
  unfold cell_of. rewrite !Hread, !R.
  subst c5. cbn [get_prop String.eqb Ascii.eqb Bool.eqb].
  rewrite !mutate_frame by lia.
  rewrite Hfiles, Hadj, Hopts.
  repeat split; auto.
Qed.

Lemma createBatchJob_copies_top_level_witness :
  let job := fst Examples.created in
  let h1 := snd Examples.created in
  let m := SetProp 2 "exposure" (VNumber 1) in
  read (mutate h1 m) 2 "exposure" = VNumber 1 /\
  cell_of h1 job "adjustments"
  = Some (Object [("exposure"%string, VNumber 0); ("contrast"%string, VNumber 0);
                  ("toneCurve"%string, VRef 1)]) /\
  cell_of (mutate h1 m) job "adjustments" = cell_of h1 job "adjustments".
Proof.
  cbv zeta.
  pose proof (createBatchJob_copies_top_level Examples.caller_heap 1000 "k3x9"
                (VString "Test Batch Job") (VRef 0) (VString "/out") (VRef 2) (VRef 4)
                (SetProp 2 "exposure" (VNumber 1))
                ltac:(cbn; lia)) as H.
  cbv zeta in H. destruct H as (_ & Hadj & _ & _ & _ & Hsame & _).
  split; [reflexivity|]. split; [exact Hadj | exact Hsame].
Defined.

(** C6, the claim fails below the top level: the tone curve and the
    file-naming record of the job are the caller's own.  After the caller
    sets [adjustments.toneCurve.highlights = 50] the job's stored
    adjustments read 50 where they read 0, and after
    [exportOptions.fileNaming.prefix = "new_"] the job's export options
    read ["new_"]. *)
Lemma nested_records_are_shared :
  let job := VRef (fst Examples.created) in
  let h1 := snd Examples.created in
  let h2 := write_path h1 (VRef 2) ["toneCurve"; "highlights"]%string (VNumber 50) in
  let h3 := write_path h1 (VRef 4) ["fileNaming"; "prefix"]%string (VString "new_") in
  read_path h1 job ["adjustments"; "toneCurve"; "highlights"]%string = VNumber 0 /\
  read_path h2 job ["adjustments"; "toneCurve"; "highlights"]%string = VNumber 50 /\
  read_path h1 job ["exportOptions"; "fileNaming"; "prefix"]%string = VString "edit_" /\
  read_path h3 job ["exportOptions"; "fileNaming"; "prefix"]%string = VString "new_".
Proof.
  vm_compute. repeat split.
Qed.

End Snapshots.

(** * Further properties *)

(** ** The registry's keys *)

Section RegistryKeys.
Import BatchProcessor Spec SchedulerSpec.

Lemma map_get_In_pair (m : Registry) (k : string) (j : BatchJob) :
  map_get m k = Some j -> In (k, j) m.
Proof.
  induction m as [|[k' j'] r IH]; cbn; [discriminate|].
  destruct (String.eqb_spec k' k) as [->|Hne].
  - intros [= ->]. now left.
  - intros H. right. auto.
Qed.

Lemma map_get_None_keys (m : Registry) (k : string) :
  map_get m k = None <-> ~ In k (map fst m).
Proof.
  induction m as [|[k' j'] r IH]; cbn.
  - split; auto.
  - destruct (String.eqb_spec k' k) as [->|Hne].
    + split; [discriminate | intros H; exfalso; auto].
    + rewrite IH. split; [intros H [?|?]; auto | auto].
Qed.

Lemma map_set_keys (m : Registry) (k : string) (j : BatchJob) :
  (In k (map fst m) -> map fst (map_set m k j) = map fst m) /\
  (~ In k (map fst m) -> map fst (map_set m k j) = (map fst m ++ [k])%list).
Proof.
  induction m as [|[k' j'] r [IH1 IH2]]; cbn.
  - split; [intros [] | reflexivity].
  - destruct (String.eqb_spec k' k) as [->|Hne]; cbn.
    + split; [reflexivity | intros H; exfalso; auto].
    + split.
      * intros [?|H]; [contradiction | now rewrite IH1].
      * intros H. rewrite IH2; auto.
Qed.

Lemma keys_inv_map_set (m : Registry) (k : string) (j : BatchJob) :
  keys_inv m -> id j = k -> keys_inv (map_set m k j).
Proof.
  intros [Hid Hnd] Hj. split.
  - clear Hnd. induction m as [|[k' j'] r IH]; cbn.
    + constructor; [cbn; auto | constructor].
    + inversion Hid as [|? ? Hh Ht]; subst.
      destruct (String.eqb_spec k' (id j)) as [->|Hne]; constructor; auto.
  - destruct (map_set_keys m k j) as [H1 H2].
    destruct (in_dec string_dec k (map fst m)) as [Hin|Hout].
    + now rewrite H1.
    + rewrite H2 by assumption.
      apply NoDup_app; [assumption | repeat constructor; intros [] | ].
      intros x Hx [<-|[]]. contradiction.
Qed.

Lemma map_delete_keys_incl (m : Registry) (k x : string) :
  In x (map fst (map_delete m k)) -> In x (map fst m).
Proof.
  induction m as [|[k' j'] r IH]; cbn; [auto|].
  destruct (String.eqb k' k); cbn; [auto|]. intros [?|?]; auto.
Qed.

Lemma keys_inv_map_delete (m : Registry) (k : string) :
  keys_inv m -> keys_inv (map_delete m k).
Proof.
  intros [Hid Hnd]. split.
  - induction m as [|[k' j'] r IH]; cbn; [constructor|].
    inversion Hid; subst. inversion Hnd; subst.
    destruct (String.eqb k' k); [assumption|]. constructor; auto.
  - induction m as [|[k' j'] r IH]; cbn; [constructor|].
    inversion Hid; subst. inversion Hnd; subst.
    destruct (String.eqb k' k); [assumption|]. cbn. constructor; auto.
    intros Hin. apply map_delete_keys_incl in Hin. contradiction.
Qed.

Lemma map_get_delete_same (m : Registry) (k : string) :
  NoDup (map fst m) -> map_get (map_delete m k) k = None.
Proof.
  induction m as [|[k' j'] r IH]; cbn; intros Hnd; [reflexivity|].
  inversion Hnd; subst.
  destruct (String.eqb_spec k' k) as [->|Hne]; cbn.
  - now apply map_get_None_keys.
  - destruct (String.eqb_spec k' k); [contradiction | auto].
Qed.

Lemma map_get_delete_other (m : Registry) (k k' : string) :
  k' <> k -> map_get (map_delete m k) k' = map_get m k'.
Proof.
  intros Hne. induction m as [|[k0 j0] r IH]; cbn; [reflexivity|].
  destruct (String.eqb_spec k0 k) as [->|Hk]; cbn.
  - destruct (String.eqb_spec k k'); [congruence | reflexivity].
  - destruct (String.eqb_spec k0 k'); auto.
Qed.

Lemma same_identity_refl (j : BatchJob) : same_identity j j.
Proof. repeat split. Qed.

Lemma same_identity_begin (w : World) (j : BatchJob) :
  same_identity j (processJob_begin w j).
Proof.
  unfold processJob_begin, processJob_continue. cbn [assign next inputFiles].
  destruct (0 <? List.length (inputFiles j))%nat; repeat split.
Qed.

Lemma same_identity_resume (w : World) (j : BatchJob) :
  same_identity j (processJob_resume w j).
Proof.
  unfold processJob_resume, processJob_turn, processJob_continue.
  destruct (nth_error (inputFiles j) (next j)) as [f|].
  - destruct (fst (processFile w j f (next j))); cbn [assign next inputFiles];
      destruct (_ <? _)%nat; repeat split.
  - destruct (_ <? _)%nat; repeat split.
Qed.

Lemma job_step_identity (j j' : BatchJob) : job_step j j' -> same_identity j j'.
Proof.
  intros [ | w _ | w _ | m _].
  - apply same_identity_refl.
  - apply same_identity_begin.
  - apply same_identity_resume.
  - repeat split.
Qed.

Lemma admission_loop_keys (w : World) (cap : Js.number) :
  forall (queue : list string) (m : Registry) (active : nat),
    keys_inv m -> keys_inv (fst (admission_loop w cap m queue active)).
Proof.
  induction queue as [|jobId rest IH]; intros m active Hm; cbn [admission_loop fst];
    [exact Hm|].
  destruct (Js.lt (Js.of_nat active) cap); [|exact Hm].
  destruct (map_get m jobId) as [job|] eqn:Hget; [|auto].
  destruct (status_eqb (status job) Pending); [|auto].
  apply IH, keys_inv_map_set; [exact Hm|].
  destruct (same_identity_begin w job) as [-> _].
  apply map_get_In_pair in Hget. destruct Hm as [Hid _].
  rewrite Forall_forall in Hid. symmetry. apply (Hid _ Hget).
Qed.

Lemma keys_inv_get (m : Registry) (k : string) (j : BatchJob) :
  keys_inv m -> map_get m k = Some j -> id j = k.
Proof.
  intros [Hid _] Hget. apply map_get_In_pair in Hget.
  rewrite Forall_forall in Hid. symmetry. apply (Hid _ Hget).
Qed.

Lemma deleteJob_keys (jobId : string) (s : State) :
  keys_inv (activeJobs s) -> keys_inv (activeJobs (snd (deleteJob jobId s))).
Proof.
  intros Hs. unfold deleteJob, getJob.
  destruct (map_get (activeJobs s) jobId) as [job|]; [|exact Hs].
  destruct (status_eqb (status job) Processing || status_eqb (status job) Pending);
    [exact Hs|].
  cbn. apply keys_inv_map_delete, Hs.
Qed.

Lemma step_keys (s : State) (e : Event) :
  keys_inv (activeJobs s) -> keys_inv (activeJobs (step s e)).
Proof.
  intros Hs. destruct e; cbn [step].
  - cbn. apply keys_inv_map_set; [exact Hs | reflexivity].
  - unfold queueJob, getJob.
    destruct (map_get (activeJobs s) jobId) as [job|] eqn:Hget; [|exact Hs].
    destruct (status_eqb (status job) Pending); cbn [negb]; [|exact Hs].
    assert (Hq : keys_inv (activeJobs
                   (processQueue w (with_queue s (jobQueue s ++ [jobId])%list)))).
    { unfold processQueue. cbn [isProcessing with_queue jobQueue activeJobs maxConcurrentJobs].
      destruct (isProcessing s || _); [exact Hs|].
      pose proof (admission_loop_keys w (maxConcurrentJobs s) (jobQueue s ++ [jobId])%list
                    (activeJobs s) (count_processing (activeJobs s)) Hs) as H.
      destruct (admission_loop _ _ _ _ _). exact H. }
    destruct (negb (existsSync w (outputDirectory job))); [|exact Hq].
    destruct (mkdirSync w (outputDirectory job)); [|exact Hq].
    cbn [snd with_jobs activeJobs]. apply keys_inv_map_set; [exact Hs|].
    exact (keys_inv_get _ _ _ Hs Hget).
  - unfold getJob. destruct (map_get (activeJobs s) jobId) as [job|] eqn:Hget;
      [|exact Hs].
    destruct (is_processing job); [|exact Hs].
    cbn [with_jobs activeJobs]. apply keys_inv_map_set; [exact Hs|].
    destruct (same_identity_resume w job) as [-> _].
    exact (keys_inv_get _ _ _ Hs Hget).
  - unfold processQueue. destruct (isProcessing s || _); [exact Hs|].
    pose proof (admission_loop_keys w (maxConcurrentJobs s) (jobQueue s)
                  (activeJobs s) (count_processing (activeJobs s)) Hs) as H.
    destruct (admission_loop _ _ _ _ _). exact H.
  - unfold cancelJob, getJob.
    destruct (map_get (activeJobs s) jobId) as [job|] eqn:Hget; [|exact Hs].
    destruct (status_eqb (status job) Pending); [|exact Hs].
    cbn [snd with_jobs activeJobs]. apply keys_inv_map_set; [exact Hs|].
    exact (keys_inv_get _ _ _ Hs Hget).
  - apply deleteJob_keys, Hs.
  - apply (clearCompletedJobs_preserves (fun s => keys_inv (activeJobs s)));
      [intros; apply deleteJob_keys; assumption | exact Hs].
  - exact Hs.
Qed.

Lemma run_keys (es : list Event) (s : State) :
  keys_inv (activeJobs s) -> keys_inv (activeJobs (run es s)).
Proof.
  revert s. induction es as [|e es IH]; intros s Hs; cbn; [exact Hs|].
  apply IH, step_keys, Hs.
Qed.

Lemma reachable_keys (es : list Event) : keys_inv (activeJobs (run es initial)).
Proof. apply run_keys. split; constructor. Qed.

(** X1.  In every state the scheduler can reach, the registry holds each
    job under its own id and holds no id twice: [getJob(jobId)] answers a
    job whose [id] is [jobId]. *)
Theorem registry_keys :
  forall (es : list Event),
    NoDup (map fst (activeJobs (run es initial))) /\
    forall (jobId : string) (j : BatchJob),
      getJob (run es initial) jobId = Some j -> id j = jobId.
Proof.
  intros es. pose proof (reachable_keys es) as H. split; [apply H|].
  intros jobId j Hget. eapply keys_inv_get; eauto.
Qed.

Lemma registry_keys_witness :
  exists j,
    getJob (run Examples.mixed_run initial) "batch-1000-b" = Some j /\
    id j = "batch-1000-b"%string.
Proof.
  eexists. split; [vm_compute; reflexivity|].
  apply (proj2 (registry_keys Examples.mixed_run) "batch-1000-b" _ eq_refl).
Defined.

End RegistryKeys.

(** ** The life of a job *)

Section JobLife.
Import BatchProcessor Spec SchedulerSpec.

Lemma status_begin (w : World) (j : BatchJob) :
  status (processJob_begin w j) <> Pending.
Proof.
  unfold processJob_begin, processJob_continue, processJob_finish.
  cbn [assign next inputFiles errors].
  destruct (0 <? List.length (inputFiles j))%nat; cbn; discriminate.
Qed.

Lemma status_resume (w : World) (j : BatchJob) :
  status j = Processing -> status (processJob_resume w j) <> Pending.
Proof.
  intros Hst. unfold processJob_resume, processJob_turn, processJob_continue,
    processJob_finish.
  destruct (nth_error (inputFiles j) (next j)) as [f|].
  - destruct (fst (processFile w j f (next j))); cbn [assign next inputFiles errors];
      destruct (_ <? _)%nat; cbn [assign status]; rewrite ?Hst;
      try discriminate; destruct (_ : list string); discriminate.
  - destruct (_ <? _)%nat; cbn [assign status]; rewrite ?Hst;
      try discriminate; destruct (errors j); discriminate.
Qed.

Lemma job_step_rank (j j' : BatchJob) :
  job_step j j' -> (rank (status j) <= rank (status j'))%nat.
Proof.
  intros [ | w Hst | w Hst | m Hst]; rewrite ?Hst; cbn; try lia.
  pose proof (status_resume w j Hst).
  destruct (status (processJob_resume w j)); cbn; try lia. contradiction.
Qed.

Lemma job_step_terminal (j j' : BatchJob) :
  job_step j j' -> terminal (status j) = true -> j' = j.
Proof.
  intros [ | w Hst | w Hst | m Hst] Ht; try reflexivity;
    rewrite Hst in Ht; discriminate.
Qed.

(** What admission does to the job under a key: nothing, or it starts
    it, and then the key was in the queue. *)
Lemma admission_loop_get (w : World) (cap : Js.number) (k : string) :
  forall (queue : list string) (m : Registry) (active : nat),
    map_get (fst (admission_loop w cap m queue active)) k = map_get m k \/
    (In k queue /\
     exists j, map_get m k = Some j /\ status j = Pending /\
               map_get (fst (admission_loop w cap m queue active)) k
               = Some (processJob_begin w j)).
Proof.
  induction queue as [|jobId rest IH]; intros m active; cbn [admission_loop fst];
    [now left|].
  destruct (Js.lt (Js.of_nat active) cap); [|now left].
  destruct (map_get m jobId) as [job|] eqn:Hget.
  2:{ destruct (IH m active) as [H|(Hin & H)]; [now left | right; split; [now right | exact H]]. }
  destruct (status_eqb (status job) Pending) eqn:Hst.
  2:{ destruct (IH m active) as [H|(Hin & H)]; [now left | right; split; [now right | exact H]]. }
  apply status_eqb_eq in Hst.
  destruct (IH (map_set m jobId (processJob_begin w job)) (S active))
    as [H|(Hin & j & Hj & Hp & H)].
  - destruct (String.eqb_spec jobId k) as [->|Hne].
    + right. split; [now left|]. exists job. rewrite H, map_get_set_same. auto.
    + left. rewrite H. apply map_get_set_other. congruence.
  - destruct (String.eqb_spec jobId k) as [->|Hne].
    + rewrite map_get_set_same in Hj. injection Hj as <-.
      exfalso. exact (status_begin w job Hp).
    + rewrite map_get_set_other in Hj by congruence.
      right. split; [now right|]. exists j. auto.
Qed.

Lemma processQueue_get (w : World) (s : State) (k : string) :
  getJob (processQueue w s) k = getJob s k \/
  (In k (jobQueue s) /\
   exists j, getJob s k = Some j /\ status j = Pending /\
             getJob (processQueue w s) k = Some (processJob_begin w j)).
Proof.
  unfold processQueue, getJob.
  destruct (isProcessing s || _); [now left|].
  pose proof (admission_loop_get w (maxConcurrentJobs s) k (jobQueue s) (activeJobs s)
                (count_processing (activeJobs s))) as H.
  destruct (admission_loop _ _ _ _ _) as [m q]. exact H.
Qed.

(** The job under [k] after a [deleteJob]. *)
Lemma deleteJob_get (jobId k : string) (s : State) (j : BatchJob) :
  keys_inv (activeJobs s) -> getJob s k = Some j ->
  getJob (snd (deleteJob jobId s)) k = Some j \/
  (getJob (snd (deleteJob jobId s)) k = None /\ jobId = k /\
   terminal (status j) = true).
Proof.
  intros Hk Hj. unfold deleteJob, getJob in *.
  destruct (map_get (activeJobs s) jobId) as [job|] eqn:Hget; [|now left].
  destruct (status_eqb (status job) Processing || status_eqb (status job) Pending)
    eqn:Hst; [now left|].
  cbn [snd with_jobs activeJobs].
  destruct (String.eqb_spec jobId k) as [->|Hne].
  - right. split; [apply map_get_delete_same, Hk|]. split; [reflexivity|].
    assert (job = j) by congruence. subst job.
    destruct (status j); cbn in *; congruence.
  - left. rewrite map_get_delete_other by congruence. exact Hj.
Qed.

Lemma deleteJob_get_None (jobId k : string) (s : State) :
  keys_inv (activeJobs s) -> getJob s k = None ->
  getJob (snd (deleteJob jobId s)) k = None.
Proof.
  intros Hk Hj. unfold deleteJob, getJob in *.
  destruct (map_get (activeJobs s) jobId) as [job|] eqn:Hget; [|exact Hj].
  destruct (status_eqb (status job) Processing || status_eqb (status job) Pending);
    [exact Hj|].
  cbn [snd with_jobs activeJobs].
  destruct (String.eqb_spec jobId k) as [->|Hne]; [congruence|].
  rewrite map_get_delete_other by congruence. exact Hj.
Qed.

(** One transition and one job: the job is as it was, or began, or went
    on, or was aborted; it leaves the registry only in a final status. *)
Lemma step_job (s : State) (e : Event) (k : string) (j : BatchJob) :
  keys_inv (activeJobs s) -> getJob s k = Some j -> creates e k = false ->
  match getJob (step s e) k with
  | Some j' => job_step j j'
  | None => terminal (status j) = true
  end.
Proof.
  intros Hk Hj He.
  assert (Hq : forall w s', getJob s' k = Some j ->
             match getJob (processQueue w s') k with
             | Some j' => job_step j j'
             | None => terminal (status j) = true
             end).
  { intros w s' Hj'.
    destruct (processQueue_get w s' k) as [->|(_ & j0 & H0 & Hp & ->)].
    - rewrite Hj'. constructor.
    - assert (j0 = j) by congruence. subst. now constructor. }
  destruct e; cbn [step].
  - cbn [creates] in He. apply String.eqb_neq in He.
    unfold getJob in *. cbn [snd createBatchJob with_jobs activeJobs id].
    fold (new_id w rnd). rewrite map_get_set_other by congruence.
    rewrite Hj. constructor.
  - unfold queueJob.
    destruct (getJob s jobId) as [job|] eqn:Hget;
      [|cbn [snd]; rewrite Hj; constructor].
    destruct (status_eqb (status job) Pending) eqn:Hst; cbn [negb];
      [|cbn [snd]; rewrite Hj; constructor].
    apply status_eqb_eq in Hst.
    destruct (negb (existsSync w (outputDirectory job))); [|apply Hq; exact Hj].
    destruct (mkdirSync w (outputDirectory job)) as [err|]; [|apply Hq; exact Hj].
    unfold getJob in *. cbn [snd with_jobs activeJobs].
    destruct (String.eqb_spec jobId k) as [->|Hne].
    + rewrite map_get_set_same. assert (job = j) by congruence. subst.
      now constructor.
    + rewrite map_get_set_other by congruence. rewrite Hj. constructor.
  - unfold getJob in *.
    destruct (map_get (activeJobs s) jobId) as [job|] eqn:Hget;
      [|rewrite Hj; constructor].
    destruct (is_processing job) eqn:Hst; [|rewrite Hj; constructor].
    apply status_eqb_eq in Hst. cbn [with_jobs activeJobs].
    destruct (String.eqb_spec jobId k) as [->|Hne].
    + rewrite map_get_set_same. assert (job = j) by congruence. subst.
      now constructor.
    + rewrite map_get_set_other by congruence. rewrite Hj. constructor.
  - apply Hq, Hj.
  - unfold cancelJob.
    destruct (getJob s jobId) as [job|] eqn:Hget;
      [|cbn [snd]; rewrite Hj; constructor].
    destruct (status_eqb (status job) Pending) eqn:Hst;
      [|cbn [snd]; rewrite Hj; constructor].
    apply status_eqb_eq in Hst.
    unfold getJob in *. cbn [snd activeJobs].
    destruct (String.eqb_spec jobId k) as [->|Hne].
    + rewrite map_get_set_same. assert (job = j) by congruence. subst.
      now constructor.
    + rewrite map_get_set_other by congruence. rewrite Hj. constructor.
  - destruct (deleteJob_get jobId k s j Hk Hj) as [->|(-> & _ & Ht)];
      [constructor | exact Ht].
  - assert (H : keys_inv (activeJobs (snd (clearCompletedJobs s))) /\
                (getJob (snd (clearCompletedJobs s)) k = Some j \/
                 (getJob (snd (clearCompletedJobs s)) k = None /\
                  terminal (status j) = true))).
    { apply (clearCompletedJobs_preserves
               (fun s' => keys_inv (activeJobs s') /\
                          (getJob s' k = Some j \/
                           (getJob s' k = None /\ terminal (status j) = true)))).
      - intros jobId s' [Hk' [H'|[H' Ht]]]; (split; [apply deleteJob_keys, Hk'|]).
        + destruct (deleteJob_get jobId k s' j Hk' H') as [?|(? & _ & ?)]; auto.
        + right. split; [apply deleteJob_get_None; assumption | exact Ht].
      - auto. }
    destruct H as [_ [->|[-> Ht]]]; [constructor | exact Ht].
  - cbn. unfold getJob in *. cbn. rewrite Hj. constructor.
Qed.

(** X2.  A job moves forward only: [pending], then [processing], then
    [completed] or [failed].  No transition of the scheduler takes a job
    back, none changes a job in a final status, none changes the id, name,
    input files, directory, adjustments, export options, file count or
    creation date of a job, and only a job in a final status ever leaves
    the registry.  (A [createBatchJob] that draws the id of an existing job
    replaces it; the statement is about every other transition.) *)
Theorem job_lifecycle :
  forall (es : list Event) (e : Event) (jobId : string) (j : BatchJob),
    getJob (run es initial) jobId = Some j ->
    creates e jobId = false ->
    match getJob (step (run es initial) e) jobId with
    | Some j' =>
        (rank (status j) <= rank (status j'))%nat /\
        same_identity j j' /\
        (terminal (status j) = true -> j' = j)
    | None => terminal (status j) = true
    end.
Proof.
  intros es e jobId j Hj He.
  pose proof (step_job (run es initial) e jobId j (reachable_keys es) Hj He) as H.
  destruct (getJob (step (run es initial) e) jobId) as [j'|]; [|exact H].
  auto using job_step_rank, job_step_identity, job_step_terminal.
Qed.

Lemma job_lifecycle_witness :
  exists j j',
    getJob (run Examples.queue_behind_one initial) "batch-1000-a" = Some j /\
    getJob (step (run Examples.queue_behind_one initial)
              (FileSettled Examples.world "batch-1000-a")) "batch-1000-a" = Some j' /\
    status j = Processing /\ status j' = Completed /\
    (rank (status j) <= rank (status j'))%nat /\ same_identity j j'.
Proof.
  eexists. eexists.
  split; [vm_compute; reflexivity|]. split; [vm_compute; reflexivity|].
  split; [reflexivity|]. split; [reflexivity|].
  pose proof (job_lifecycle Examples.queue_behind_one
                (FileSettled Examples.world "batch-1000-a") "batch-1000-a" _
                eq_refl eq_refl) as H.
  split; [exact (proj1 H) | exact (proj1 (proj2 H))].
Defined.

(** X3.  A job runs only if it was queued: a pending job whose id is not
    in the queue stays pending, or is cancelled, through every transition
    but its own [queueJob]. *)
Theorem unqueued_job_never_starts :
  forall (es : list Event) (e : Event) (jobId : string) (j : BatchJob),
    getJob (run es initial) jobId = Some j ->
    status j = Pending ->
    ~ In jobId (jobQueue (run es initial)) ->
    creates e jobId = false ->
    queues e jobId = false ->
    exists j',
      getJob (step (run es initial) e) jobId = Some j' /\
      (j' = j \/
       (status j' = Failed /\ processedFiles j' = 0%nat /\
        errors j' = ["Job cancelled by user"%string])).
Proof.
  intros es e jobId j Hj Hst Hq He Hqe.
  pose proof (reachable_job_inv es jobId j Hj) as [_ Hinv].
  rewrite Hst in Hinv. destruct Hinv as [Hdone Herr].
  set (s := run es initial) in *.
  assert (Hpq : forall w q, ~ In jobId q ->
             getJob (processQueue w (with_queue s q)) jobId = Some j).
  { intros w q Hnq.
    destruct (processQueue_get w (with_queue s q) jobId) as [->|(Hin & _)];
      [exact Hj | contradiction]. }
  destruct e; cbn [step]; cbn [creates] in He; cbn [queues] in Hqe.
  - exists j. split; [|now left].
    apply String.eqb_neq in He. unfold getJob in *.
    cbn [snd createBatchJob with_jobs activeJobs id]. fold (new_id w rnd).
    rewrite map_get_set_other by congruence. exact Hj.
  - apply String.eqb_neq in Hqe. exists j. split; [|now left].
    unfold queueJob.
    destruct (getJob s jobId0) as [job|] eqn:Hget; [|exact Hj].
    destruct (status_eqb (status job) Pending); cbn [negb]; [|exact Hj].
    assert (Hen : getJob (processQueue w (with_queue s (jobQueue s ++ [jobId0])%list))
                    jobId = Some j).
    { apply Hpq. rewrite in_app_iff. intros [?|[?|[]]]; auto. }
    destruct (negb (existsSync w (outputDirectory job))); [|exact Hen].
    destruct (mkdirSync w (outputDirectory job)); [|exact Hen].
    unfold getJob in *. cbn [snd with_jobs activeJobs].
    rewrite map_get_set_other by congruence. exact Hj.
  - exists j. split; [|now left]. unfold getJob in *.
    destruct (map_get (activeJobs s) jobId0) as [job|] eqn:Hget; [|exact Hj].
    destruct (is_processing job) eqn:Hp; [|exact Hj].
    cbn [with_jobs activeJobs].
    destruct (String.eqb_spec jobId0 jobId) as [->|Hne].
    + assert (job = j) by congruence. subst.
      unfold is_processing in Hp. rewrite Hst in Hp. discriminate.
    + rewrite map_get_set_other by congruence. exact Hj.
  - exists j. split; [|now left].
    replace s with (with_queue s (jobQueue s)) by (destruct s; reflexivity).
    apply Hpq. exact Hq.
  - unfold cancelJob.
    destruct (getJob s jobId0) as [job|] eqn:Hget;
      [|exists j; split; [exact Hj | now left]].
    destruct (status_eqb (status job) Pending) eqn:Hp;
      [|exists j; split; [exact Hj | now left]].
    unfold getJob in *. cbn [snd activeJobs].
    destruct (String.eqb_spec jobId0 jobId) as [->|Hne].
    + assert (job = j) by congruence. subst.
      eexists. split; [apply map_get_set_same|]. right.
      cbn [set_status_errors assign status processedFiles errors].
      rewrite Herr. auto.
    + exists j. split; [|now left].
      rewrite map_get_set_other by congruence. exact Hj.
  - exists j. split; [|now left].
    destruct (deleteJob_get jobId0 jobId s j (reachable_keys es) Hj)
      as [H|(_ & _ & Ht)]; [exact H|].
    rewrite Hst in Ht. discriminate.
  - exists j. split; [|now left].
    apply (clearCompletedJobs_preserves
             (fun s' => keys_inv (activeJobs s') /\ getJob s' jobId = Some j));
      [|split; [apply reachable_keys | exact Hj]].
    intros jobId0 s' [Hk' H']. split; [apply deleteJob_keys, Hk'|].
    destruct (deleteJob_get jobId0 jobId s' j Hk' H') as [H|(_ & _ & Ht)];
      [exact H|].
    rewrite Hst in Ht. discriminate.
  - exists j. split; [exact Hj | now left].
Qed.

Lemma unqueued_job_never_starts_witness :
  exists j j',
    getJob (run Examples.three_jobs initial) "batch-1000-b" = Some j /\
    status j = Pending /\
    getJob (step (run Examples.three_jobs initial) (TimerFired Examples.world))
      "batch-1000-b" = Some j' /\
    (j' = j \/
     (status j' = Failed /\ processedFiles j' = 0%nat /\
      errors j' = ["Job cancelled by user"%string])).
Proof.
  eexists.
  destruct (unqueued_job_never_starts Examples.three_jobs
              (TimerFired Examples.world) "batch-1000-b" _
              eq_refl eq_refl (fun H => H) eq_refl eq_refl) as (j' & H1 & H2).
  exists j'. split; [reflexivity|]. split; [reflexivity|]. split; assumption.
Defined.

End JobLife.

(** ** Deleting jobs *)

Section Deleting.
Import BatchProcessor Spec SchedulerSpec.

(** X4.  [deleteJob] answers [true] exactly for a job that exists and is
    ['completed'] or ['failed'].  Then the job is gone from the registry,
    every other job and the queue are as they were; when it answers
    [false] nothing has changed. *)
Theorem deleteJob_spec :
  forall (es : list Event) (jobId : string),
    let s := run es initial in
    (fst (deleteJob jobId s) = true <->
     exists j, getJob s jobId = Some j /\ terminal (status j) = true) /\
    (fst (deleteJob jobId s) = true ->
     getJob (snd (deleteJob jobId s)) jobId = None /\
     (forall k, k <> jobId -> getJob (snd (deleteJob jobId s)) k = getJob s k) /\
     jobQueue (snd (deleteJob jobId s)) = jobQueue s) /\
    (fst (deleteJob jobId s) = false -> snd (deleteJob jobId s) = s).
Proof.
  intros es jobId s. pose proof (reachable_keys es) as [_ Hnd]. fold s in Hnd.
  unfold deleteJob, getJob.
  destruct (map_get (activeJobs s) jobId) as [job|] eqn:Hget.
  - destruct (status job) eqn:Hst; cbn [status_eqb orb fst snd].
    + repeat split; try discriminate. intros (j & [= <-] & Ht).
      rewrite Hst in Ht. discriminate.
    + repeat split; try discriminate. intros (j & [= <-] & Ht).
      rewrite Hst in Ht. discriminate.
    + repeat split; try discriminate.
      * intros _. exists job. rewrite Hst. auto.
      * cbn. apply map_get_delete_same, Hnd.
      * intros k Hk. cbn. apply map_get_delete_other, Hk.
    + repeat split; try discriminate.
      * intros _. exists job. rewrite Hst. auto.
      * cbn. apply map_get_delete_same, Hnd.
      * intros k Hk. cbn. apply map_get_delete_other, Hk.
  - cbn [fst snd]. repeat split; try discriminate.
    intros (j & H & _). discriminate.
Qed.

Lemma deleteJob_spec_witness :
  let s := run Examples.mixed_run initial in
  fst (deleteJob "batch-1000-b" s) = true /\
  getJob (snd (deleteJob "batch-1000-b" s)) "batch-1000-b" = None /\
  getJob (snd (deleteJob "batch-1000-b" s)) "batch-1000-a" = getJob s "batch-1000-a".
Proof.
  cbv zeta.
  pose proof (deleteJob_spec Examples.mixed_run "batch-1000-b") as H.
  cbv zeta in H. destruct H as (_ & H & _).
  assert (Ht : fst (deleteJob "batch-1000-b" (run Examples.mixed_run initial)) = true)
    by (vm_compute; reflexivity).
  destruct (H Ht) as (H1 & H2 & _).
  split; [exact Ht|]. split; [exact H1|]. apply H2. discriminate.
Defined.

Lemma In_keys_get (m : Registry) (k : string) (j : BatchJob) :
  NoDup (map fst m) -> In (k, j) m -> map_get m k = Some j.
Proof.
  induction m as [|[k' j'] r IH]; cbn; intros Hnd Hin; [contradiction|].
  inversion Hnd as [|? ? Hout Hnd']; subst.
  destruct Hin as [[= -> ->]|Hin].
  - now rewrite String.eqb_refl.
  - destruct (String.eqb_spec k' k) as [->|Hne]; [|auto].
    exfalso. apply Hout. change k with (fst (k, j)). now apply in_map.
Qed.

Lemma values_ids (m : Registry) :
  keys_inv m -> map id (values m) = map fst m.
Proof.
  intros [Hid _]. unfold values. rewrite map_map.
  apply map_ext_in. intros kj Hin. rewrite Forall_forall in Hid.
  symmetry. apply Hid, Hin.
Qed.

Lemma In_values_get (m : Registry) (j : BatchJob) :
  keys_inv m -> In j (values m) -> map_get m (id j) = Some j.
Proof.
  intros Hk Hin. unfold values in Hin. apply in_map_iff in Hin as ([k j'] & <- & Hin).
  cbn. destruct Hk as [Hid Hnd]. apply In_keys_get; [exact Hnd|].
  rewrite Forall_forall in Hid. specialize (Hid _ Hin). cbn in Hid.
  now rewrite <- Hid.
Qed.

Lemma insert_newest_first_perm (j : BatchJob) (l : list BatchJob) :
  Permutation (insert_newest_first j l) (j :: l).
Proof.
  induction l as [|x r IH]; cbn; [reflexivity|].
  destruct (createdDate x <=? createdDate j)%Z; [reflexivity|].
  rewrite IH. apply perm_swap.
Qed.

Lemma sort_newest_first_perm (l : list BatchJob) :
  Permutation (sort_newest_first l) l.
Proof.
  induction l as [|x r IH]; cbn; [reflexivity|].
  rewrite insert_newest_first_perm. now constructor.
Qed.

(** The loop of [clearCompletedJobs] over jobs that are in the registry
    and completed, no two with the same id. *)
Lemma clear_loop (l : list BatchJob) :
  forall (n : nat) (s : State),
    keys_inv (activeJobs s) ->
    NoDup (map id l) ->
    (forall job, In job l ->
       exists j, getJob s (id job) = Some j /\ status j = Completed) ->
    let r := fold_left
               (fun acc job =>
                  let '(deletedCount, s) := acc in
                  let '(ok, s') := deleteJob (id job) s in
                  if ok then (S deletedCount, s') else (deletedCount, s'))
               l (n, s) in
    fst r = (n + List.length l)%nat /\
    jobQueue (snd r) = jobQueue s /\
    (forall k, In k (map id l) -> getJob (snd r) k = None) /\
    (forall k, ~ In k (map id l) -> getJob (snd r) k = getJob s k).
Proof.
  induction l as [|job l IH]; intros n s Hk Hnd Hall; cbn [fold_left].
  - cbn. repeat split; auto. intros k [].
  - destruct (Hall job (or_introl eq_refl)) as (j & Hj & Hst).
    inversion Hnd as [|? ? Hout Hnd']; subst.
    assert (Hdel : deleteJob (id job) s
                   = (true, with_jobs s (map_delete (activeJobs s) (id job)))).
    { unfold deleteJob. rewrite Hj, Hst. reflexivity. }
    rewrite Hdel.
    set (s1 := with_jobs s (map_delete (activeJobs s) (id job))).
    assert (Hk1 : keys_inv (activeJobs s1)) by (apply keys_inv_map_delete, Hk).
    assert (Hother : forall k, k <> id job -> getJob s1 k = getJob s k)
      by (intros k Hne; apply map_get_delete_other, Hne).
    destruct (IH (S n) s1 Hk1 Hnd') as (H1 & H2 & H3 & H4).
    { intros job' Hin. destruct (Hall job' (or_intror Hin)) as (j' & Hj' & Hst').
      exists j'. split; [|exact Hst']. rewrite Hother; [exact Hj'|].
      intros Heq. apply Hout. rewrite <- Heq. now apply in_map. }
    cbv zeta. split; [rewrite H1; cbn; lia|]. split; [exact H2|]. split.
    + intros k [<-|Hin]; [|auto].
      destruct (in_dec string_dec (id job) (map id l)) as [Hi|Hi]; [auto|].
      rewrite H4 by assumption. apply map_get_delete_same, Hk.
    + intros k Hnin. rewrite H4 by (intros ?; apply Hnin; now right).
      apply Hother. intros ->. apply Hnin. now left.
Qed.

(** X5.  [clearCompletedJobs] answers the number of ['completed'] jobs and
    removes exactly those: afterwards no job is ['completed'], every job in
    another status is as it was, and the queue is untouched. *)
Theorem clearCompletedJobs_spec :
  forall (es : list Event),
    let s := run es initial in
    let n := fst (clearCompletedJobs s) in
    let s' := snd (clearCompletedJobs s) in
    n = List.length (filter (fun job => status_eqb (status job) Completed)
                       (values (activeJobs s))) /\
    jobQueue s' = jobQueue s /\
    (forall k j, getJob s k = Some j -> status j = Completed -> getJob s' k = None) /\
    (forall k j, getJob s k = Some j -> status j <> Completed -> getJob s' k = Some j) /\
    (forall k, getJob s k = None -> getJob s' k = None).
Proof.
  intros es s n s'. subst n s'. unfold clearCompletedJobs.
  pose proof (reachable_keys es) as Hk. fold s in Hk.
  set (l := getJobsByStatus s Completed).
  assert (Hperm : Permutation l (filter (fun job => status_eqb (status job) Completed)
                                   (values (activeJobs s))))
    by apply sort_newest_first_perm.
  assert (Hin : forall job, In job l <->
                            In job (values (activeJobs s)) /\ status job = Completed).
  { intros job. rewrite (Permutation_in' eq_refl Hperm), filter_In, status_eqb_eq.
    reflexivity. }
  assert (Hnd : NoDup (map id l)).
  { apply (Permutation_NoDup (Permutation_map id (Permutation_sym Hperm))).
    assert (Hv : NoDup (map id (values (activeJobs s))))
      by (rewrite values_ids by exact Hk; apply Hk).
    revert Hv. generalize (values (activeJobs s)) as v.
    induction v as [|x v IH]; cbn; intros Hv; [constructor|].
    inversion Hv; subst.
    destruct (status_eqb (status x) Completed); cbn; auto.
    constructor; auto. intros H. apply in_map_iff in H as (y & Hy & Hf).
    apply filter_In in Hf as [Hf _]. match goal with H : ~ In _ _ |- _ => apply H end.
    rewrite <- Hy. now apply in_map. }
  destruct (clear_loop l 0 s Hk Hnd) as (H1 & H2 & H3 & H4).
  { intros job Hj. apply Hin in Hj as [Hv Hst]. exists job.
    split; [apply In_values_get; assumption | exact Hst]. }
  cbv zeta in *.
  assert (Hids : forall k, In k (map id l) <->
                           exists j, getJob s k = Some j /\ status j = Completed).
  { intros k. split.
    - intros H. apply in_map_iff in H as (job & <- & Hj). apply Hin in Hj as [Hv Hst].
      exists job. split; [apply In_values_get; assumption | exact Hst].
    - intros (j & Hj & Hst). apply in_map_iff. exists j.
      split; [eapply keys_inv_get; eauto|]. apply Hin.
      split; [eapply map_get_In, Hj | exact Hst]. }
  split; [rewrite H1; cbn; apply Permutation_length, Hperm|].
  split; [exact H2|]. repeat split.
  - intros k j Hj Hst. apply H3, Hids. eauto.
  - intros k j Hj Hst. rewrite H4; [exact Hj|].
    intros H. apply Hids in H as (j' & Hj' & Hst'). congruence.
  - intros k Hj. rewrite H4; [exact Hj|].
    intros H. apply Hids in H as (j' & Hj' & _). congruence.
Qed.

End Deleting.

Lemma clearCompletedJobs_spec_witness :
  let s := BatchProcessor.run Runs.one_completed BatchProcessor.initial in
  fst (BatchProcessor.clearCompletedJobs s) = 1%nat /\
  BatchProcessor.getJob (snd (BatchProcessor.clearCompletedJobs s)) "batch-1000-a" = None /\
  BatchProcessor.getJob (snd (BatchProcessor.clearCompletedJobs s)) "batch-1000-b"
  = BatchProcessor.getJob s "batch-1000-b".
Proof.
  cbv zeta.
  pose proof (clearCompletedJobs_spec Runs.one_completed) as H.
  cbv zeta in H. destruct H as (Hn & _ & Hdone & Hkeep & _).
  split; [rewrite Hn; vm_compute; reflexivity|]. split.
  - destruct (BatchProcessor.getJob
                (BatchProcessor.run Runs.one_completed BatchProcessor.initial)
                "batch-1000-a") as [j|] eqn:Hj; [|vm_compute in Hj; discriminate].
    apply (Hdone _ j Hj). vm_compute in Hj. injection Hj as <-. reflexivity.
  - destruct (BatchProcessor.getJob
                (BatchProcessor.run Runs.one_completed BatchProcessor.initial)
                "batch-1000-b") as [j|] eqn:Hj; [|vm_compute in Hj; discriminate].
    apply (Hkeep _ j Hj). vm_compute in Hj. injection Hj as <-. discriminate.
Defined.

(** ** Listings and statistics *)

Section Listings.
Import BatchProcessor Spec SchedulerSpec BatchReports.

Lemma insert_newest_first_sorted (j : BatchJob) (l : list BatchJob) :
  StronglySorted newest_first l ->
  StronglySorted newest_first (insert_newest_first j l).
Proof.
  induction l as [|x r IH]; cbn; intros Hs.
  - repeat constructor.
  - inversion Hs as [|? ? Hr Hx]; subst.
    destruct (Z.leb_spec (createdDate x) (createdDate j)) as [Hle|Hgt].
    + constructor; [exact Hs|]. constructor; [unfold newest_first; lia|].
      rewrite Forall_forall in *. intros y Hy. specialize (Hx y Hy).
      unfold newest_first in *. lia.
    + constructor; [apply IH, Hr|].
      apply (Permutation_Forall (Permutation_sym (insert_newest_first_perm j r))).
      constructor; [unfold newest_first; lia | exact Hx].
Qed.

Lemma sort_newest_first_sorted (l : list BatchJob) :
  StronglySorted newest_first (sort_newest_first l).
Proof.
  induction l as [|x r IH]; cbn; [constructor|].
  apply insert_newest_first_sorted, IH.
Qed.

(** The sort is stable: the jobs of one date keep the order they had. *)
Lemma insert_newest_first_stable (date : Z) (j : BatchJob) (l : list BatchJob) :
  created_at date (insert_newest_first j l) = created_at date (j :: l).
Proof.
  unfold created_at. induction l as [|x r IH]; cbn [insert_newest_first]; [reflexivity|].
  destruct (Z.leb_spec (createdDate x) (createdDate j)) as [Hle|Hgt]; [reflexivity|].
  cbn [filter] in *. rewrite IH.
  destruct (Z.eqb_spec (createdDate x) date) as [Ex|Ex];
    destruct (Z.eqb_spec (createdDate j) date) as [Ej|Ej]; try reflexivity.
  lia.
Qed.

Lemma sort_newest_first_stable (date : Z) (l : list BatchJob) :
  created_at date (sort_newest_first l) = created_at date l.
Proof.
  induction l as [|x r IH]; cbn [sort_newest_first fold_right]; [reflexivity|].
  fold (sort_newest_first r). rewrite insert_newest_first_stable.
  unfold created_at in *. cbn [filter]. now rewrite IH.
Qed.

Lemma insert_newest_first_front (j : BatchJob) (l : list BatchJob) :
  Forall (fun y => (createdDate y <= createdDate j)%Z) l ->
  insert_newest_first j l = j :: l.
Proof.
  intros H. destruct l as [|x r]; [reflexivity|]. cbn [insert_newest_first].
  inversion H as [|? ? Hx _]; subst.
  destruct (Z.leb_spec (createdDate x) (createdDate j)); [reflexivity | lia].
Qed.

(** Filtering a sorted list and inserting commute. *)
Lemma filter_insert_newest_first (f : BatchJob -> bool) (j : BatchJob) (l : list BatchJob) :
  StronglySorted newest_first l ->
  filter f (insert_newest_first j l)
  = if f j then insert_newest_first j (filter f l) else filter f l.
Proof.
  induction l as [|x r IH]; intros Hs; cbn [insert_newest_first filter].
  - destruct (f j); reflexivity.
  - inversion Hs as [|? ? Hr Hx]; subst.
    destruct (Z.leb_spec (createdDate x) (createdDate j)) as [Hle|Hgt].
    + cbn [filter]. destruct (f j) eqn:Hj; [|reflexivity].
      symmetry. apply insert_newest_first_front.
      assert (Hall : Forall (fun y => (createdDate y <= createdDate j)%Z) (x :: r)).
      { constructor; [exact Hle|]. rewrite Forall_forall in *.
        intros y Hy. specialize (Hx y Hy). unfold newest_first in Hx. lia. }
      rewrite Forall_forall in *. intros y Hy.
      apply Hall. apply (proj1 (filter_In f y (x :: r)) Hy).
    + cbn [filter]. rewrite (IH Hr).
      destruct (f x) eqn:Hfx; destruct (f j) eqn:Hj; try reflexivity.
      cbn [insert_newest_first].
      destruct (Z.leb_spec (createdDate x) (createdDate j)); [lia | reflexivity].
Qed.

Lemma filter_sort_newest_first (f : BatchJob -> bool) (l : list BatchJob) :
  sort_newest_first (filter f l) = filter f (sort_newest_first l).
Proof.
  induction l as [|x r IH]; cbn [sort_newest_first fold_right filter]; [reflexivity|].
  fold (sort_newest_first r).
  rewrite (filter_insert_newest_first f x _ (sort_newest_first_sorted r)).
  destruct (f x); cbn [sort_newest_first fold_right]; fold (sort_newest_first (filter f r));
    now rewrite IH.
Qed.

Lemma created_at_filter (date : Z) (f : BatchJob -> bool) (l : list BatchJob) :
  created_at date (filter f l) = filter f (created_at date l).
Proof.
  unfold created_at. induction l as [|x r IH]; cbn [filter]; [reflexivity|].
  destruct (f x) eqn:Hf; cbn [filter];
    destruct (Z.eqb (createdDate x) date); cbn [filter]; rewrite ?Hf, IH; reflexivity.
Qed.

(** X6.  [getAllJobs] lists every job of the registry once, newest first:
    no job is created later than a job listed before it, and the jobs
    created at one date come in the order in which the registry holds
    them, the order of their creation. *)
Theorem getAllJobs_sorted_permutation :
  forall (s : State),
    Permutation (getAllJobs s) (values (activeJobs s)) /\
    StronglySorted newest_first (getAllJobs s) /\
    forall date,
      created_at date (getAllJobs s) = created_at date (values (activeJobs s)).
Proof.
  intros s. split; [apply sort_newest_first_perm|].
  split; [apply sort_newest_first_sorted|].
  intros date. apply sort_newest_first_stable.
Qed.

(** X7.  [getJobsByStatus(status)] lists exactly the jobs of the registry
    in that status, each once, newest first, those of one date in the order
    of the registry: it is [getAllJobs] with the jobs of the other statuses
    left out. *)
Theorem getJobsByStatus_spec :
  forall (s : State) (st : JobStatus),
    (forall job, In job (getJobsByStatus s st) <->
                 In job (values (activeJobs s)) /\ status job = st) /\
    Permutation (getJobsByStatus s st)
      (filter (fun job => status_eqb (status job) st) (values (activeJobs s))) /\
    StronglySorted newest_first (getJobsByStatus s st) /\
    getJobsByStatus s st
    = filter (fun job => status_eqb (status job) st) (getAllJobs s) /\
    forall date,
      created_at date (getJobsByStatus s st)
      = filter (fun job => status_eqb (status job) st)
          (created_at date (values (activeJobs s))).
Proof.
  intros s st.
  assert (Hperm : Permutation (getJobsByStatus s st)
                    (filter (fun job => status_eqb (status job) st)
                       (values (activeJobs s))))
    by apply sort_newest_first_perm.
  split; [|split; [exact Hperm | split; [apply sort_newest_first_sorted|split]]].
  - intros job. rewrite (Permutation_in' eq_refl Hperm), filter_In, status_eqb_eq.
    reflexivity.
  - apply filter_sort_newest_first.
  - intros date. unfold getJobsByStatus.
    rewrite sort_newest_first_stable. apply created_at_filter.
Qed.

Lemma list_sum_perm (l l' : list nat) :
  Permutation l l' -> list_sum l = list_sum l'.
Proof. induction 1; unfold list_sum in *; cbn [fold_right]; lia. Qed.

(** The [forEach] of [getStatistics] adds up, field by field. *)
Lemma tally_sums (l : list BatchJob) :
  forall init : Statistics,
    let r := fold_left tally l init in
    total r = total init /\
    pending r = (pending init + list_sum (map (indicator Pending) l))%nat /\
    processing r = (processing init + list_sum (map (indicator Processing) l))%nat /\
    completed r = (completed init + list_sum (map (indicator Completed) l))%nat /\
    failed r = (failed init + list_sum (map (indicator Failed) l))%nat /\
    totalFilesProcessed r
    = (totalFilesProcessed init + list_sum (map processedFiles l))%nat /\
    totalFilesQueued r = (totalFilesQueued init + list_sum (map totalFiles l))%nat /\
    totalErrors r
    = (totalErrors init + list_sum (map (fun j => List.length (errors j)) l))%nat.
Proof.
  induction l as [|j l IH]; intros init; unfold list_sum in *;
    cbn [fold_left map fold_right].
  - cbv zeta. repeat split; lia.
  - specialize (IH (tally init j)). cbv zeta in *.
    destruct IH as (H1 & H2 & H3 & H4 & H5 & H6 & H7 & H8).
    rewrite H1, H2, H3, H4, H5, H6, H7, H8.
    unfold indicator. cbn [tally total pending processing completed failed
                             totalFilesProcessed totalFilesQueued totalErrors].
    destruct (status j); cbn [status_eqb]; repeat split; lia.
Qed.

Lemma indicator_count (l : list BatchJob) :
  list_sum (map (indicator Processing) l) = List.length (filter is_processing l).
Proof.
  induction l as [|j l IH]; unfold list_sum in *; cbn [map fold_right filter];
    [reflexivity|].
  unfold indicator at 1. unfold is_processing at 1.
  destruct (status_eqb (status j) Processing); cbn [List.length]; lia.
Qed.

Lemma indicators_partition (l : list BatchJob) :
  (list_sum (map (indicator Pending) l) + list_sum (map (indicator Processing) l)
   + list_sum (map (indicator Completed) l) + list_sum (map (indicator Failed) l))%nat
  = List.length l.
Proof.
  induction l as [|j l IH]; unfold list_sum in *; cbn [map fold_right List.length];
    [reflexivity|].
  unfold indicator at 1 3 5 7. destruct (status j); cbn [status_eqb]; lia.
Qed.

Lemma job_inv_processed_le (j : BatchJob) :
  job_inv j -> (processedFiles j <= totalFiles j)%nat.
Proof.
  intros [Ht Hs]. destruct (status j).
  - lia.
  - lia.
  - lia.
  - destruct Hs as [_ [H|[H _]]]; lia.
Qed.

Lemma processed_le_queued (l : list BatchJob) :
  Forall job_inv l ->
  (list_sum (map processedFiles l) <= list_sum (map totalFiles l))%nat.
Proof.
  induction 1 as [|j l Hinv _ IH]; unfold list_sum in *; cbn [map fold_right];
    [lia|].
  pose proof (job_inv_processed_le j Hinv). lia.
Qed.

(** X8.  The statistics add up: [total] is the number of jobs in the
    registry and the sum of the four status counts, [processing] is the
    number of jobs in status ['processing'], the three file and error totals
    are the sums over the jobs, and the files processed never exceed the
    files queued. *)
Theorem getStatistics_consistent :
  forall (es : list Event),
    let s := run es initial in
    let stats := getStatistics s in
    let jobs := values (activeJobs s) in
    total stats = List.length jobs /\
    total stats = (pending stats + processing stats + completed stats + failed stats)%nat /\
    processing stats = count_processing (activeJobs s) /\
    totalFilesProcessed stats = list_sum (map processedFiles jobs) /\
    totalFilesQueued stats = list_sum (map totalFiles jobs) /\
    totalErrors stats = list_sum (map (fun j => List.length (errors j)) jobs) /\
    (totalFilesProcessed stats <= totalFilesQueued stats)%nat.
Proof.
  intros es s stats jobs. subst stats. unfold getStatistics.
  assert (Hperm : Permutation (getAllJobs s) jobs) by apply sort_newest_first_perm.
  destruct (tally_sums (getAllJobs s)
              {| total := List.length (getAllJobs s); pending := 0; processing := 0;
                 completed := 0; failed := 0; totalFilesProcessed := 0;
                 totalFilesQueued := 0; totalErrors := 0 |})
    as (H1 & H2 & H3 & H4 & H5 & H6 & H7 & H8).
  cbv zeta in *. cbn [total pending processing completed failed totalFilesProcessed
                        totalFilesQueued totalErrors] in *.
  pose proof (indicators_partition (getAllJobs s)) as Hpart.
  pose proof (Permutation_length Hperm) as Hlen.
  rewrite H1, H2, H3, H4, H5, H6, H7, H8. cbn [Nat.add].
  rewrite (list_sum_perm _ _ (Permutation_map processedFiles Hperm)).
  rewrite (list_sum_perm _ _ (Permutation_map totalFiles Hperm)).
  rewrite (list_sum_perm _ _ (Permutation_map (fun j => List.length (errors j)) Hperm)).
  pose proof (list_sum_perm _ _ (Permutation_map (indicator Processing) Hperm)) as Hproc.
  rewrite (indicator_count jobs) in Hproc. unfold count_processing. fold jobs.
  repeat split; try lia.
  apply processed_le_queued. apply (run_inv es initial initial_inv).
Qed.

End Listings.

(** ** Every job the scheduler can hold *)

Section ReachableJobs.
Import BatchProcessor Spec SchedulerSpec.

(** No job appears in the registry but by [createBatchJob]. *)
Lemma step_job_None (s : State) (e : Event) (k : string) :
  keys_inv (activeJobs s) -> getJob s k = None -> creates e k = false ->
  getJob (step s e) k = None.
Proof.
  intros Hk Hj He.
  assert (Hq : forall w s', getJob s' k = None -> getJob (processQueue w s') k = None).
  { intros w s' H'. destruct (processQueue_get w s' k) as [->|(_ & j & Hj' & _)];
      [exact H' | congruence]. }
  assert (Hset : forall jobId job job',
             getJob s jobId = Some job ->
             map_get (map_set (activeJobs s) jobId job') k = None).
  { intros jobId job job' Hget. unfold getJob in *.
    rewrite map_get_set_other; [exact Hj | congruence]. }
  destruct e; cbn [step]; cbn [creates] in He.
  - apply String.eqb_neq in He. unfold getJob in *.
    cbn [snd createBatchJob with_jobs activeJobs id]. fold (new_id w rnd).
    rewrite map_get_set_other by congruence. exact Hj.
  - unfold queueJob. destruct (getJob s jobId) as [job|] eqn:Hget; [|exact Hj].
    destruct (status_eqb (status job) Pending); cbn [negb]; [|exact Hj].
    destruct (negb (existsSync w (outputDirectory job))); [|apply Hq; exact Hj].
    destruct (mkdirSync w (outputDirectory job)); [|apply Hq; exact Hj].
    apply (Hset jobId job _ Hget).
  - destruct (getJob s jobId) as [job|] eqn:Hget; [|exact Hj].
    destruct (is_processing job); [|exact Hj]. apply (Hset jobId job _ Hget).
  - apply Hq, Hj.
  - unfold cancelJob. destruct (getJob s jobId) as [job|] eqn:Hget; [|exact Hj].
    destruct (status_eqb (status job) Pending); [|exact Hj].
    apply (Hset jobId job _ Hget).
  - apply deleteJob_get_None; assumption.
  - apply (clearCompletedJobs_preserves
             (fun s' => keys_inv (activeJobs s') /\ getJob s' k = None));
      [|split; assumption].
    intros jobId s' [Hk' H']. split; [apply deleteJob_keys, Hk'|].
    apply deleteJob_get_None; assumption.
  - exact Hj.
Qed.

Lemma step_job_created (s : State) (e : Event) (k : string) :
  creates e k = true ->
  exists w rnd nm files dir a o,
    getJob (step s e) k = Some (fst (createBatchJob w rnd nm files dir a o s)).
Proof.
  destruct e as [w rnd nm files dir a o| | | | | | | ]; cbn [creates];
    try discriminate.
  intros He. apply String.eqb_eq in He. subst k.
  exists w, rnd, nm, files, dir, a, o.
  cbn [step]. unfold getJob. cbn [snd fst createBatchJob with_jobs activeJobs id].
  apply map_get_set_same.
Qed.

(** Induction over the jobs of the reachable states: what holds of every
    new job and is kept by every move of a job holds of every job the
    scheduler can hold. *)
Lemma reachable_jobs (P : BatchJob -> Prop) :
  (forall w rnd nm files dir a o s,
      P (fst (createBatchJob w rnd nm files dir a o s))) ->
  (forall j j', job_inv j -> P j -> job_step j j' -> P j') ->
  forall (es : list Event) (k : string) (j : BatchJob),
    getJob (run es initial) k = Some j -> P j.
Proof.
  intros Hnew Hstep es. induction es as [|e es IH] using rev_ind; intros k j Hj.
  - discriminate.
  - unfold run in Hj. rewrite fold_left_app in Hj. cbn [fold_left] in Hj.
    fold (run es initial) in Hj.
    destruct (creates e k) eqn:He.
    + destruct (step_job_created (run es initial) e k He)
        as (w & rnd & nm & files & dir & a & o & H).
      rewrite H in Hj. injection Hj as <-.
      exact (Hnew w rnd nm files dir a o (run es initial)).
    + destruct (getJob (run es initial) k) as [j0|] eqn:H0.
      * pose proof (step_job _ e k j0 (reachable_keys es) H0 He) as H.
        rewrite Hj in H.
        exact (Hstep j0 j (reachable_job_inv es k j0 H0) (IH k j0 H0) H).
      * rewrite (step_job_None _ e k (reachable_keys es) H0 He) in Hj. discriminate.
Qed.

End ReachableJobs.

(** ** Progress *)

Section Progress.
Import BatchProcessor Spec SchedulerSpec.

(** *** Binary64 rounding keeps the order *)

Lemma pow2_pos (e : Z) : 0 < 2 ^ e.
Proof. apply Qpower_0_lt. reflexivity. Qed.

Lemma pow2_plus (a b : Z) : 2 ^ (a + b) == 2 ^ a * 2 ^ b.
Proof. apply Qpower_plus. discriminate. Qed.

Lemma pow2_le (a b : Z) : (a <= b)%Z -> 2 ^ a <= 2 ^ b.
Proof. intros H. apply Qpower_le_compat_l; [exact H | discriminate]. Qed.

Lemma pow2_Z (z : Z) : (0 <= z)%Z -> inject_Z (2 ^ z) == 2 ^ z.
Proof. intros H. apply (Zpower_Qpower 2 z H). Qed.

Lemma ilog2_spec (q : Q) : 0 < q -> 2 ^ Js.ilog2 q <= q /\ q < 2 ^ (Js.ilog2 q + 1).
Proof.
  intros Hq. destruct q as [n d]. unfold Js.ilog2. cbn [Qnum Qden].
  assert (Hn : (0 < n)%Z) by (unfold Qlt in Hq; cbn in Hq; lia).
  set (a := Z.log2 n). set (b := Z.log2 (Z.pos d)).
  pose proof (Z.log2_spec n Hn) as [Ha1 Ha2]. fold a in Ha1, Ha2.
  pose proof (Z.log2_spec (Z.pos d) eq_refl) as [Hb1 Hb2]. fold b in Hb1, Hb2.
  assert (Ha0 : (0 <= a)%Z) by apply Z.log2_nonneg.
  assert (Hb0 : (0 <= b)%Z) by apply Z.log2_nonneg.
  rewrite Zle_Qle, pow2_Z in Ha1, Hb1 by assumption.
  rewrite Zlt_Qlt, pow2_Z in Ha2, Hb2 by lia.
  assert (Hd : 0 < inject_Z (Z.pos d)) by reflexivity.
  assert (Eq : n # d == inject_Z n / inject_Z (Z.pos d)) by apply Qmake_Qdiv.
  pose proof (pow2_pos (a - b)) as P0.
  pose proof (pow2_pos (a - b - 1)) as P1.
  pose proof (pow2_pos (a - b + 1)) as P2.
  pose proof (pow2_pos b) as Pb. pose proof (pow2_pos (Z.succ b)) as Pb1.
  assert (Hup : n # d < 2 ^ (a - b + 1)).
  { rewrite Eq. apply Qlt_shift_div_r; [exact Hd|].
    eapply Qlt_le_trans; [exact Ha2|].
    replace (Z.succ a) with ((a - b + 1) + b)%Z by lia.
    rewrite pow2_plus. apply Qmult_le_l; assumption. }
  assert (Hlo : 2 ^ (a - b - 1) <= n # d).
  { rewrite Eq. apply Qle_shift_div_l; [exact Hd|].
    eapply Qle_trans; [|exact Ha1].
    replace a with ((a - b - 1) + Z.succ b)%Z at 2 by lia.
    rewrite pow2_plus. apply Qmult_le_l; [assumption|].
    apply Qlt_le_weak. exact Hb2. }
  destruct (Qle_bool (2 ^ (a - b)) (n # d)) eqn:E.
  - apply Qle_bool_iff in E. split; assumption.
  - assert (Hlt : n # d < 2 ^ (a - b)).
    { apply Qnot_le_lt. intros H. apply Qle_bool_iff in H. congruence. }
    replace (a - b - 1 + 1)%Z with (a - b)%Z by lia. split; assumption.
Qed.

Lemma ilog2_mono (x y : Q) : 0 < x -> x <= y -> (Js.ilog2 x <= Js.ilog2 y)%Z.
Proof.
  intros Hx Hxy.
  destruct (ilog2_spec x Hx) as [Hx1 _].
  destruct (ilog2_spec y) as [_ Hy2]; [lra|].
  destruct (Z_le_gt_dec (Js.ilog2 x) (Js.ilog2 y)) as [H|H]; [exact H|].
  exfalso. assert (Hp : 2 ^ (Js.ilog2 y + 1) <= 2 ^ Js.ilog2 x) by (apply pow2_le; lia).
  lra.
Qed.

Lemma round_even_cases (q : Q) :
  let f := Qfloor q in
  (Js.round_even q = f /\ q - inject_Z f <= 1 # 2) \/
  (Js.round_even q = (f + 1)%Z /\ 1 # 2 <= q - inject_Z f).
Proof.
  cbv zeta. unfold Js.round_even.
  destruct (Qcompare (q - inject_Z (Qfloor q)) (1 # 2)) eqn:E.
  - apply Qeq_alt in E. destruct (Z.even (Qfloor q)); [left | right]; split; auto; lra.
  - apply Qlt_alt in E. left. split; auto. lra.
  - apply Qgt_alt in E. right. split; auto. lra.
Qed.

Lemma round_even_mono (x y : Q) : x <= y -> (Js.round_even x <= Js.round_even y)%Z.
Proof.
  intros H. pose proof (Qfloor_resp_le x y H) as Hf.
  pose proof (Qfloor_le x) as Fx. pose proof (Qlt_floor x) as Gx.
  pose proof (Qfloor_le y) as Fy. pose proof (Qlt_floor y) as Gy.
  destruct (Z.eq_dec (Qfloor x) (Qfloor y)) as [E|Hne].
  - unfold Js.round_even. rewrite <- E.
    destruct (Qcompare (x - inject_Z (Qfloor x)) (1 # 2)) eqn:Cx;
      destruct (Qcompare (y - inject_Z (Qfloor x)) (1 # 2)) eqn:Cy;
      try (destruct (Z.even (Qfloor x))); try lia; exfalso;
      repeat match goal with
             | C : Qcompare _ _ = Eq |- _ => apply Qeq_alt in C
             | C : Qcompare _ _ = Lt |- _ => apply Qlt_alt in C
             | C : Qcompare _ _ = Gt |- _ => apply Qgt_alt in C
             end; lra.
  - destruct (round_even_cases x) as [[-> _]|[-> _]];
      destruct (round_even_cases y) as [[-> _]|[-> _]]; lia.
Qed.

Lemma round_even_Z (z : Z) : Js.round_even (inject_Z z) = z.
Proof.
  unfold Js.round_even. rewrite Qfloor_Z.
  assert (E : Qcompare (inject_Z z - inject_Z z) (1 # 2) = Lt)
    by (apply Qlt_alt; unfold Qminus; rewrite Qplus_opp_r; reflexivity).
  now rewrite E.
Qed.

Lemma nearest_nonneg (q : Q) : 0 <= Js.nearest q.
Proof.
  unfold Js.nearest. destruct (Qle_bool q 0) eqn:E; [lra|].
  assert (Hq : 0 < q).
  { apply Qnot_le_lt. intros H. apply Qle_bool_iff in H. congruence. }
  apply Qmult_le_0_compat; [|apply Qlt_le_weak, pow2_pos].
  rewrite <- (Zle_Qle 0). rewrite <- (round_even_Z 0). apply round_even_mono.
  apply Qle_shift_div_l; [apply pow2_pos|].
  change (inject_Z 0) with 0. rewrite Qmult_0_l. lra.
Qed.

Lemma nearest_mono (x y : Q) : x <= y -> Js.nearest x <= Js.nearest y.
Proof.
  intros H. unfold Js.nearest at 1. destruct (Qle_bool x 0) eqn:Ex; [apply nearest_nonneg|].
  assert (Hx : 0 < x).
  { apply Qnot_le_lt. intros H0. apply Qle_bool_iff in H0. congruence. }
  unfold Js.nearest. destruct (Qle_bool y 0) eqn:Ey; [apply Qle_bool_iff in Ey; lra|].
  pose proof (ilog2_mono x y Hx H) as Hl.
  destruct (ilog2_spec x Hx) as [Hx1 Hx2].
  destruct (ilog2_spec y) as [Hy1 Hy2]; [lra|].
  set (ex := Js.ilog2 x) in *. set (ey := Js.ilog2 y) in *.
  pose proof (pow2_pos (ex - 52)) as Px. pose proof (pow2_pos (ey - 52)) as Py.
  destruct (Z.eq_dec ex ey) as [E|Hne].
  - rewrite <- E. apply Qmult_le_compat_r; [|lra].
    rewrite <- Zle_Qle. apply round_even_mono.
    apply Qmult_le_compat_r; [exact H|]. apply Qlt_le_weak, Qinv_lt_0_compat, Px.
  - assert (Hlt : (ex + 1 <= ey)%Z) by lia.
    apply (Qle_trans _ (2 ^ (ex + 1))); [|apply (Qle_trans _ (2 ^ ey))].
    + assert (Hr : (Js.round_even (x / 2 ^ (ex - 52)) <= 2 ^ 53)%Z).
      { rewrite <- (round_even_Z (2 ^ 53)). apply round_even_mono.
        apply Qle_shift_div_r; [exact Px|].
        rewrite (pow2_Z 53) by lia. rewrite <- pow2_plus.
        replace (53 + (ex - 52))%Z with (ex + 1)%Z by lia. lra. }
      rewrite Zle_Qle, (pow2_Z 53) in Hr by lia.
      replace (ex + 1)%Z with (53 + (ex - 52))%Z by lia. rewrite pow2_plus.
      apply Qmult_le_compat_r; [exact Hr | lra].
    + apply pow2_le. exact Hlt.
    + assert (Hr : (2 ^ 52 <= Js.round_even (y / 2 ^ (ey - 52)))%Z).
      { rewrite <- (round_even_Z (2 ^ 52)). apply round_even_mono.
        apply Qle_shift_div_l; [exact Py|].
        rewrite (pow2_Z 52) by lia. rewrite <- pow2_plus.
        replace (52 + (ey - 52))%Z with ey by lia. exact Hy1. }
      rewrite Zle_Qle, (pow2_Z 52) in Hr by lia.
      replace ey with (52 + (ey - 52))%Z at 1 by lia. rewrite pow2_plus.
      apply Qmult_le_compat_r; [exact Hr | lra].
Qed.

(** Rounding to the nearest double keeps the order. *)
Lemma double_mono (x y : Q) : x <= y -> Js.double x <= Js.double y.
Proof.
  intros H. unfold Js.double.
  destruct (Qle_bool 0 x) eqn:Ex; destruct (Qle_bool 0 y) eqn:Ey.
  - apply nearest_mono, H.
  - apply Qle_bool_iff in Ex.
    assert (Hy : ~ 0 <= y) by (intros H0; apply Qle_bool_iff in H0; congruence).
    lra.
  - pose proof (nearest_nonneg (- x)). pose proof (nearest_nonneg y). lra.
  - assert (H0 : Js.nearest (- y) <= Js.nearest (- x)) by (apply nearest_mono; lra).
    lra.
Qed.

Lemma double_comp (x y : Q) : x == y -> Js.double x == Js.double y.
Proof. intros E. apply Qle_antisym; apply double_mono; lra. Qed.

(** Rounding is odd: the double nearest to [- q] is the opposite of the one
    nearest to [q]. *)
Lemma double_opp (q : Q) : Js.double (- q) == - Js.double q.
Proof.
  assert (N0 : forall x, x <= 0 -> Js.nearest x = 0).
  { intros x Hx. unfold Js.nearest. apply Qle_bool_iff in Hx. now rewrite Hx. }
  assert (NC : forall x y, x == y -> Js.nearest x == Js.nearest y)
    by (intros x y E; apply Qle_antisym; apply nearest_mono; lra).
  unfold Js.double.
  destruct (Qle_bool 0 q) eqn:E1; destruct (Qle_bool 0 (- q)) eqn:E2.
  - apply Qle_bool_iff in E1, E2.
    rewrite (N0 (- q)) by lra. rewrite (N0 q) by lra. reflexivity.
  - rewrite (NC (- - q) q) by lra. reflexivity.
  - lra.
  - assert (~ 0 <= q) by (intros H0; apply Qle_bool_iff in H0; congruence).
    assert (~ 0 <= - q) by (intros H0; apply Qle_bool_iff in H0; congruence).
    lra.
Qed.

Lemma double_1 : Js.double 1 == 1.
Proof. apply Qeq_bool_eq. vm_compute. reflexivity. Qed.
Lemma double_100 : Js.double 100 == 100.
Proof. apply Qeq_bool_eq. vm_compute. reflexivity. Qed.

(** The percentage as the model computes it is the percentage in the
    Standard Library's binary64, for every job of up to 64 files. *)
Lemma percent_is_binary64 (n total : nat) :
  (0 < total <= 64)%nat -> (n <= total)%nat ->
  percent n total = percent_binary64 n total.
Proof.
  intros Ht Hn.
  assert (H : forallb (fun t => forallb (fun k => Z.eqb (percent k t) (percent_binary64 k t))
                                  (seq 0 (S t)))
                (seq 1 64) = true) by (vm_compute; reflexivity).
  rewrite forallb_forall in H. specialize (H total).
  rewrite forallb_forall in H. apply Z.eqb_eq. apply H; apply in_seq; lia.
Qed.

(** The arithmetic on the dials is the Standard Library's binary64 too:
    the slope of the contrast stage and the multiplier of a positive
    vignette, for every whole dial value from -100 to 100. *)
Lemma dial_arithmetic_is_binary64 (c : Z) :
  (-100 <= c <= 100)%Z ->
  Js.add 1 (Js.div (inject_Z c) 100)
  == Js.binary64_value
       (SFadd 53 1024 (Js.binary64_of_Z 1)
          (SFdiv 53 1024 (Js.binary64_of_Z c) (Js.binary64_of_Z 100)))
  /\ Js.sub 1 (Js.mul (Js.div (Qabs (inject_Z c)) 100) (Js.dec (4 # 10)))
     == Js.binary64_value
          (SFsub 53 1024 (Js.binary64_of_Z 1)
             (SFmul 53 1024
                (SFdiv 53 1024 (SFabs (Js.binary64_of_Z c)) (Js.binary64_of_Z 100))
                (Js.binary64_literal 4 10))).
Proof.
  intros Hc.
  assert (H : forallb
                (fun n =>
                   let c := (Z.of_nat n - 100)%Z in
                   Qeq_bool (Js.add 1 (Js.div (inject_Z c) 100))
                     (Js.binary64_value
                        (SFadd 53 1024 (Js.binary64_of_Z 1)
                           (SFdiv 53 1024 (Js.binary64_of_Z c) (Js.binary64_of_Z 100))))
                   && Qeq_bool
                        (Js.sub 1 (Js.mul (Js.div (Qabs (inject_Z c)) 100) (Js.dec (4 # 10))))
                        (Js.binary64_value
                           (SFsub 53 1024 (Js.binary64_of_Z 1)
                              (SFmul 53 1024
                                 (SFdiv 53 1024 (SFabs (Js.binary64_of_Z c))
                                    (Js.binary64_of_Z 100))
                                 (Js.binary64_literal 4 10)))))
                (seq 0 201) = true) by (vm_compute; reflexivity).
  rewrite forallb_forall in H. specialize (H (Z.to_nat (c + 100))).
  cbv zeta in H. replace (Z.of_nat (Z.to_nat (c + 100)) - 100)%Z with c in H by lia.
  apply andb_true_iff in H; [|apply in_seq; lia].
  destruct H as [H1 H2]. split; apply Qeq_bool_eq; assumption.
Qed.

(** In binary64 a job of 40 files shows 57 after its 23rd file, where the
    exact quotient 57.5 would round to 58. *)
Lemma percent_23_of_40 : percent 23 40 = 57%Z.
Proof. vm_compute. reflexivity. Qed.

Lemma ratio_mono (n m t : nat) :
  (n <= m)%nat ->
  inject_Z (Z.of_nat n) / inject_Z (Z.of_nat t)
  <= inject_Z (Z.of_nat m) / inject_Z (Z.of_nat t).
Proof.
  intros H. unfold Qdiv. apply Qmult_le_compat_r.
  - rewrite <- Zle_Qle. lia.
  - apply Qinv_le_0_compat. rewrite <- (Zle_Qle 0). lia.
Qed.

Lemma progress_at_mono (n m t : nat) :
  (n <= m)%nat -> (progress_at n t <= progress_at m t)%Z.
Proof.
  intros H. unfold progress_at, percent, js_round, Js.mul, Js.div.
  apply Qfloor_resp_le, Qplus_le_l, double_mono.
  apply Qmult_le_compat_r; [|discriminate].
  apply double_mono, ratio_mono, H.
Qed.

Lemma progress_at_0 (t : nat) : progress_at 0 t = 0%Z.
Proof.
  unfold progress_at, percent, Js.mul, Js.div. cbn [Z.of_nat].
  assert (E : Js.double (inject_Z 0 / inject_Z (Z.of_nat t)) = 0).
  { unfold Js.double, Js.nearest.
    assert (H : Qle_bool (inject_Z 0 / inject_Z (Z.of_nat t)) 0 = true).
    { apply Qle_bool_iff. unfold Qdiv. rewrite Qmult_0_l. apply Qle_refl. }
    assert (H' : Qle_bool 0 (inject_Z 0 / inject_Z (Z.of_nat t)) = true).
    { apply Qle_bool_iff. unfold Qdiv. rewrite Qmult_0_l. apply Qle_refl. }
    now rewrite H', H. }
  rewrite E. reflexivity.
Qed.

Lemma progress_at_full (t : nat) : (0 < t)%nat -> progress_at t t = 100%Z.
Proof.
  intros H. unfold progress_at, percent, js_round, Js.mul, Js.div.
  assert (E1 : inject_Z (Z.of_nat t) / inject_Z (Z.of_nat t) == 1).
  { unfold Qdiv. apply Qmult_inv_r. intros E.
    assert (Z.of_nat t = 0)%Z
      by (apply inject_Z_injective; rewrite E; reflexivity).
    lia. }
  assert (E2 : Js.double (inject_Z (Z.of_nat t) / inject_Z (Z.of_nat t)) == 1)
    by (rewrite (double_comp _ _ E1); apply double_1).
  assert (E3 : Js.double (Js.double (inject_Z (Z.of_nat t) / inject_Z (Z.of_nat t)) * 100)
               == 100).
  { rewrite <- double_100 at 2. apply double_comp. rewrite E2. reflexivity. }
  rewrite (Qfloor_comp _ (100 + (1 # 2))); [reflexivity|].
  rewrite E3. reflexivity.
Qed.

Lemma progress_at_bounds (n t : nat) :
  (n <= t)%nat -> (0 <= progress_at n t <= 100)%Z.
Proof.
  intros H. split.
  - rewrite <- (progress_at_0 t). apply progress_at_mono. lia.
  - destruct t as [|t].
    + assert (n = 0)%nat by lia. subst. rewrite progress_at_0. lia.
    + rewrite <- (progress_at_full (S t)) by lia. apply progress_at_mono, H.
Qed.

Lemma progress_inv_bounds (j : BatchJob) :
  job_inv j -> progress_inv j -> (0 <= progress j <= 100)%Z.
Proof.
  intros [Ht Hs] Hp. unfold progress_inv in Hp. destruct (status j).
  - lia.
  - rewrite Hp. apply progress_at_bounds. lia.
  - lia.
  - destruct Hp as [->|[-> _]]; lia.
Qed.

(** Each move of a job keeps the progress rule and does not lower the
    progress. *)
Lemma job_step_progress (j j' : BatchJob) :
  job_inv j -> progress_inv j -> job_step j j' ->
  progress_inv j' /\ (progress j <= progress j')%Z.
Proof.
  intros Hinv Hp Hstep. pose proof (progress_inv_bounds j Hinv Hp) as Hb.
  destruct Hinv as [Ht Hs]. unfold progress_inv in *.
  destruct Hstep as [ | w Hst | w Hst | m Hst]; rewrite ?Hst in *.
  - split; [exact Hp | lia].
  - unfold processJob_begin, processJob_continue, processJob_finish.
    cbn [assign next inputFiles errors].
    destruct (0 <? List.length (inputFiles j))%nat;
      cbn [assign status progress next totalFiles]; rewrite ?progress_at_0;
      split; lia.
  - destruct Hs as [Hsum Hlt].
    unfold processJob_resume, processJob_turn.
    destruct (nth_error (inputFiles j) (next j)) as [f|] eqn:Hnth;
      [|apply nth_error_None in Hnth; lia].
    assert (Hm : (progress j <= progress_at (next j + 1) (totalFiles j))%Z)
      by (rewrite Hp; apply progress_at_mono; lia).
    unfold processJob_continue, processJob_finish.
    destruct (fst (processFile w j f (next j))); cbn [assign next inputFiles errors];
      destruct (_ <? _)%nat;
      cbn [assign status progress next totalFiles processedFiles];
      rewrite ?Hst; unfold progress_after;
      fold (progress_at (next j + 1) (totalFiles j)).
    + rewrite Nat.add_1_r in *. split; [reflexivity | exact Hm].
    + destruct (errors j); split; auto; lia.
    + rewrite Nat.add_1_r in *. split; [reflexivity | exact Hm].
    + destruct (errors j ++ _)%list; split; auto; lia.
  - cbn [set_status_errors assign status progress processedFiles].
    destruct Hs as [Hd _]. split; [right; split; assumption | lia].
Qed.

Lemma reachable_progress_inv (es : list Event) (k : string) (j : BatchJob) :
  getJob (run es initial) k = Some j -> progress_inv j.
Proof.
  apply (reachable_jobs progress_inv).
  - intros. reflexivity.
  - intros j0 j' Hinv Hp Hstep. apply (job_step_progress j0 j' Hinv Hp Hstep).
Qed.

(** X9.  The progress of a job is a percentage: always between 0 and 100,
    0 while the job is pending, the rounded share of its files attempted so
    far while it is processing (the share computed in binary64, as the
    source computes it), 100 once it is completed; a failed job shows 100
    if it ran its files and 0 if it never ran. *)
Theorem progress_is_a_percentage :
  forall (es : list Event) (jobId : string) (j : BatchJob),
    getJob (run es initial) jobId = Some j ->
    (0 <= progress j <= 100)%Z /\
    (status j = Pending -> progress j = 0%Z) /\
    (status j = Processing ->
     progress j
     = progress_at (processedFiles j + List.length (errors j)) (totalFiles j)) /\
    (status j = Completed -> progress j = 100%Z) /\
    (status j = Failed ->
     progress j = 100%Z \/ (progress j = 0%Z /\ processedFiles j = 0%nat)).
Proof.
  intros es jobId j Hj.
  pose proof (reachable_job_inv es jobId j Hj) as Hinv.
  pose proof (reachable_progress_inv es jobId j Hj) as Hp.
  split; [apply progress_inv_bounds; assumption|].
  destruct Hinv as [_ Hs]. unfold progress_inv in Hp.
  repeat split; intros Hst; rewrite Hst in *; auto.
  destruct Hs as [-> _]. exact Hp.
Qed.

Lemma progress_is_a_percentage_witness :
  exists j,
    getJob (run Runs.three_files_admitted initial) "batch-1000-c" = Some j /\
    status j = Processing /\
    (0 <= progress j <= 100)%Z /\
    progress j
    = progress_at (processedFiles j + List.length (errors j)) (totalFiles j).
Proof.
  eexists. split; [vm_compute; reflexivity|]. split; [reflexivity|].
  pose proof (progress_is_a_percentage Runs.three_files_admitted "batch-1000-c" _
                eq_refl) as (Hb & _ & Hp & _).
  split; [exact Hb | exact (Hp eq_refl)].
Defined.

(** X10.  The progress of a job never goes down: whatever the scheduler
    does next, the job shows at least the progress it showed. *)
Theorem progress_never_decreases :
  forall (es : list Event) (e : Event) (jobId : string) (j j' : BatchJob),
    getJob (run es initial) jobId = Some j ->
    creates e jobId = false ->
    getJob (step (run es initial) e) jobId = Some j' ->
    (progress j <= progress j')%Z.
Proof.
  intros es e jobId j j' Hj He Hj'.
  pose proof (step_job _ e jobId j (reachable_keys es) Hj He) as H.
  rewrite Hj' in H.
  apply (job_step_progress j j' (reachable_job_inv es jobId j Hj)
           (reachable_progress_inv es jobId j Hj) H).
Qed.

Lemma progress_never_decreases_witness :
  exists j j',
    getJob (run Runs.three_files_admitted initial) "batch-1000-c" = Some j /\
    getJob (step (run Runs.three_files_admitted initial)
              (FileSettled Examples.world "batch-1000-c")) "batch-1000-c" = Some j' /\
    progress j = 0%Z /\ progress j' = 33%Z /\
    (progress j <= progress j')%Z.
Proof.
  eexists. eexists.
  split; [vm_compute; reflexivity|]. split; [vm_compute; reflexivity|].
  split; [reflexivity|]. split; [reflexivity|].
  apply (progress_never_decreases Runs.three_files_admitted
           (FileSettled Examples.world "batch-1000-c") "batch-1000-c" _ _
           eq_refl eq_refl eq_refl).
Defined.

End Progress.

(** ** Running to the end *)

Section Termination.
Import BatchProcessor Spec SchedulerSpec BatchReports.

Lemma settle_idle (ws : list World) (s : State) (k : string) (j : BatchJob) :
  getJob s k = Some j -> status j <> Processing ->
  run (settle_all k ws) s = s.
Proof.
  intros Hj Hst. induction ws as [|w r IH]; cbn; [reflexivity|].
  rewrite Hj. unfold is_processing.
  destruct (status_eqb (status j) Processing) eqn:E;
    [apply status_eqb_eq in E; contradiction | exact IH].
Qed.

Lemma resume_next (w : World) (j : BatchJob) :
  (next j < List.length (inputFiles j))%nat ->
  status (processJob_resume w j) = Processing ->
  next (processJob_resume w j) = S (next j) /\
  inputFiles (processJob_resume w j) = inputFiles j.
Proof.
  intros Hlt. unfold processJob_resume, processJob_turn.
  destruct (nth_error (inputFiles j) (next j)) as [f|] eqn:Hnth;
    [|apply nth_error_None in Hnth; lia].
  unfold processJob_continue, processJob_finish.
  destruct (fst (processFile w j f (next j))); cbn [assign next inputFiles];
    destruct (_ <? _)%nat; cbn [assign status next inputFiles errors]; auto;
    destruct (_ : list string); discriminate.
Qed.

Lemma settle_all_terminates (ws : list World) :
  forall (s : State) (k : string) (j : BatchJob),
    getJob s k = Some j -> job_inv j -> status j = Processing ->
    (List.length (inputFiles j) - next j <= List.length ws)%nat ->
    exists j',
      getJob (run (settle_all k ws) s) k = Some j' /\
      terminal (status j') = true /\
      (processedFiles j' + List.length (errors j'))%nat = totalFiles j'.
Proof.
  induction ws as [|w r IH]; intros s k j Hj Hinv Hst Hlen.
  - destruct Hinv as [_ Hs]. rewrite Hst in Hs. cbn in Hlen. lia.
  - cbn [settle_all map run fold_left step]. rewrite Hj.
    unfold is_processing. rewrite Hst. cbn [status_eqb].
    set (j1 := processJob_resume w j).
    set (s1 := with_jobs s (map_set (activeJobs s) k j1)).
    assert (Hj1 : getJob s1 k = Some j1) by apply map_get_set_same.
    fold (settle_all k r). fold (run (settle_all k r) s1).
    pose proof (resume_accounting w j Hinv Hst) as Hacc. cbv zeta in Hacc.
    fold j1 in Hacc. destruct Hacc as [Hp|[Ht Hsum]].
    + assert (Hlt : (next j < List.length (inputFiles j))%nat)
        by (destruct Hinv as [_ Hs]; rewrite Hst in Hs; lia).
      destruct (resume_next w j Hlt Hp) as [Hn Hf]. fold j1 in Hn, Hf.
      apply (IH s1 k j1 Hj1 (job_inv_resume w j Hinv Hst) Hp).
      rewrite Hn, Hf. cbn in Hlen. lia.
    + exists j1.
      rewrite (settle_idle r s1 k j1 Hj1)
        by (intros E; rewrite E in Ht; discriminate).
      auto.
Qed.

(** X11.  A job that is processing runs to its end: once the awaits on its
    remaining files have settled, whatever they did, the job is
    ['completed'] or ['failed'] with every file accounted for. *)
Theorem processing_job_runs_to_its_end :
  forall (es : list Event) (jobId : string) (j : BatchJob) (ws : list World),
    getJob (run es initial) jobId = Some j ->
    status j = Processing ->
    (totalFiles j - (processedFiles j + List.length (errors j)) <= List.length ws)%nat ->
    exists j',
      getJob (run (settle_all jobId ws) (run es initial)) jobId = Some j' /\
      terminal (status j') = true /\
      (processedFiles j' + List.length (errors j'))%nat = totalFiles j'.
Proof.
  intros es jobId j ws Hj Hst Hlen.
  pose proof (reachable_job_inv es jobId j Hj) as Hinv.
  apply (settle_all_terminates ws _ jobId j Hj Hinv Hst).
  destruct Hinv as [Ht Hs]. rewrite Hst in Hs. lia.
Qed.

Lemma processing_job_runs_to_its_end_witness :
  exists j',
    getJob (run (settle_all "batch-1000-c"
                   [Examples.world; Examples.world; Examples.world])
              (run Runs.three_files_admitted initial)) "batch-1000-c" = Some j' /\
    terminal (status j') = true /\
    (processedFiles j' + List.length (errors j'))%nat = totalFiles j'.
Proof.
  apply (processing_job_runs_to_its_end Runs.three_files_admitted "batch-1000-c" _
           [Examples.world; Examples.world; Examples.world] eq_refl eq_refl).
  vm_compute. repeat constructor.
Defined.

(** X12.  What [getQueueStatus] can report: the admission flag is never
    seen set, the queue length is that of the queue, and the active jobs
    reported are the jobs in status ['processing'].  With the cap left
    alone after [setMaxConcurrentJobs(max)], [maxConcurrent] is
    [Math.max(1, Math.min(max, 10))]: [NaN] for [NaN], a number between 1
    and 10 otherwise; the active jobs are none, or the last was admitted
    below [maxConcurrent], and for an integer [max] they are no more than
    [maxConcurrent]. *)
Theorem getQueueStatus_spec :
  forall (max : Js.number) (es : list Event),
    forallb (fun e => negb (changes_cap e)) es = true ->
    let s := run es (setMaxConcurrentJobs max initial) in
    let report := getQueueStatus s in
    queue_isProcessing report = false /\
    queueLength report = List.length (jobQueue s) /\
    queue_activeJobs report = count_processing (activeJobs s) /\
    maxConcurrent report = clamp max /\
    (max = Js.NaN -> maxConcurrent report = Js.NaN) /\
    (max <> Js.NaN -> exists q, maxConcurrent report = Js.Num q /\ 1 <= q <= 10) /\
    within_cap (queue_activeJobs report) (maxConcurrent report) /\
    (forall z, max = Js.Num (inject_Z z) ->
               maxConcurrent report = Js.Num (inject_Z (clamp_int z)) /\
               (Z.of_nat (queue_activeJobs report) <= clamp_int z <= 10)%Z).
Proof.
  intros max es Hes s report. subst report. unfold getQueueStatus.
  cbn [queue_isProcessing queueLength queue_activeJobs maxConcurrent].
  assert (Hinv : state_inv s).
  { apply run_inv. split; [constructor | reflexivity]. }
  assert (Hcap : capped (clamp max) s).
  { apply run_capped; [exact Hes|]. split; [|reflexivity]. now left. }
  assert (Hlen : List.length (getJobsByStatus s Processing)
                 = count_processing (activeJobs s)).
  { unfold getJobsByStatus, count_processing.
    apply Permutation_length, sort_newest_first_perm. }
  destruct Hinv as [_ Hp]. destruct Hcap as [Hc Hk]. unfold cap_inv in Hc.
  destruct (clamp_range max) as [Hnan Hnum].
  rewrite Hlen, Hk in *.
  split; [exact Hp|]. split; [reflexivity|]. split; [reflexivity|].
  split; [reflexivity|]. split; [exact Hnan|]. split; [exact Hnum|].
  split; [exact Hc|].
  intros z ->. rewrite clamp_integer in *. split; [reflexivity|]. split.
  - apply within_cap_integer; [unfold clamp_int; lia | exact Hc].
  - unfold clamp_int. lia.
Qed.

Lemma getQueueStatus_spec_witness :
  let report := getQueueStatus
                  (run Examples.queue_behind_one
                     (setMaxConcurrentJobs (Js.Num 1) initial)) in
  queue_isProcessing report = false /\
  queueLength report = 2%nat /\
  queue_activeJobs report = 1%nat /\
  maxConcurrent report = Js.Num 1 /\
  (Z.of_nat (queue_activeJobs report) <= 1)%Z.
Proof.
  cbv zeta.
  pose proof (getQueueStatus_spec (Js.Num 1) Examples.queue_behind_one eq_refl) as H.
  cbv zeta in H. destruct H as (H1 & _ & _ & _ & _ & _ & _ & H8).
  destruct (H8 1%Z eq_refl) as (Hm & Hc & _).
  split; [exact H1|]. split; [reflexivity|]. split; [reflexivity|].
  split; [exact Hm | exact Hc].
Defined.

End Termination.

(** ** The structure of the pipeline *)

Section PipelineStructure.
Import PhotoProcessor PipelineSpec.

Variable w : World.

Lemma extends_refl (img : Image) : extends w 0 img img.
Proof. exists []. cbn. repeat split; auto. Qed.

Lemma extends_le (n m : nat) (img y : Image) :
  (n <= m)%nat -> extends w n img y -> extends w m img y.
Proof. intros H (ops & E & Hl & Ha & Hv). exists ops. repeat split; auto. lia. Qed.

Lemma extends_apply (n : nat) (img y : Image) (op : Op) :
  extends w n img y -> is_adjustment op = true -> validate w op = None ->
  extends w (S n) img (Apply op y).
Proof.
  intros (ops & -> & Hl & Ha & Hv) Hop Hok. exists (op :: ops). cbn.
  rewrite Hop, Ha. repeat split; auto. lia.
Qed.

Lemma outcome_ok (n m : nat) (img y : Image) :
  (n <= m)%nat -> extends w n img y -> outcome w m img (Ok y).
Proof. intros H He. exact (extends_le n m img y H He). Qed.

Lemma outcome_call (n : nat) (img y : Image) (op : Op) :
  extends w n img y -> is_adjustment op = true ->
  outcome w (S n) img (call w op y).
Proof.
  intros He Hop. unfold call. destruct (validate w op) as [e|] eqn:Hv; cbn.
  - exists op. auto.
  - now apply extends_apply.
Qed.

Lemma outcome_when (n : nat) (img y : Image) (c : bool) (op : Op) :
  extends w n img y -> is_adjustment op = true ->
  outcome w (S n) img (when c w op y).
Proof.
  intros He Hop. unfold when. destruct c; [now apply outcome_call|].
  apply (outcome_ok n); [lia | exact He].
Qed.

Lemma outcome_bind (n N : nat) (img : Image) (X : Exn Image) (F : Image -> Exn Image) :
  outcome w n img X ->
  (forall y, extends w n img y -> outcome w N img (F y)) ->
  outcome w N img (bind X F).
Proof. intros HX HF. destruct X as [y|e]; cbn [bind]; [apply HF, HX | exact HX]. Qed.

Lemma bind_ok {A B} (x : A) (f : A -> Exn B) : bind (Ok x) f = f x.
Proof. reflexivity. Qed.

Lemma outcome_let (n N : nat) (img X : Image) (F : Image -> Exn Image) :
  extends w n img X ->
  (forall y, extends w n img y -> outcome w N img (F y)) ->
  outcome w N img (let image := X in F image).
Proof. intros HX HF. cbv zeta. apply HF, HX. Qed.

(** A call whose throw the helper catches: recorded, or not made. *)
Lemma extends_caught (n : nat) (img y : Image) (op : Op) :
  extends w n img y -> is_adjustment op = true ->
  extends w (S n) img (or_else (call w op y) y).
Proof.
  intros He Hop. unfold call. destruct (validate w op) eqn:Hv; cbn [or_else].
  - apply (extends_le n); [lia | exact He].
  - now apply extends_apply.
Qed.

Lemma outcome_modulate_color (n : nat) (img y : Image) (c : ColorAdj) :
  extends w n img y -> outcome w (S n) img (modulate_color w y c).
Proof.
  intros H. unfold modulate_color.
  destruct (_ || _); [now apply outcome_call|].
  apply (outcome_ok n); [lia | exact H].
Qed.

Lemma extends_colorGrading (n : nat) (img y : Image) (cg : ColorGrading) :
  extends w n img y -> extends w (S n) img (applyColorGrading w y cg).
Proof.
  intros H. unfold applyColorGrading.
  pose proof (outcome_modulate_color n img y (cg_shadows cg) H) as Ho.
  destruct (modulate_color w y (cg_shadows cg)); cbn [or_else];
    [exact Ho | apply (extends_le n); [lia | exact H]].
Qed.

Lemma extends_toneCurve (n : nat) (img y : Image) (tc : ToneCurve) :
  extends w n img y -> extends w (S (S n)) img (applyToneCurve w y tc).
Proof.
  intros H. unfold applyToneCurve.
  assert (H1 : outcome w (S n) img
                 (if nonzero (tc_highlights tc)
                  then call w (OpLinear (Js.add 1 (Js.div (tc_highlights tc) 200)) 0) y
                  else Ok y)).
  { destruct (nonzero (tc_highlights tc)); [now apply outcome_call|].
    apply (outcome_ok n); [lia | exact H]. }
  destruct (if nonzero (tc_highlights tc) then _ else _) as [y1|e].
  - destruct (nonzero (tc_shadows tc)); [now apply extends_caught|].
    apply (extends_le (S n)); [lia | exact H1].
  - apply (extends_le n); [lia | exact H].
Qed.

Lemma extends_hsl (img : Image) (hsl : Color -> option ColorAdj) :
  forall (cs : list Color) (n : nat) (y : Image),
    extends w n img y ->
    extends w (n + List.length cs) img (hsl_loop w hsl cs y).
Proof.
  induction cs as [|c cs IH]; intros n y H; cbn [hsl_loop List.length].
  - now rewrite Nat.add_0_r.
  - rewrite Nat.add_succ_r.
    destruct (hsl c) as [ca|].
    + pose proof (outcome_modulate_color n img y ca H) as Ho.
      destruct (modulate_color w y ca) as [y1|e].
      * apply (IH (S n)), Ho.
      * apply (extends_le n); [lia | exact H].
    + apply (extends_le (n + List.length cs)); [lia | apply IH, H].
Qed.

Lemma extends_vignette (n : nat) (img y : Image) (v : Q) :
  extends w n img y -> extends w (S n) img (applyVignette w y v).
Proof.
  intros H. unfold applyVignette.
  destruct (metadata w y) as [[mw mh]|]; [|apply (extends_le n); [lia | exact H]].
  destruct (negb (truthy_dim mw) || negb (truthy_dim mh));
    [apply (extends_le n); [lia | exact H]|].
  now apply extends_caught.
Qed.

Lemma extends_dehaze (n : nat) (img y : Image) (d : Q) :
  extends w n img y -> extends w (S (S n)) img (applyDehaze w y d).
Proof.
  intros H. unfold applyDehaze. cbv zeta.
  set (m := if Qlt_le_dec 0 d then _ else _).
  set (l := if Qlt_le_dec 0 d then OpLinear _ _ else _).
  assert (Hm : is_adjustment m = true) by (subst m; destruct (Qlt_le_dec 0 d); reflexivity).
  assert (Hl : is_adjustment l = true) by (subst l; destruct (Qlt_le_dec 0 d); reflexivity).
  pose proof (outcome_call n img y m H Hm) as Ho.
  destruct (call w m y) as [y1|e].
  - now apply extends_caught.
  - apply (extends_le n); [lia | exact H].
Qed.

Lemma extends_opt {A} (n k : nat) (img y : Image) (o : option A)
    (f : Image -> A -> Image) :
  extends w n img y ->
  (forall x, extends w (n + k) img (f y x)) ->
  extends w (n + k) img (opt_stage o f y).
Proof.
  intros H Hf. destruct o; cbn; [apply Hf|].
  apply (extends_le n); [lia | exact H].
Qed.

Ltac next_stage n :=
  lazymatch goal with
  | |- outcome ?W ?N ?i (let x := ?X in @?F x) =>
      refine (outcome_let n N i X F _ _)
  | |- outcome ?W ?N ?i (bind ?X ?F) =>
      refine (outcome_bind n N i X F _ _)
  end.

Ltac keep H := eapply extends_le; [|exact H]; lia.
Ltac keep_ok H := eapply outcome_ok; [|exact H]; lia.

(** The stages after the exposure: at most 24 adjustments on top of what
    the exposure stage gives, or the error of a refused one; a gamma that
    [sharp] refuses ends the pipeline. *)
Lemma stages_after_exposure (img : Image) (a : PhotoAdjustments) :
  match when (nonzero (exposure a)) w (OpGammaPow2 (exposure a)) img with
  | Ok y => outcome w 24 y (stages w img a)
  | Throw e => stages w img a = Throw e
  end.
Proof.
  cbv delta [stages]. cbv beta.
  destruct (when (nonzero (exposure a)) w (OpGammaPow2 (exposure a)) img) as [y0|e];
    [rewrite bind_ok; cbv beta | reflexivity].
  pose proof (extends_refl y0) as H.
  next_stage 1%nat; [apply outcome_when; auto | clear H; intros i2 H; cbv beta].
  next_stage 2%nat; [apply outcome_when; auto | clear H; intros i3 H; cbv beta].
  next_stage 3%nat; [apply outcome_when; auto | clear H; intros i4 H; cbv beta].
  next_stage 4%nat; [apply outcome_when; auto | clear H; intros i5 H; cbv beta].
  next_stage 5%nat; [apply outcome_when; auto | clear H; intros i6 H; cbv beta].
  next_stage 7%nat;
    [apply (extends_opt 5 2); [exact H | intros tc; now apply extends_toneCurve]
    | clear H; intros i7 H; cbv beta].
  next_stage 8%nat;
    [apply (extends_opt 7 1); [exact H | intros cg; rewrite Nat.add_1_r;
                                          now apply extends_colorGrading]
    | clear H; intros i8 H; cbv beta].
  next_stage 16%nat;
    [apply (extends_opt 8 8); [exact H | intros hsl; apply (extends_hsl _ hsl colors 8), H]
    | clear H; intros i9 H; cbv beta].
  next_stage 17%nat;
    [destruct (Qlt_le_dec 0 (sharpening a)); [now apply outcome_call | keep_ok H]
    | clear H; intros i10 H; cbv beta].
  next_stage 18%nat;
    [destruct (Qlt_le_dec 0 (noiseReduction a)); [|keep_ok H];
     cbv zeta; destruct (Qlt_le_dec _ _); now apply outcome_call
    | clear H; intros i11 H; cbv beta].
  next_stage 19%nat;
    [destruct (nonzero (clarity a)); [|keep_ok H];
     cbv zeta; destruct (Qlt_le_dec _ _); now apply outcome_call
    | clear H; intros i12 H; cbv beta].
  next_stage 20%nat;
    [destruct (vignette a) as [v|]; [|keep H];
     destruct (nonzero v); [now apply extends_vignette | keep H]
    | clear H; intros i13 H; cbv beta].
  next_stage 22%nat;
    [destruct (nonzero (dehaze a)); [now apply extends_dehaze | keep H]
    | clear H; intros i14 H; cbv beta].
  next_stage 23%nat;
    [apply (extends_opt 22 1); [exact H|]; intros lc; unfold applyLensCorrections;
     rewrite Nat.add_1_r;
     destruct (nonzero (vignetting lc)); [now apply extends_vignette | keep H]
    | clear H; intros i15 H; cbv beta].
  apply (outcome_ok 24); [lia|].
  apply (extends_opt 23 1); [exact H|]. intros st. unfold applySplitToning.
  rewrite Nat.add_1_r.
  destruct (_ || _); [now apply extends_caught | keep H].
Qed.

(** X14.  The pipeline only records adjustments: whatever the adjustment
    set and whatever [sharp] and the backend answer, [processPhoto] either
    hands to [toBuffer] the source handle with at most 25 calls recorded on
    it, each an adjustment that [sharp] accepted and none a resize or an
    encoder, or throws the error of an adjustment that [sharp] refused; it
    throws nothing else but what [toBuffer] throws. *)
Theorem stages_only_queue_adjustments :
  forall (image : Image) (filePath : string) (a : PhotoAdjustments),
    match stages w image a with
    | Ok image' =>
        exists ops,
          image' = fold_right Apply image ops /\
          (List.length ops <= 25)%nat /\
          forallb is_adjustment ops = true /\
          Forall (fun op => validate w op = None) ops
    | Throw e => exists op, is_adjustment op = true /\ validate w op = Some e
    end /\
    (forall e, processPhoto w filePath a = Throw e ->
       (exists op, is_adjustment op = true /\ validate w op = Some e) \/
       (exists image', stages w (FromFile filePath) a = Ok image' /\
                       toBuffer w image' = Some e)).
Proof.
  intros image filePath a.
  assert (Hall : forall img, outcome w 25 img (stages w img a)).
  { intros img. pose proof (stages_after_exposure img a) as H.
    unfold when, call in H.
    destruct (nonzero (exposure a)).
    - destruct (validate w (OpGammaPow2 (exposure a))) as [e|] eqn:Hv.
      + rewrite H. exists (OpGammaPow2 (exposure a)). auto.
      + destruct (stages w img a) as [y|e]; [|exact H].
        destruct H as (ops & E & Hl & Ha & Hok).
        exists (ops ++ [OpGammaPow2 (exposure a)])%list.
        rewrite E, fold_right_app, length_app, forallb_app, Ha. cbn.
        repeat split; try lia. apply Forall_app. auto.
    - destruct (stages w img a) as [y|e]; [|exact H].
      apply (extends_le 24); [lia | exact H]. }
  split; [exact (Hall image)|].
  intros e. unfold processPhoto. specialize (Hall (FromFile filePath)).
  destruct (stages w (FromFile filePath) a) as [y|e0]; cbn [bind].
  - destruct (toBuffer w y) as [e1|] eqn:Hb; [|discriminate].
    intros [= <-]. right. eauto.
  - intros [= <-]. left. exact Hall.
Qed.

(** X15.  A non-zero exposure is applied first, and has the first say:
    when [sharp] refuses its gamma the pipeline ends there and
    [processPhoto] throws that error; when [sharp] accepts it, the gamma is
    the call recorded directly on the source, under every call of the later
    stages. *)
Theorem exposure_is_applied_first :
  forall (image : Image) (filePath : string) (a : PhotoAdjustments),
    nonzero (exposure a) = true ->
    (forall e, validate w (OpGammaPow2 (exposure a)) = Some e ->
               stages w image a = Throw e /\
               processPhoto w filePath a = Throw e) /\
    (validate w (OpGammaPow2 (exposure a)) = None ->
     match stages w image a with
     | Ok image' =>
         exists ops,
           image' = fold_right Apply (Apply (OpGammaPow2 (exposure a)) image) ops /\
           (List.length ops <= 24)%nat /\
           forallb is_adjustment ops = true /\
           Forall (fun op => validate w op = None) ops
     | Throw e => exists op, is_adjustment op = true /\ validate w op = Some e
     end).
Proof.
  intros image filePath a He. split.
  - intros e Hv.
    assert (Hs : forall img, stages w img a = Throw e).
    { intros img. pose proof (stages_after_exposure img a) as H.
      unfold when, call in H. rewrite He, Hv in H. exact H. }
    split; [apply Hs|]. unfold processPhoto. now rewrite Hs.
  - intros Hv. pose proof (stages_after_exposure image a) as H.
    unfold when, call in H. rewrite He, Hv in H. exact H.
Qed.

End PipelineStructure.

Lemma exposure_is_applied_first_witness :
  (exists ops,
     PhotoProcessor.stages Examples.checking_world (FromFile "/in/a.jpg")
       Examples.brighter
     = Ok (fold_right Apply (Apply (OpGammaPow2 1) (FromFile "/in/a.jpg")) ops) /\
     (List.length ops <= 24)%nat) /\
  PhotoProcessor.processPhoto Examples.checking_world "/in/a.jpg" Examples.darker
  = Throw (Error "Expected number between 1.0 and 3.0 for gamma").
Proof.
  split.
  - pose proof (exposure_is_applied_first Examples.checking_world (FromFile "/in/a.jpg")
                  "/in/a.jpg" Examples.brighter eq_refl) as [_ H].
    specialize (H eq_refl).
    destruct (PhotoProcessor.stages Examples.checking_world (FromFile "/in/a.jpg")
                Examples.brighter)
      as [y|e] eqn:E; [|vm_compute in E; discriminate].
    destruct H as (ops & -> & Hl & _). exists ops. split; [reflexivity | exact Hl].
  - pose proof (exposure_is_applied_first Examples.checking_world (FromFile "/in/a.jpg")
                  "/in/a.jpg" Examples.darker eq_refl) as [H _].
    exact (proj2 (H _ eq_refl)).
Defined.

(** ** Exporting *)

Section Exporting.
Import PhotoProcessor PipelineSpec PhotoBatch.


Lemma batchProcess_from_spec (ws : nat -> World) (total : nat) (outputDir : string)
    (a : PhotoAdjustments) (o : ExportOptions) :
  forall (files : list string) (i : nat) (acc : list string) (calls : list (nat * nat)),
    batchProcess_from ws i total files outputDir a o acc calls
    = ((acc ++ exported ws i files outputDir a o)%list,
       (calls ++ map (fun k => (S k, total)) (seq i (List.length files)))%list).
Proof.
  induction files as [|f files IH]; intros i acc calls;
    cbn [batchProcess_from exported List.length seq map].
  - now rewrite !app_nil_r.
  - cbv zeta. rewrite IH, Nat.add_1_r.
    destruct (fst (exportPhoto (ws i) f (PhotoBatch.outputPath outputDir o f) o (Some a)));
      rewrite <- !app_assoc; reflexivity.
Qed.

Lemma exported_In (ws : nat -> World) (outputDir : string)
    (a : PhotoAdjustments) (o : ExportOptions) (p : string) :
  forall (files : list string) (i : nat),
    In p (exported ws i files outputDir a o) <->
    exists k f,
      nth_error files k = Some f /\ p = PhotoBatch.outputPath outputDir o f /\
      fst (exportPhoto (ws (i + k)%nat) f p o (Some a)) = true.
Proof.
  induction files as [|f files IH]; intros i; cbn [exported].
  - split; [intros [] | intros (k & f & H & _); destruct k; discriminate].
  - cbv zeta. split.
    + intros H.
      destruct (fst (exportPhoto (ws i) f (PhotoBatch.outputPath outputDir o f) o (Some a)))
        eqn:Hs.
      * destruct H as [<-|H].
        -- exists 0%nat, f. rewrite Nat.add_0_r. auto.
        -- apply IH in H as (k & f' & H1 & H2 & H3).
           exists (S k), f'. rewrite Nat.add_succ_r. auto.
      * apply IH in H as (k & f' & H1 & H2 & H3).
        exists (S k), f'. rewrite Nat.add_succ_r. auto.
    + intros (k & f' & H1 & H2 & H3). destruct k as [|k].
      * cbn in H1. injection H1 as <-. rewrite Nat.add_0_r in H3. subst p.
        rewrite H3. now left.
      * cbn in H1. rewrite Nat.add_succ_r in H3.
        assert (Hin : In p (exported ws (S i) files outputDir a o))
          by (apply IH; eauto).
        destruct (fst (exportPhoto (ws i) f _ o (Some a))); [now right | exact Hin].
Qed.

Lemma exported_length (ws : nat -> World) (outputDir : string)
    (a : PhotoAdjustments) (o : ExportOptions) :
  forall (files : list string) (i : nat),
    (List.length (exported ws i files outputDir a o) <= List.length files)%nat.
Proof.
  induction files as [|f files IH]; intros i; cbn [exported List.length]; [lia|].
  cbv zeta. specialize (IH (S i)).
  destruct (fst (exportPhoto (ws i) f _ o (Some a))); cbn [List.length]; lia.
Qed.

(** X17.  [batchProcess] tries every file, in order, whatever happens to
    the others: it reports progress once per file, as (1, n) up to (n, n),
    and returns, in input order, the output path of exactly those files
    whose export with the adjustments answered [true]. *)
Theorem batchProcess_spec :
  forall (ws : nat -> World) (files : list string) (outputDir : string)
         (a : PhotoAdjustments) (o : ExportOptions),
    let r := batchProcess ws files outputDir a o in
    fst r = exported ws 0 files outputDir a o /\
    snd r = map (fun k => (S k, List.length files)) (seq 0 (List.length files)) /\
    (List.length (fst r) <= List.length files)%nat /\
    (forall p, In p (fst r) <->
       exists k f,
         nth_error files k = Some f /\ p = PhotoBatch.outputPath outputDir o f /\
         fst (exportPhoto (ws k) f p o (Some a)) = true).
Proof.
  intros ws files outputDir a o r. subst r. unfold batchProcess.
  rewrite batchProcess_from_spec. cbn [fst snd app].
  split; [reflexivity|]. split; [reflexivity|].
  split; [apply exported_length|].
  intros p. apply (exported_In ws outputDir a o p files 0).
Qed.

End Exporting.

(** ** Names of the output files *)

Section OutputNames.
Import BatchProcessor PipelineSpec.

Lemma chars_append (a b : string) :
  list_ascii_of_string (a ++ b)
  = (list_ascii_of_string a ++ list_ascii_of_string b)%list.
Proof. induction a as [|c a IH]; cbn; [reflexivity | now rewrite IH]. Qed.

Lemma chars_inj (a b : string) :
  list_ascii_of_string a = list_ascii_of_string b -> a = b.
Proof.
  intros H. rewrite <- (string_of_list_ascii_of_string a),
    <- (string_of_list_ascii_of_string b). now rewrite H.
Qed.

(** Two lists that end with the same separator followed by
    separator-free tails are cut at the same place. *)
Lemma split_at_last {A} (c : A) :
  forall (l1 l2 d1 d2 : list A),
    ~ In c d1 -> ~ In c d2 ->
    (l1 ++ c :: d1 = l2 ++ c :: d2)%list -> l1 = l2 /\ d1 = d2.
Proof.
  induction l1 as [|x l1 IH]; intros [|y l2] d1 d2 H1 H2 E; cbn in E.
  - injection E as E. auto.
  - injection E as Ec Ed. exfalso. apply H1. rewrite Ed.
    apply in_or_app. right. now left.
  - injection E as Ec Ed. exfalso. apply H2. rewrite <- Ed.
    apply in_or_app. right. now left.
  - injection E as Ex E. destruct (IH l2 d1 d2 H1 H2 E) as [El Ed].
    subst. auto.
Qed.

Lemma uint_chars_no_underscore (d : Decimal.uint) :
  ~ In underscore (list_ascii_of_string (NilEmpty.string_of_uint d)).
Proof.
  induction d; cbn; [tauto | ..]; intros [H|H]; try discriminate; auto.
Qed.

Lemma nat_toString_digits (n : nat) :
  exists d, Js.nat_toString n = NilEmpty.string_of_uint d /\ Nat.of_uint d = n.
Proof.
  unfold Js.nat_toString, NilZero.string_of_uint.
  pose proof (DecimalNat.Unsigned.of_to n) as H.
  destruct (Nat.to_uint n) eqn:E; eauto.
  exists (Decimal.D0 Decimal.Nil). split; [reflexivity|]. cbn in *. exact H.
Qed.

Lemma zeros_no_underscore (k : nat) :
  ~ In underscore (list_ascii_of_string (Js.repeat_char "0" k)).
Proof. induction k; cbn; [tauto|]. intros [H|H]; [discriminate | auto]. Qed.

Lemma index_string_no_underscore (i : nat) :
  ~ In underscore (list_ascii_of_string (index_string i)).
Proof.
  unfold index_string, Js.padStart. rewrite chars_append, in_app_iff.
  destruct (nat_toString_digits (i + 1)) as (d & -> & _).
  intros [H|H]; [exact (zeros_no_underscore _ H) | exact (uint_chars_no_underscore _ H)].
Qed.

Lemma read_index_zeros (k : nat) (s : string) :
  read_index (Js.repeat_char "0" k ++ s) = read_index s.
Proof.
  induction k as [|k IH]; cbn [Js.repeat_char append]; [reflexivity|].
  rewrite <- IH. unfold read_index. cbn [NilEmpty.uint_of_string].
  destruct (NilEmpty.uint_of_string _); reflexivity.
Qed.

(** The index reads back from its three digits. *)
Lemma read_index_string (i : nat) : read_index (index_string i) = Some (i + 1)%nat.
Proof.
  unfold index_string, Js.padStart. rewrite read_index_zeros.
  destruct (nat_toString_digits (i + 1)) as (d & -> & Hd).
  unfold read_index. rewrite NilEmpty.usu. cbn. now rewrite Hd.
Qed.

(** The shape of an indexed name. *)
Lemma indexed_name_shape (inputFile : string) (job : BatchJob) (index : nat)
    (fn : FileNaming) :
  fileNaming (exportOptions job) = Some fn ->
  Js.truthy_opt_bool (includeIndex fn) = true ->
  exists stem,
    generateOutputFilename inputFile job index
    = ((stem ++ "_" ++ index_string index)
         ++ extension_for (format (exportOptions job)) inputFile)%string.
Proof.
  intros Hfn Hidx. unfold generateOutputFilename. rewrite Hfn, Hidx.
  eexists. unfold extension_for, index_string. reflexivity.
Qed.

(** X18.  With [includeIndex] set, files at different positions of a job
    never get the same output name, as long as the two names carry the same
    extension (always so for the formats [jpeg], [png] and [tiff], and for
    input files of one extension). *)
Theorem indexed_names_are_distinct :
  forall (job : BatchJob) (fn : FileNaming) (f1 f2 : string) (i1 i2 : nat),
    fileNaming (exportOptions job) = Some fn ->
    Js.truthy_opt_bool (includeIndex fn) = true ->
    extension_for (format (exportOptions job)) f1
    = extension_for (format (exportOptions job)) f2 ->
    i1 <> i2 ->
    generateOutputFilename f1 job i1 <> generateOutputFilename f2 job i2.
Proof.
  intros job fn f1 f2 i1 i2 Hfn Hidx Hext Hne Heq.
  destruct (indexed_name_shape f1 job i1 fn Hfn Hidx) as (s1 & E1).
  destruct (indexed_name_shape f2 job i2 fn Hfn Hidx) as (s2 & E2).
  rewrite E1, E2, Hext in Heq.
  apply (f_equal list_ascii_of_string) in Heq.
  rewrite !chars_append in Heq. apply app_inv_tail in Heq.
  cbn [list_ascii_of_string app] in Heq.
  apply (split_at_last underscore) in Heq as [_ Hd];
    try apply index_string_no_underscore.
  apply chars_inj in Hd.
  pose proof (read_index_string i1) as R1.
  rewrite Hd, read_index_string in R1. injection R1 as R1. lia.
Qed.

Lemma indexed_names_are_distinct_witness :
  generateOutputFilename "photo.jpg" Examples.scenario_D 0
  <> generateOutputFilename "photo.jpg" Examples.scenario_D 1.
Proof.
  apply (indexed_names_are_distinct Examples.scenario_D Examples.edit_naming
           "photo.jpg" "photo.jpg" 0 1 eq_refl eq_refl eq_refl).
  discriminate.
Defined.

(** X19.  The name follows the format only for [jpeg], [png] and [tiff],
    spelt so.  For every other format the encoder accepts ([webp], [jpg],
    [tif], or any spelling in capitals) the file a job writes is encoded in
    that format under a name that keeps the extension of the input
    file. *)
Theorem written_name_keeps_input_extension :
  forall (w : World) (job : BatchJob) (inputFile : string) (index : nat)
         (wr : PhotoProcessor.Written),
    format (exportOptions job) <> "jpeg"%string ->
    format (exportOptions job) <> "png"%string ->
    format (exportOptions job) <> "tiff"%string ->
    snd (processFile w job inputFile index) = Some wr ->
    exists enc rest stem,
      PhotoProcessor.encoder (exportOptions job) = Some enc /\
      is_encoder enc = true /\
      PhotoProcessor.written_image wr = Apply enc rest /\
      PhotoProcessor.written_path wr
      = Path.join (outputDirectory job)
          (stem ++ Path.ext (Path.parse inputFile))%string.
Proof.
  intros w job inputFile index wr Hj Hp Ht.
  assert (Hname : exists stem,
             generateOutputFilename inputFile job index
             = (stem ++ Path.ext (Path.parse inputFile))%string).
  { unfold generateOutputFilename.
    apply String.eqb_neq in Hj, Hp, Ht. rewrite Hj, Hp, Ht. eexists. reflexivity. }
  destruct Hname as (stem & Hname).
  unfold processFile.
  destruct (negb (existsSync w inputFile)); [discriminate|].
  destruct (_ && _); [discriminate|].
  destruct (PhotoProcessor.processPhoto w inputFile (adjustments job));
    [|discriminate].
  cbn [snd]. unfold PhotoProcessor.exportPhoto, PhotoProcessor.export_source.
  cbn [bind].
  destruct (PhotoProcessor.when _ w _ _) as [resized|]; cbn [bind]; [|discriminate].
  destruct (PhotoProcessor.encoder (exportOptions job)) as [enc|] eqn:Henc;
    [|discriminate].
  assert (Hisenc : is_encoder enc = true).
  { unfold PhotoProcessor.encoder in Henc.
    repeat match type of Henc with
           | (if ?c then _ else _) = _ => destruct c
           end; try discriminate; injection Henc as <-; reflexivity. }
  unfold call. destruct (validate w enc); [discriminate|].
  match goal with
  | |- context [toFile w ?img ?p] => destruct (toFile w img p)
  end; [discriminate|].
  cbn [snd]. intros [= <-]. cbn [PhotoProcessor.written_image PhotoProcessor.written_path].
  rewrite Hname. eauto 8.
Qed.

Lemma written_name_keeps_input_extension_witness :
  exists wr rest stem,
    snd (processFile Examples.world Runs.webp_job "/in/a.jpg" 0) = Some wr /\
    PhotoProcessor.written_image wr = Apply (OpWebp 90) rest /\
    PhotoProcessor.written_path wr = Path.join "/out" (stem ++ ".jpg")%string.
Proof.
  eexists.
  destruct (written_name_keeps_input_extension Examples.world Runs.webp_job
              "/in/a.jpg" 0 _ ltac:(discriminate) ltac:(discriminate)
              ltac:(discriminate) eq_refl)
    as (enc & rest & stem & He & _ & Hi & Hp).
  exists rest, stem. split; [reflexivity|].
  injection He as <-. split; [exact Hi | exact Hp].
Defined.

End OutputNames.

(** ** Presets *)

Section Presets.
Import Store PresetManager PresetSpec.

Lemma get_set_same (o : Props) k v : get_prop (set_prop o k v) k = v.
Proof.
  induction o as [|[k' v'] r IH]; cbn.
  - now rewrite String.eqb_refl.
  - destruct (String.eqb k' k) eqn:E; cbn; rewrite E; auto.
Qed.

Lemma get_set_other (o : Props) k v k' :
  k <> k' -> get_prop (set_prop o k v) k' = get_prop o k'.
Proof.
  intros Hne. induction o as [|[k0 v0] r IH]; cbn.
  - destruct (String.eqb_spec k k'); congruence.
  - destruct (String.eqb_spec k0 k) as [->|Hk]; cbn.
    + destruct (String.eqb_spec k k'); congruence.
    + destruct (String.eqb_spec k0 k'); auto.
Qed.

Lemma keys_set (o : Props) k v k' :
  In k' (keys (set_prop o k v)) <-> k' = k \/ In k' (keys o).
Proof.
  unfold keys. induction o as [|[k0 v0] r IH]; cbn.
  - intuition.
  - destruct (String.eqb_spec k0 k) as [->|Hk]; cbn.
    + intuition.
    + rewrite IH. intuition.
Qed.

Lemma NoDup_set (o : Props) k v :
  NoDup (keys o) -> NoDup (keys (set_prop o k v)).
Proof.
  induction o as [|[k0 v0] r IH]; cbn; intros Hnd.
  - constructor; [intros []|constructor].
  - inversion Hnd as [|? ? Hnin Hr]; subst.
    destruct (String.eqb_spec k0 k) as [->|Hk]; cbn.
    + constructor; auto.
    + constructor; auto. intros Hin.
      apply (keys_set r k v k0) in Hin. destruct Hin; [congruence|auto].
Qed.

Lemma has_key_In (o : Props) k : has_key o k = true <-> In k (keys o).
Proof.
  unfold has_key. rewrite existsb_exists. split.
  - intros [x [Hin He]]. apply String.eqb_eq in He. now subst.
  - intros Hin. exists k. split; auto. apply String.eqb_refl.
Qed.

Lemma get_prop_absent (o : Props) k : ~ In k (keys o) -> get_prop o k = VUndefined.
Proof.
  induction o as [|[k0 v0] r IH]; cbn; auto.
  intros Hn. destruct (String.eqb_spec k0 k); [tauto|]. apply IH. tauto.
Qed.

Lemma get_prop_In (o : Props) k v :
  NoDup (keys o) -> In (k, v) o -> get_prop o k = v.
Proof.
  induction o as [|[k0 v0] r IH]; cbn; [tauto|].
  intros Hnd [E|Hin].
  - inversion E; subst. now rewrite String.eqb_refl.
  - inversion Hnd as [|? ? Hnin Hr]; subst.
    destruct (String.eqb_spec k0 k) as [->|Hk]; auto.
    exfalso. apply Hnin. unfold keys. apply in_map_iff. now exists (k, v).
Qed.

Lemma keys_spread2 (a b : Props) k :
  In k (keys (spread2 a b)) <-> In k (keys a) \/ In k (keys b).
Proof.
  unfold spread2. revert a. induction b as [|[k0 v0] r IH]; intros a; cbn.
  - tauto.
  - rewrite IH, keys_set. cbn. intuition.
Qed.

Lemma NoDup_spread2 (a b : Props) :
  NoDup (keys a) -> NoDup (keys (spread2 a b)).
Proof.
  unfold spread2. revert a. induction b as [|[k0 v0] r IH]; intros a Hnd; cbn; auto.
  apply IH. now apply NoDup_set.
Qed.

Lemma get_spread2 (a b : Props) k :
  NoDup (keys b) ->
  get_prop (spread2 a b) k = if has_key b k then get_prop b k else get_prop a k.
Proof.
  unfold spread2. revert a. induction b as [|[k0 v0] r IH]; intros a Hnd;
    [reflexivity|].
  cbn [fold_left fst snd].
  inversion Hnd as [|? ? Hnin Hr]; subst.
  rewrite (IH _ Hr).
  destruct (String.eqb_spec k0 k) as [->|Hk].
  - assert (H1 : has_key ((k, v0) :: r) k = true).
    { apply has_key_In. now left. }
    assert (H2 : has_key r k = false).
    { destruct (has_key r k) eqn:E; auto. apply has_key_In in E. contradiction. }
    rewrite H1, H2, get_set_same. cbn. now rewrite String.eqb_refl.
  - assert (H1 : has_key ((k0, v0) :: r) k = has_key r k).
    { unfold has_key. cbn. destruct (String.eqb_spec k k0); [congruence|auto]. }
    rewrite H1. cbn [get_prop].
    destruct (String.eqb_spec k0 k); [congruence|].
    destruct (has_key r k); auto.
    now apply get_set_other.
Qed.

Lemma set_prop_same (o : Props) k v :
  In k (keys o) -> get_prop o k = v -> set_prop o k v = o.
Proof.
  induction o as [|[k0 v0] r IH]; cbn; [tauto|].
  intros Hin Hget. destruct (String.eqb_spec k0 k) as [->|Hk].
  - now subst.
  - f_equal. apply IH; auto. destruct Hin; [congruence|auto].
Qed.

Lemma spread2_absorbed (o b : Props) :
  (forall k v, In (k, v) b -> In k (keys o) /\ get_prop o k = v) ->
  spread2 o b = o.
Proof.
  unfold spread2. induction b as [|[k0 v0] r IH]; intros H; cbn; auto.
  destruct (H k0 v0 (or_introl eq_refl)) as [Hin Hget].
  rewrite (set_prop_same o k0 v0 Hin Hget).
  apply IH. intros k v Hkv. apply H. now right.
Qed.

(** X20. [applyPreset] reads every key from the preset when the preset has
    it and from the current adjustments otherwise, its keys are those of
    either, each once; an unknown preset id gives the current adjustments
    back. *)
Theorem applyPreset_spec (s : State) (current : Props) (presetId : string)
    (Hcur : NoDup (keys current))
    (Hwf : forall preset, getPresetById s presetId = Some preset ->
                          NoDup (keys (adjustments preset))) :
  let result := applyPreset s current presetId in
  NoDup (keys result) /\
  match getPresetById s presetId with
  | None => result = current
  | Some preset =>
      forall k,
        (In k (keys result) <-> In k (keys current) \/ In k (keys (adjustments preset))) /\
        get_prop result k =
          if has_key (adjustments preset) k then get_prop (adjustments preset) k
          else get_prop current k
  end.
Proof.
  unfold applyPreset. cbv zeta.
  destruct (getPresetById s presetId) as [preset|] eqn:E.
  - split; [now apply NoDup_spread2|].
    intros k. split; [apply keys_spread2|].
    apply get_spread2. now apply Hwf.
  - split; auto.
Qed.

Lemma applyPreset_spec_witness :
  exists s current presetId,
    NoDup (keys current) /\
    getPresetById s presetId <> None /\
    let result := applyPreset s current presetId in
    NoDup (keys result) /\
    match getPresetById s presetId with
    | None => result = current
    | Some preset =>
        forall k,
          (In k (keys result) <-> In k (keys current) \/ In k (keys (adjustments preset))) /\
          get_prop result k =
            if has_key (adjustments preset) k then get_prop (adjustments preset) k
            else get_prop current k
    end.
Proof.
  exists (initializeDefaultPresets 0 0 1), edited, "vintage-film"%string.
  split; [|split].
  - vm_compute. repeat (constructor; [cbn; intuition discriminate|]). constructor.
  - vm_compute. discriminate.
  - apply (applyPreset_spec (initializeDefaultPresets 0 0 1) edited "vintage-film").
    + vm_compute. repeat (constructor; [cbn; intuition discriminate|]). constructor.
    + intros preset E. vm_compute in E. injection E as <-.
      vm_compute. repeat (constructor; [cbn; intuition discriminate|]). constructor.
Defined.

(** X21. Applying the same preset a second time changes nothing: the
    result of [applyPreset] is a fixed point of applying that preset. *)
Theorem applyPreset_idempotent (s : State) (current : Props) (presetId : string)
    (Hwf : forall preset, getPresetById s presetId = Some preset ->
                          NoDup (keys (adjustments preset))) :
  applyPreset s (applyPreset s current presetId) presetId
  = applyPreset s current presetId.
Proof.
  unfold applyPreset.
  destruct (getPresetById s presetId) as [preset|] eqn:E; auto.
  pose proof (Hwf preset eq_refl) as Hnd.
  apply spread2_absorbed. intros k v Hin. split.
  - apply keys_spread2. right. unfold keys. apply in_map_iff. now exists (k, v).
  - rewrite (get_spread2 _ _ k Hnd).
    assert (Hk : has_key (adjustments preset) k = true).
    { apply has_key_In. unfold keys. apply in_map_iff. now exists (k, v). }
    rewrite Hk. now apply get_prop_In.
Qed.

Lemma applyPreset_idempotent_witness :
  getPresetById (initializeDefaultPresets 0 0 1) "artistic-dramatic" <> None /\
  applyPreset (initializeDefaultPresets 0 0 1)
    (applyPreset (initializeDefaultPresets 0 0 1) edited "artistic-dramatic")
    "artistic-dramatic"
  = applyPreset (initializeDefaultPresets 0 0 1) edited "artistic-dramatic".
Proof.
  split; [vm_compute; discriminate|].
  apply (applyPreset_idempotent (initializeDefaultPresets 0 0 1) edited "artistic-dramatic").
  intros preset E. vm_compute in E. injection E as <-.
  vm_compute. repeat (constructor; [cbn; intuition discriminate|]). constructor.
Defined.

Lemma strict_eq_refl v : strict_eq v v = true.
Proof.
  destruct v; cbn; auto.
  - apply Qeq_bool_iff. reflexivity.
  - apply String.eqb_refl.
  - now destruct b.
  - apply Nat.eqb_refl.
Qed.

Lemma strict_eq_sym a b : strict_eq a b = strict_eq b a.
Proof.
  destruct a, b; cbn; auto.
  - destruct (Qeq_bool q q0) eqn:E1, (Qeq_bool q0 q) eqn:E2; auto.
    + apply Qeq_bool_iff in E1. symmetry in E1. apply Qeq_bool_iff in E1. congruence.
    + apply Qeq_bool_iff in E2. symmetry in E2. apply Qeq_bool_iff in E2. congruence.
  - apply String.eqb_sym.
  - now destruct b, b0.
  - apply Nat.eqb_sym.
Qed.

Lemma strict_eq_undefined v : strict_eq v VUndefined = true -> v = VUndefined.
Proof. destruct v; cbn; congruence. Qed.

Lemma keys_filter (f : string * Value -> bool) (o : Props) k :
  NoDup (keys o) ->
  (In k (keys (filter f o)) <-> In k (keys o) /\ f (k, get_prop o k) = true).
Proof.
  intros Hnd. unfold keys. rewrite !in_map_iff. split.
  - intros [[k0 v0] [Hk Hin]]. cbn in Hk. subst k0.
    apply filter_In in Hin. destruct Hin as [Hin Hf].
    split; [now exists (k, v0)|].
    now rewrite (get_prop_In o k v0 Hnd Hin).
  - intros [[[k0 v0] [Hk Hin]] Hf]. cbn in Hk. subst k0.
    rewrite (get_prop_In o k v0 Hnd Hin) in Hf.
    exists (k, v0). split; auto. apply filter_In. now split.
Qed.

Lemma NoDup_keys_filter (f : string * Value -> bool) (o : Props) :
  NoDup (keys o) -> NoDup (keys (filter f o)).
Proof.
  unfold keys. induction o as [|[k0 v0] r IH]; cbn; intros Hnd; auto.
  inversion Hnd as [|? ? Hnin Hr]; subst.
  destruct (f (k0, v0)); cbn; auto.
  constructor; auto. intros Hin. apply Hnin.
  apply in_map_iff in Hin. destruct Hin as [x [Hx Hin]].
  apply filter_In in Hin. apply in_map_iff. exists x. tauto.
Qed.

Lemma get_prop_filter (f : string * Value -> bool) (o : Props) k :
  NoDup (keys o) -> In k (keys (filter f o)) ->
  get_prop (filter f o) k = get_prop o k.
Proof.
  intros Hnd Hin. pose proof Hin as Hin'.
  unfold keys in Hin'. apply in_map_iff in Hin'.
  destruct Hin' as [[k0 v0] [Hk Hin']]. cbn in Hk. subst k0.
  rewrite (get_prop_In _ k v0 (NoDup_keys_filter f o Hnd) Hin').
  apply filter_In in Hin'. destruct Hin' as [Hin' _].
  now rewrite (get_prop_In o k v0 Hnd Hin').
Qed.

Lemma getPresetById_new (s : State) (preset : PhotoPreset) :
  getPresetById s (id preset) = None ->
  getPresetById (s ++ [preset])%list (id preset) = Some preset.
Proof.
  unfold getPresetById. induction s as [|p r IH]; cbn.
  - now rewrite String.eqb_refl.
  - destruct (String.eqb (id p) (id preset)); [discriminate|auto].
Qed.

(** X22. A preset made by [createPresetFromAdjustments] from an adjustment
    set that defines every dial, once applied to the all-zero defaults,
    gives back the adjustment set: every key reads a value [===] to the
    original one.  The preset keeps only the keys whose value is not the
    default. *)
Theorem preset_round_trip (now : Z) (rnd : string) (a : Props)
    (n d c : string) (s : State)
    (Hnd : NoDup (keys a))
    (Hdials : forall k, In k (keys defaultAdjustments) -> get_prop a k <> VUndefined)
    (Hfresh : getPresetById s (new_id now rnd) = None) :
  let (preset, s') := createPresetFromAdjustments now rnd a n d c s in
  id preset = new_id now rnd /\
  getPresetById s' (id preset) = Some preset /\
  (forall k, In k (keys (adjustments preset)) <->
             In k (keys a) /\ non_default (k, get_prop a k) = true) /\
  forall k,
    strict_eq (get_prop (applyPreset s' defaultAdjustments (id preset)) k)
              (get_prop a k) = true.
Proof.
  unfold createPresetFromAdjustments, createCustomPreset. cbv zeta.
  set (preset := {| id := _ |}).
  assert (Hid : id preset = new_id now rnd) by reflexivity.
  assert (Hget : getPresetById (s ++ [preset])%list (id preset) = Some preset).
  { apply getPresetById_new. now rewrite Hid. }
  split; [exact Hid|]. split; [exact Hget|]. split.
  - intros k. apply (keys_filter non_default a k Hnd).
  - intros k. unfold applyPreset. rewrite Hget.
    change (adjustments preset) with (filterNonDefaultAdjustments a).
    unfold filterNonDefaultAdjustments.
    rewrite (get_spread2 _ _ k (NoDup_keys_filter non_default a Hnd)).
    destruct (has_key (filter non_default a) k) eqn:Hk.
    + apply has_key_In in Hk.
      rewrite (get_prop_filter non_default a k Hnd Hk). apply strict_eq_refl.
    + assert (Hnk : ~ In k (keys (filter non_default a))).
      { intros Hin. apply has_key_In in Hin. congruence. }
      rewrite (keys_filter non_default a k Hnd) in Hnk.
      destruct (in_dec string_dec k (keys a)) as [Hin|Hnin].
      * assert (Hf : non_default (k, get_prop a k) = false).
        { destruct (non_default (k, get_prop a k)); auto. exfalso. now apply Hnk. }
        unfold non_default in Hf. cbn [fst snd] in Hf.
        apply Bool.andb_false_iff in Hf. destruct Hf as [Hf|Hf];
          apply Bool.negb_false_iff in Hf.
        -- now rewrite strict_eq_sym.
        -- apply strict_eq_undefined in Hf. rewrite Hf.
           destruct (in_dec string_dec k (keys defaultAdjustments)) as [Hd|Hd].
           ++ exfalso. now apply (Hdials k Hd).
           ++ now rewrite (get_prop_absent _ k Hd).
      * rewrite (get_prop_absent a k Hnin).
        destruct (in_dec string_dec k (keys defaultAdjustments)) as [Hd|Hd].
        -- exfalso. apply (Hdials k Hd). now apply get_prop_absent.
        -- now rewrite (get_prop_absent _ k Hd).
Qed.

Lemma preset_round_trip_witness :
  let s := initializeDefaultPresets 5 0 1 in
  let (preset, s') :=
    createPresetFromAdjustments 1700000000000 "k3j9x2m1q" edited "Mine" "" "street" s in
  id preset = new_id 1700000000000 "k3j9x2m1q" /\
  getPresetById s' (id preset) = Some preset /\
  (forall k, In k (keys (adjustments preset)) <->
             In k (keys edited) /\ non_default (k, get_prop edited k) = true) /\
  forall k,
    strict_eq (get_prop (applyPreset s' defaultAdjustments (id preset)) k)
              (get_prop edited k) = true.
Proof.
  cbv zeta.
  apply (preset_round_trip 1700000000000 "k3j9x2m1q" edited "Mine" "" "street"
           (initializeDefaultPresets 5 0 1)).
  - vm_compute. repeat (constructor; [cbn; intuition discriminate|]). constructor.
  - intros k Hin. vm_compute in Hin.
    repeat (destruct Hin as [<-|Hin]; [vm_compute; discriminate|]). destruct Hin.
  - vm_compute. reflexivity.
Defined.

Lemma findIndex_app {A} (f : A -> bool) (l1 l2 : list A) :
  (forall x, In x l1 -> f x = false) ->
  findIndex f (l1 ++ l2) = option_map (Nat.add (List.length l1)) (findIndex f l2).
Proof.
  induction l1 as [|x r IH]; cbn; intros H.
  - now destruct (findIndex f l2).
  - rewrite (H x (or_introl eq_refl)). rewrite IH by (intros; apply H; now right).
    now destruct (findIndex f l2).
Qed.

Lemma remove_at_app {A} (l1 l2 : list A) j :
  remove_at (List.length l1 + j) (l1 ++ l2) = (l1 ++ remove_at j l2)%list.
Proof.
  unfold remove_at. induction l1 as [|x r IH]; cbn; auto.
  cbn in IH. now rewrite IH.
Qed.

Lemma Forall_remove_at {A} (P : A -> Prop) (l : list A) j :
  Forall P l -> Forall P (remove_at j l).
Proof.
  intros H. revert j. unfold remove_at.
  induction H as [|x r Hx Hr IH]; intros [|j]; cbn; auto.
Qed.

Lemma builtin_not_custom now l1 l2 preset :
  In preset (initializeDefaultPresets now l1 l2) -> is_custom preset = false.
Proof.
  cbn. intros H.
  repeat (destruct H as [<-|H]; [reflexivity|]). destruct H.
Qed.

Lemma new_id_custom now rnd : String.prefix "custom-" (new_id now rnd) = true.
Proof. unfold new_id. cbn. now destruct (Js.Z_toString now ++ String "-" rnd)%string. Qed.

Lemma call_keeps_builtins now l1 l2 (customs : list PhotoPreset) (c : Call) :
  Forall (fun p => is_custom p = true) customs ->
  exists customs',
    call (initializeDefaultPresets now l1 l2 ++ customs)%list c
      = (initializeDefaultPresets now l1 l2 ++ customs')%list /\
    Forall (fun p => is_custom p = true) customs'.
Proof.
  intros Hc. destruct c as [t rnd n d c a|t rnd a n d c|i].
  - cbn [call createCustomPreset snd]. eexists. rewrite <- app_assoc. split; eauto.
    apply Forall_app. split; auto. constructor; [|constructor].
    apply new_id_custom.
  - cbn [call createPresetFromAdjustments createCustomPreset snd].
    eexists. rewrite <- app_assoc. split; eauto.
    apply Forall_app. split; auto. constructor; [|constructor].
    apply new_id_custom.
  - cbn [call]. unfold deletePreset.
    destruct (String.prefix "custom-" i) eqn:Hp.
    + rewrite findIndex_app.
      * destruct (findIndex _ customs) as [j|]; cbn [option_map negb snd].
        -- rewrite remove_at_app. eexists. split; eauto.
           now apply Forall_remove_at.
        -- eauto.
      * intros x Hx. apply (builtin_not_custom now l1 l2) in Hx.
        destruct (String.eqb_spec (id x) i) as [E|]; auto.
        unfold is_custom in Hx. rewrite E in Hx. congruence.
    + destruct (findIndex _ _); cbn [negb snd]; eauto.
Qed.

(** X23. Whatever presets are created and deleted, the seven built-in
    presets stay first in the list, unchanged and in their order, and
    every other preset of the list has an id starting with [custom-]:
    [deletePreset] never removes a built-in one. *)
Theorem builtin_presets_survive (now : Z) (l1 l2 : nat) (cs : list Call) :
  exists customs,
    calls cs (initializeDefaultPresets now l1 l2)
      = (initializeDefaultPresets now l1 l2 ++ customs)%list /\
    Forall (fun p => is_custom p = true) customs.
Proof.
  assert (H : forall customs, Forall (fun p => is_custom p = true) customs ->
            exists customs',
              calls cs (initializeDefaultPresets now l1 l2 ++ customs)%list
                = (initializeDefaultPresets now l1 l2 ++ customs')%list /\
              Forall (fun p => is_custom p = true) customs').
  { unfold calls. induction cs as [|c r IH]; intros customs Hc.
    - exists customs. now split.
    - cbn [fold_left].
      destruct (call_keeps_builtins now l1 l2 customs c Hc) as [c' [-> Hc']].
      now apply IH. }
  destruct (H [] (Forall_nil _)) as [customs' [E Hc']].
  rewrite app_nil_r in E. eauto.
Qed.

Lemma count_one (c : string) (cats : list string) :
  NoDup cats -> In c cats ->
  list_sum (map (fun c' => if String.eqb c c' then 1%nat else 0%nat) cats) = 1%nat.
Proof.
  induction cats as [|x r IH]; cbn; [tauto|].
  intros Hnd Hin. inversion Hnd as [|? ? Hnin Hr]; subst.
  destruct (String.eqb_spec c x) as [->|Hne].
  - f_equal. clear IH Hin Hnd Hr. induction r as [|y r IH]; cbn; auto.
    destruct (String.eqb_spec x y) as [->|_]; [exfalso; apply Hnin; now left|].
    apply IH. intros H. apply Hnin. now right.
  - destruct Hin as [->|Hin]; [congruence|]. now apply IH.
Qed.

Lemma summary_cons (p : PhotoPreset) (s : State) (cats : list string) :
  list_sum (map (fun c => List.length (filter (fun preset => String.eqb (category preset) c) (p :: s))) cats)
  = (list_sum (map (fun c' => if String.eqb (category p) c' then 1 else 0) cats)
     + list_sum (map (fun c => List.length (filter (fun preset => String.eqb (category preset) c) s)) cats))%nat.
Proof.
  unfold list_sum. induction cats as [|x r IH]; [reflexivity|].
  cbn [map fold_right]. rewrite IH. cbn [filter].
  destruct (String.eqb (category p) x); cbn [List.length]; lia.
Qed.

(** X24. When every preset carries one of the seven categories, the
    counts of [getCategorySummary] add up to the number of presets, and
    the summary lists the seven categories in its fixed order. *)
Theorem getCategorySummary_total (s : State)
    (Hcat : Forall known_category s) :
  map fst (getCategorySummary s) = categories /\
  list_sum (map snd (getCategorySummary s)) = List.length s.
Proof.
  unfold getCategorySummary. split.
  - rewrite map_map. cbn [fst]. apply map_id.
  - rewrite map_map. cbn [snd].
    induction Hcat as [|p r Hp Hr IH].
    + reflexivity.
    + rewrite summary_cons, IH.
      rewrite (count_one (category p) categories); auto.
      unfold categories.
      repeat (constructor; [cbn; intuition discriminate|]). constructor.
Qed.

Lemma getCategorySummary_total_witness :
  Forall known_category (initializeDefaultPresets 0 0 1) /\
  map fst (getCategorySummary (initializeDefaultPresets 0 0 1)) = categories /\
  list_sum (map snd (getCategorySummary (initializeDefaultPresets 0 0 1)))
    = List.length (initializeDefaultPresets 0 0 1).
Proof.
  assert (H : Forall known_category (initializeDefaultPresets 0 0 1)).
  { repeat (constructor; [unfold known_category; cbn; tauto|]). constructor. }
  split; [exact H|].
  apply (getCategorySummary_total (initializeDefaultPresets 0 0 1) H).
Defined.

End Presets.
